(** * Real-time voice pipeline of the Reminisce front end

    A shallow embedding of the voice streaming core:
    - [WebAudioPlaybackEngine] and [NativeAudioPlaybackEngine]
      (services/audioPlayback.ts), the gapless playback scheduler;
    - [PCMAudioProcessor] (audio-worklet-processor.js), the frame encoder;
    - [WebAudioRecorder] (services/webAudioRecorder.ts), the resampler;
    - [VoiceSession] (hooks/useVoiceSession.ts), the session state machine.

    JavaScript numbers are modelled by exact rationals ([Q]) where the code
    computes with fractions (audio clock, sample ratios, float samples) and
    by [Z] where it computes with integers.  The resampler is modelled
    twice: with exact arithmetic ([WebAudioRecorder]), and with every
    operation rounded to binary64 as the engine does ([Binary64],
    [WebAudioRecorder64]); the two differ where a rounding error moves an
    interpolated value across a half.  Values read from the platform
    (the audio clock, the wall clock, the microphone permission) are
    arguments of the operation that reads them. *)

From Stdlib Require Import ZArith QArith Qround Qminmax Qabs Qpower.
From Stdlib Require Import List String Ascii Bool.
From Stdlib Require Import Strings.Byte Lia Lqa.
Import ListNotations.

Set Implicit Arguments.

(** ** JavaScript completions

    A call either returns or throws; the mutations made before the throw
    stay visible, so both carry the state reached. *)

Inductive completion (S : Type) : Type :=
| Returns (s : S)
| Throws (s : S).

Definition state_of {S : Type} (c : completion S) : S :=
  match c with
  | Returns s => s
  | Throws s => s
  end.

Definition returned {S : Type} (c : completion S) : bool :=
  match c with
  | Returns _ => true
  | Throws _ => false
  end.

(** [x < y] on JavaScript numbers, as a boolean test. *)
Definition Qlt_bool (x y : Q) : bool := negb (Qle_bool y x).

(** ** Typed arrays *)

(** Storing a number into an [Int16Array] slot: the integer part modulo
    2^16, read back as a signed value. *)
Definition wrap_int16 (z : Z) : Z := (z + 32768) mod 65536 - 32768.

(** Truncation toward zero (the integer part used by typed-array stores). *)
Definition Qtruncate (x : Q) : Z := Z.quot (Qnum x) (Zpos (Qden x)).

Definition Int16_store (x : Q) : Z := wrap_int16 (Qtruncate x).

Definition is_int16 (z : Z) : Prop := (-32768 <= z <= 32767)%Z.

Definition byte_val (b : byte) : Z := Z.of_N (Byte.to_N b).

(** [new Int16Array(buffer)]: a little-endian view of the bytes; a
    [RangeError] ([None]) when the byte length is odd. *)
Fixpoint Int16Array_of (bs : list byte) : option (list Z) :=
  match bs with
  | [] => Some []
  | [_] => None
  | lo :: hi :: rest =>
      match Int16Array_of rest with
      | Some l => Some (wrap_int16 (byte_val lo + 256 * byte_val hi) :: l)
      | None => None
      end
  end.

(** ** Gapless playback engine (services/audioPlayback.ts) *)

Definition SAMPLE_RATE : Z := 24000.
Definition CHUNKS_BEFORE_START : nat := 3.

(** The safety margin [0.05] seconds added to the audio clock. *)
Definition SAFETY_MARGIN : Q := 5 # 100.

(** A mono [AudioBuffer] at [SAMPLE_RATE]. *)
Record AudioBuffer : Type := mkAudioBuffer {
  channelData : list Q
}.

(** [AudioBuffer.duration]: length / sampleRate, in seconds. *)
Definition duration (b : AudioBuffer) : Q :=
  inject_Z (Z.of_nat (List.length (channelData b))) / inject_Z SAMPLE_RATE.

(** [pcmToAudioBuffer]: each 16-bit sample divided by 32768.  Two of
    its calls can throw ([None]): the [Int16Array] view of an odd number
    of bytes ([RangeError]), and [createBuffer] asked for a buffer of
    length 0 ([NotSupportedError]). *)
Definition pcmToAudioBuffer (pcmData : list byte) : option AudioBuffer :=
  match Int16Array_of pcmData with
  | Some [] => None
  | Some int16 =>
      Some (mkAudioBuffer (map (fun s => inject_Z s / inject_Z 32768) int16))
  | None => None
  end.

Module WebAudioPlaybackEngine.

(** One [source.start(when)] call: the buffer, the [when] argument and
    the reading of [ctx.currentTime] at the call. *)
Record ScheduledSource : Type := mkSource {
  buffer : AudioBuffer;
  startTime : Q;
  scheduledAt : Q
}.

(** The [AudioContext]: the [start] calls it received, latest first.
    Closing a context cancels them; a new context has none. *)
Record AudioContext : Type := mkContext {
  sources : list ScheduledSource
}.

Definition new_AudioContext : AudioContext := mkContext [].

(** [ctx.close()]: the scheduled sources are cancelled. *)
Definition close (c : AudioContext) : AudioContext := mkContext [].

Record t : Type := mkEngine {
  ctx : option AudioContext;
  nextStartTime : Q;
  started : bool;
  bufferedChunks : list AudioBuffer;
  drainedCallback : bool;   (* a callback is registered *)
  pendingSources : Z;
  destroyed : bool
}.

(** Field initialisers of the class. *)
Definition new_engine : t :=
  mkEngine None 0 false [] false 0 false.

Definition init (e : t) : t :=
  mkEngine (Some new_AudioContext) (nextStartTime e) (started e)
           (bufferedChunks e) (drainedCallback e) (pendingSources e)
           (destroyed e).

Definition has_ctx (e : t) : bool :=
  match ctx e with
  | Some _ => true
  | None => false
  end.

(** [scheduleBuffer], with [now] the value of [ctx.currentTime]. *)
Definition scheduleBuffer (now : Q) (audioBuffer : AudioBuffer) (e : t) : t :=
  match ctx e with
  | None => e
  | Some c =>
      let next :=
        if Qlt_bool (nextStartTime e) now
        then now + SAFETY_MARGIN
        else nextStartTime e in
      mkEngine
        (Some (mkContext (mkSource audioBuffer next now :: sources c)))
        (next + duration audioBuffer)
        (started e) (bufferedChunks e) (drainedCallback e)
        (pendingSources e + 1) (destroyed e)
  end.

(** The [onended] handler installed by [scheduleBuffer]; the boolean
    tells whether the drained callback is invoked. *)
Definition onended (e : t) : t * bool :=
  let pending := (pendingSources e - 1)%Z in
  (mkEngine (ctx e) (nextStartTime e) (started e) (bufferedChunks e)
            (drainedCallback e) pending (destroyed e),
   (pending =? 0)%Z && drainedCallback e).

Definition startPlayback (now : Q) (e : t) : t :=
  match ctx e with
  | None => e
  | Some _ =>
      let e1 :=
        mkEngine (ctx e) (now + SAFETY_MARGIN) true (bufferedChunks e)
                 (drainedCallback e) (pendingSources e) (destroyed e) in
      let e2 :=
        fold_left (fun acc buf => scheduleBuffer now buf acc)
                  (bufferedChunks e) e1 in
      mkEngine (ctx e2) (nextStartTime e2) (started e2) []
               (drainedCallback e2) (pendingSources e2) (destroyed e2)
  end.

Definition enqueue (now : Q) (pcmData : list byte) (e : t) : completion t :=
  if destroyed e || negb (has_ctx e) then Returns e
  else
    match pcmToAudioBuffer pcmData with
    | None => Throws e
    | Some audioBuffer =>
        if negb (started e) then
          let e1 :=
            mkEngine (ctx e) (nextStartTime e) (started e)
                     (bufferedChunks e ++ [audioBuffer])
                     (drainedCallback e) (pendingSources e) (destroyed e) in
          if (CHUNKS_BEFORE_START <=? List.length (bufferedChunks e1))%nat
          then Returns (startPlayback now e1)
          else Returns e1
        else Returns (scheduleBuffer now audioBuffer e)
    end.

Definition clear (e : t) : t :=
  mkEngine (if destroyed e
            then option_map close (ctx e)
            else Some new_AudioContext)
           0 false [] (drainedCallback e) 0 (destroyed e).

Definition isActive (e : t) : bool :=
  started e && (0 <? pendingSources e)%Z.

Definition destroy (e : t) : t :=
  mkEngine None (nextStartTime e) (started e) []
           (drainedCallback e) 0 true.

Definition onDrained (e : t) : t :=
  mkEngine (ctx e) (nextStartTime e) (started e) (bufferedChunks e)
           true (pendingSources e) (destroyed e).

(** The [start] calls received by the current context, latest first. *)
Definition scheduled (e : t) : list ScheduledSource :=
  match ctx e with
  | Some c => sources c
  | None => []
  end.

(** Calls of the public interface, and of the [onended] event. *)
Inductive call : Type :=
| Init
| Enqueue (now : Q) (pcmData : list byte)
| Clear
| Destroy
| OnDrained
| Ended.

Definition step (e : t) (c : call) : t :=
  match c with
  | Init => init e
  | Enqueue now pcmData => state_of (enqueue now pcmData e)
  | Clear => clear e
  | Destroy => destroy e
  | OnDrained => onDrained e
  | Ended => fst (onended e)
  end.

Definition run (calls : list call) (e : t) : t := fold_left step calls e.

(** A sequence of [enqueue] calls, each with its clock reading. *)
Definition enqueue_all (chunks : list (Q * list byte)) (e : t) : t :=
  fold_left (fun acc c => state_of (enqueue (fst c) (snd c) acc)) chunks e.

End WebAudioPlaybackEngine.

Module NativeAudioPlaybackEngine.

(** The [AudioBufferQueueSourceNode]: the buffers handed to
    [enqueueBuffer], latest first, and the time given to [start]. *)
Record BufferQueueSource : Type := mkQueueSource {
  queued : list AudioBuffer;
  startedAt : option Q
}.

Definition createBufferQueueSource : BufferQueueSource :=
  mkQueueSource [] None.

Record t : Type := mkEngine {
  ctx : bool;               (* an audio context is held *)
  queueSource : option BufferQueueSource;
  started : bool;
  bufferedChunks : list AudioBuffer;
  drainedCallback : bool;
  destroyed : bool;
  enqueuedCount : Z;
  endedCount : Z
}.

Definition new_engine : t :=
  mkEngine false None false [] false false 0 0.

Definition init (e : t) : t :=
  mkEngine true (Some createBufferQueueSource) (started e)
           (bufferedChunks e) (drainedCallback e) (destroyed e)
           (enqueuedCount e) (endedCount e).

(** [this.queueSource.enqueueBuffer(buf); this.enqueuedCount++]; a
    [TypeError] when there is no queue source. *)
Definition enqueueBuffer (buf : AudioBuffer) (e : t) : completion t :=
  match queueSource e with
  | None => Throws e
  | Some q =>
      Returns
        (mkEngine (ctx e)
                  (Some (mkQueueSource (buf :: queued q) (startedAt q)))
                  (started e) (bufferedChunks e) (drainedCallback e)
                  (destroyed e) (enqueuedCount e + 1) (endedCount e))
  end.

Fixpoint enqueueBuffers (bufs : list AudioBuffer) (e : t) : completion t :=
  match bufs with
  | [] => Returns e
  | buf :: rest =>
      match enqueueBuffer buf e with
      | Returns e1 => enqueueBuffers rest e1
      | Throws e1 => Throws e1
      end
  end.

Definition startPlayback (now : Q) (e : t) : completion t :=
  let e1 :=
    mkEngine (ctx e) (queueSource e) true (bufferedChunks e)
             (drainedCallback e) (destroyed e) (enqueuedCount e)
             (endedCount e) in
  match enqueueBuffers (bufferedChunks e) e1 with
  | Throws e2 => Throws e2
  | Returns e2 =>
      match queueSource e2 with
      | None => Throws e2
      | Some q =>
          Returns
            (mkEngine (ctx e2)
                      (Some (mkQueueSource (queued q) (Some now)))
                      (started e2) [] (drainedCallback e2) (destroyed e2)
                      (enqueuedCount e2) (endedCount e2))
      end
  end.

Definition enqueue (now : Q) (pcmData : list byte) (e : t) : completion t :=
  if destroyed e || negb (ctx e) then Returns e
  else
    match pcmToAudioBuffer pcmData with
    | None => Throws e
    | Some audioBuffer =>
        if negb (started e) then
          let e1 :=
            mkEngine (ctx e) (queueSource e) (started e)
                     (bufferedChunks e ++ [audioBuffer])
                     (drainedCallback e) (destroyed e) (enqueuedCount e)
                     (endedCount e) in
          if (CHUNKS_BEFORE_START <=? List.length (bufferedChunks e1))%nat
          then startPlayback now e1
          else Returns e1
        else enqueueBuffer audioBuffer e
    end.

Definition clear (e : t) : t :=
  mkEngine (ctx e)
           (if negb (destroyed e) && ctx e
            then Some createBufferQueueSource
            else match queueSource e with
                 | Some q => Some (mkQueueSource [] (startedAt q))
                 | None => None
                 end)
           false [] (drainedCallback e) (destroyed e) 0 0.

Definition isActive (e : t) : bool :=
  started e && (endedCount e <? enqueuedCount e)%Z.

Definition destroy (e : t) : t :=
  mkEngine false None (started e) [] (drainedCallback e) true
           (enqueuedCount e) (endedCount e).

Definition onDrained (e : t) : t :=
  mkEngine (ctx e) (queueSource e) (started e) (bufferedChunks e) true
           (destroyed e) (enqueuedCount e) (endedCount e).

(** The [onEnded] handler for an event with a [bufferId]. *)
Definition onEnded (e : t) : t * bool :=
  let ended := (endedCount e + 1)%Z in
  (mkEngine (ctx e) (queueSource e) (started e) (bufferedChunks e)
            (drainedCallback e) (destroyed e) (enqueuedCount e) ended,
   (ended =? enqueuedCount e)%Z && drainedCallback e).

End NativeAudioPlaybackEngine.

(** ** The [AudioPlaybackEngine] interface and its factory *)

Inductive PlatformOS : Type := web | ios | android.

Inductive AudioPlaybackEngine : Type :=
| WebEngine (e : WebAudioPlaybackEngine.t)
| NativeEngine (e : NativeAudioPlaybackEngine.t).

Definition createPlaybackEngine (os : PlatformOS) : AudioPlaybackEngine :=
  match os with
  | web => WebEngine WebAudioPlaybackEngine.new_engine
  | _ => NativeEngine NativeAudioPlaybackEngine.new_engine
  end.

Definition map_completion {A B : Type} (f : A -> B) (c : completion A)
  : completion B :=
  match c with
  | Returns a => Returns (f a)
  | Throws a => Throws (f a)
  end.

Definition engine_init (e : AudioPlaybackEngine) : AudioPlaybackEngine :=
  match e with
  | WebEngine w => WebEngine (WebAudioPlaybackEngine.init w)
  | NativeEngine n => NativeEngine (NativeAudioPlaybackEngine.init n)
  end.

Definition engine_enqueue (now : Q) (pcmData : list byte)
  (e : AudioPlaybackEngine) : completion AudioPlaybackEngine :=
  match e with
  | WebEngine w =>
      map_completion WebEngine (WebAudioPlaybackEngine.enqueue now pcmData w)
  | NativeEngine n =>
      map_completion NativeEngine
                     (NativeAudioPlaybackEngine.enqueue now pcmData n)
  end.

Definition engine_clear (e : AudioPlaybackEngine) : AudioPlaybackEngine :=
  match e with
  | WebEngine w => WebEngine (WebAudioPlaybackEngine.clear w)
  | NativeEngine n => NativeEngine (NativeAudioPlaybackEngine.clear n)
  end.

Definition engine_destroy (e : AudioPlaybackEngine) : AudioPlaybackEngine :=
  match e with
  | WebEngine w => WebEngine (WebAudioPlaybackEngine.destroy w)
  | NativeEngine n => NativeEngine (NativeAudioPlaybackEngine.destroy n)
  end.

Definition engine_onDrained (e : AudioPlaybackEngine) : AudioPlaybackEngine :=
  match e with
  | WebEngine w => WebEngine (WebAudioPlaybackEngine.onDrained w)
  | NativeEngine n => NativeEngine (NativeAudioPlaybackEngine.onDrained n)
  end.

(** ** Frame encoder (audio-worklet-processor.js) *)

Module PCMAudioProcessor.

Record t : Type := mkProcessor {
  buffer : list Q;
  bufferSize : nat
}.

Definition new_processor : t := mkProcessor [] 4800.

(** [Math.max(-1, Math.min(1, float32))], then the asymmetric scaling
    by [0x8000] or [0x7FFF]. *)
Definition floatTo16BitPCM (float32 : Q) : Q :=
  let s := Qmax (-1) (Qmin 1 float32) in
  if Qlt_bool s 0 then s * 32768 else s * 32767.

(** [sendBuffer]: the samples posted to the main thread, if any. *)
Definition sendBuffer (p : t) : t * option (list Z) :=
  match buffer p with
  | [] => (p, None)
  | _ =>
      (mkProcessor [] (bufferSize p),
       Some (map (fun x => Int16_store (floatTo16BitPCM x)) (buffer p)))
  end.

(** [process] on one input channel of samples. *)
Definition process (samples : list Q) (p : t) : t * option (list Z) :=
  let p1 := mkProcessor (buffer p ++ samples) (bufferSize p) in
  if (bufferSize p1 <=? List.length (buffer p1))%nat
  then sendBuffer p1
  else (p1, None).

End PCMAudioProcessor.

(** ** Resampler (services/webAudioRecorder.ts) *)

Module WebAudioRecorder.

Definition TARGET_SAMPLE_RATE : Q := 16000.
Definition MIN_CHUNK_SAMPLES : Z := 1600.

(** [Math.round]: the nearest integer, halves rounded up. *)
Definition Math_round (x : Q) : Z := Qfloor (x + (1 # 2)).

(** [input[k]]: [undefined] ([None]) outside the array. *)
Definition element (input : list Z) (k : Z) : option Z :=
  if (k <? 0)%Z then None else nth_error input (Z.to_nat k).

(** The body of the loop of [resample] for output index [i]; an
    [undefined] operand makes the sum [NaN], which is stored as 0. *)
Definition resample_at (input : list Z) (ratio : Q) (i : Z) : Z :=
  let srcIndex := inject_Z i * ratio in
  let srcIndexFloor := Qfloor srcIndex in
  let srcIndexCeil :=
    Z.min (srcIndexFloor + 1) (Z.of_nat (List.length input) - 1) in
  let t := srcIndex - inject_Z srcIndexFloor in
  match element input srcIndexFloor, element input srcIndexCeil with
  | Some a, Some b =>
      Int16_store
        (inject_Z (Math_round (inject_Z a * (1 - t) + inject_Z b * t)))
  | _, _ => 0%Z
  end.

(** [resample], for positive sample rates (so that [ratio] is a positive
    number and [outputLength] a valid array length). *)
Definition resample (input : list Z) (sourceSampleRate targetSampleRate : Q)
  : list Z :=
  if Qeq_bool sourceSampleRate targetSampleRate then input
  else
    let ratio := sourceSampleRate / targetSampleRate in
    let outputLength :=
      Qfloor (inject_Z (Z.of_nat (List.length input)) / ratio) in
    map (fun i => resample_at input ratio (Z.of_nat i))
        (seq 0 (Z.to_nat outputLength)).

End WebAudioRecorder.

(** ** JavaScript numbers in binary64

    A JavaScript number is an IEEE 754 binary64 value, and every
    arithmetic operation returns the exact result rounded to the nearest
    such value, ties to the even significand.  The finite values are
    modelled by the rationals they denote; the exponent range (overflow,
    subnormal numbers) is not modelled. *)

Module Binary64.

Definition pow2 (e : Z) : Q := Qpower 2 e.

(** [floor (log2 x)] for a positive [x]: the difference of the bit
    lengths of numerator and denominator, or one less. *)
Definition ilog2 (x : Q) : Z :=
  let k := (Z.log2 (Qnum x) - Z.log2 (Zpos (Qden x)))%Z in
  if Qle_bool (pow2 k) x then k else (k - 1)%Z.

(** The nearest integer, a tie going to the even one. *)
Definition round_half_even (y : Q) : Z :=
  let q := Qfloor y in
  let r := y - inject_Z q in
  if Qlt_bool r (1 # 2) then q
  else if Qlt_bool (1 # 2) r then (q + 1)%Z
  else if Z.even q then q else (q + 1)%Z.

(** Rounding to binary64: [x] is scaled so that its integer part has 53
    bits, rounded to an integer, and scaled back. *)
Definition fl (x : Q) : Q :=
  if Qeq_bool x 0 then 0
  else
    let e := (ilog2 (Qabs x) - 52)%Z in
    Qred (inject_Z (round_half_even (x / pow2 e)) * pow2 e).

(** The unit roundoff, 2^-53. *)
Definition u : Q := 1 # 9007199254740992.

(** [x + y], [x - y], [x * y] and [x / y] on JavaScript numbers. *)
Definition add (x y : Q) : Q := fl (x + y).
Definition sub (x y : Q) : Q := fl (x - y).
Definition mul (x y : Q) : Q := fl (x * y).
Definition div (x y : Q) : Q := fl (x / y).

End Binary64.

(** ** Resampler in binary64 (services/webAudioRecorder.ts)

    [resample] as the engine evaluates it: sample values, indices and
    lengths are integers, which binary64 holds exactly; the ratio, the
    source position, its fractional part and the blend of the two
    samples are rounded after every operation.  [Math.floor] and
    [Math.round] are exact. *)

Module WebAudioRecorder64.

Import WebAudioRecorder.

(** The body of the loop of [resample] for output index [i]. *)
Definition resample_at (input : list Z) (ratio : Q) (i : Z) : Z :=
  let srcIndex := Binary64.mul (inject_Z i) ratio in
  let srcIndexFloor := Qfloor srcIndex in
  let srcIndexCeil :=
    Z.min (srcIndexFloor + 1) (Z.of_nat (List.length input) - 1) in
  let t := Binary64.sub srcIndex (inject_Z srcIndexFloor) in
  match element input srcIndexFloor, element input srcIndexCeil with
  | Some a, Some b =>
      Int16_store
        (inject_Z
           (Math_round
              (Binary64.add (Binary64.mul (inject_Z a) (Binary64.sub 1 t))
                            (Binary64.mul (inject_Z b) t))))
  | _, _ => 0%Z
  end.

(** [resample], for sample rates that are positive numbers. *)
Definition resample (input : list Z) (sourceSampleRate targetSampleRate : Q)
  : list Z :=
  if Qeq_bool sourceSampleRate targetSampleRate then input
  else
    let ratio := Binary64.div sourceSampleRate targetSampleRate in
    let outputLength :=
      Qfloor (Binary64.div (inject_Z (Z.of_nat (List.length input))) ratio) in
    map (fun i => resample_at input ratio (Z.of_nat i))
        (seq 0 (Z.to_nat outputLength)).

End WebAudioRecorder64.

(** ** Session state machine (hooks/useVoiceSession.ts) *)

(** JavaScript values, as far as inbound and outbound messages use them. *)
#[local] Unset Elimination Schemes.
Inductive JsValue : Type :=
| JUndefined
| JNull
| JBool (b : bool)
| JNumber (q : Q)
| JString (s : string)
| JArray (items : list JsValue)
| JObject (fields : list (string * JsValue)).
#[local] Set Elimination Schemes.

Module VoiceSession.

Local Open Scope string_scope.

Inductive VoiceSessionState : Type :=
| Disconnected
| Connecting
| Connected
| Listening
| Processing
| Speaking
| Error.

Definition state_eqb (a b : VoiceSessionState) : bool :=
  match a, b with
  | Disconnected, Disconnected | Connecting, Connecting
  | Connected, Connected | Listening, Listening
  | Processing, Processing | Speaking, Speaking | Error, Error => true
  | _, _ => false
  end.

Record Tag : Type := mkTag {
  tag_type : string;
  tag_value : string
}.

Record PhotoContext : Type := mkPhoto {
  id : string;
  caption : option string;
  tags : option (list Tag);
  date_taken : option string
}.

Record VoiceTranscriptEntry : Type := mkEntry {
  role : JsValue;
  text : JsValue;
  timestamp : string;
  photo_id : option string
}.

Inductive ReadyState : Type := CONNECTING | OPEN | CLOSING | CLOSED.

(** What was handed to [WebSocket.send]. *)
Inductive Frame : Type :=
| TextFrame (data : string)
| BinaryFrame (data : list byte).

(** A [WebSocket]: [sent] lists the frames handed to [send], oldest
    first.  [send] only queues a frame; whether it reaches the peer is
    not reported to the caller. *)
Record WebSocket : Type := mkWebSocket {
  url : string;
  readyState : ReadyState;
  sent : list Frame
}.

Definition is_open (ws : option WebSocket) : bool :=
  match ws with
  | Some w => match readyState w with OPEN => true | _ => false end
  | None => false
  end.

Definition send (f : Frame) (w : WebSocket) : WebSocket :=
  mkWebSocket (url w) (readyState w) (sent w ++ [f]).

(** [MessageEvent.data]. *)
Inductive MessageData : Type :=
| DataArrayBuffer (bytes : list byte)
| DataString (s : string)
| DataOther.

Inductive LogLevel : Type := info | warn | error.

(** Calls into the platform, in the order they are made. *)
Inductive IOEvent : Type :=
| Log (level : LogLevel) (message : string) (args : list JsValue)
| SetAudioMode
| RequestPermissions
| NewWebSocket (wsUrl : string)
| CloseWebSocket.

(** The refs and state cells of the hook, the transcript of the therapy
    store, and the platform calls made so far. *)
Record t : Type := mkSession {
  state : VoiceSessionState;
  error_message : JsValue;
  wsRef : option WebSocket;
  initialPhotoRef : option PhotoContext;
  playbackEngineRef : option AudioPlaybackEngine;
  currentTranscript : list VoiceTranscriptEntry;
  audioModeSetRef : bool;
  io : list IOEvent
}.

Definition new_session (initialPhoto : option PhotoContext) : t :=
  mkSession Disconnected JNull None initialPhoto None [] false [].

Definition setState (s : VoiceSessionState) (st : t) : t :=
  mkSession s (error_message st) (wsRef st) (initialPhotoRef st)
            (playbackEngineRef st) (currentTranscript st)
            (audioModeSetRef st) (io st).

Definition setError (e : JsValue) (st : t) : t :=
  mkSession (state st) e (wsRef st) (initialPhotoRef st)
            (playbackEngineRef st) (currentTranscript st)
            (audioModeSetRef st) (io st).

Definition set_wsRef (w : option WebSocket) (st : t) : t :=
  mkSession (state st) (error_message st) w (initialPhotoRef st)
            (playbackEngineRef st) (currentTranscript st)
            (audioModeSetRef st) (io st).

Definition set_playbackEngineRef (e : option AudioPlaybackEngine) (st : t)
  : t :=
  mkSession (state st) (error_message st) (wsRef st) (initialPhotoRef st)
            e (currentTranscript st) (audioModeSetRef st) (io st).

Definition set_transcript (l : list VoiceTranscriptEntry) (st : t) : t :=
  mkSession (state st) (error_message st) (wsRef st) (initialPhotoRef st)
            (playbackEngineRef st) l (audioModeSetRef st) (io st).

Definition set_audioModeSetRef (b : bool) (st : t) : t :=
  mkSession (state st) (error_message st) (wsRef st) (initialPhotoRef st)
            (playbackEngineRef st) (currentTranscript st) b (io st).

Definition perform (ev : IOEvent) (st : t) : t :=
  mkSession (state st) (error_message st) (wsRef st) (initialPhotoRef st)
            (playbackEngineRef st) (currentTranscript st)
            (audioModeSetRef st) (io st ++ [ev]).

(** The therapy store's [addTranscriptEntry] and [clearTranscript]. *)
Definition addTranscriptEntry (entry : VoiceTranscriptEntry) (st : t) : t :=
  set_transcript (currentTranscript st ++ [entry]) st.

Definition clearTranscript (st : t) : t := set_transcript [] st.

(** [wsRef.current.send(frame)] on a socket known to be present. *)
Definition ws_send (f : Frame) (st : t) : t :=
  match wsRef st with
  | Some w => set_wsRef (Some (send f w)) st
  | None => st
  end.

(** Truthiness of an optional string: present and not empty. *)
Definition truthy (s : option string) : bool :=
  match s with
  | Some x => negb (String.eqb x EmptyString)
  | None => false
  end.

Definition dquote : string := String (ascii_of_nat 34) EmptyString.
Definition newline : string := String (ascii_of_nat 10) EmptyString.

Definition tag_values (ty : string) (l : list Tag) : list string :=
  map tag_value (filter (fun t => String.eqb (tag_type t) ty) l).

Definition NO_CONTEXT : string :=
  "No additional context available for this photo.".

(** [if (field) parts.push(line(field))] for an optional string. *)
Definition push_if_present (field : option string) (line : string -> string)
  : list string :=
  match field with
  | Some x => if negb (String.eqb x EmptyString) then [line x] else []
  | None => []
  end.

(** [if (values.length > 0) parts.push(label + values.join(', '))]. *)
Definition push_if_any (label : string) (values : list string)
  : list string :=
  if (0 <? List.length values)%nat
  then [label ++ String.concat ", " values]
  else [].

Definition description_parts (photo : PhotoContext) : list string :=
  push_if_present (caption photo)
                  (fun c => "Caption: " ++ dquote ++ c ++ dquote)
  ++ match tags photo with
     | Some l =>
         if (0 <? List.length l)%nat then
           let people := tag_values "person" l in
           let places := tag_values "place" l in
           let events := tag_values "event" l in
           push_if_any "People in photo: " people
           ++ push_if_any "Location: " places
           ++ push_if_any "Event: " events
         else []
     | None => []
     end
  ++ push_if_present (date_taken photo) (fun d => "Date taken: " ++ d).

Definition buildPhotoDescription (photo : PhotoContext) : string :=
  let parts := description_parts photo in
  if (0 <? List.length parts)%nat
  then String.concat ". " parts
  else NO_CONTEXT.

Definition greeting_text (photo : PhotoContext) : string :=
  "Hello! I'm looking at some photos and would love to share memories with you. "
  ++ buildPhotoDescription photo
  ++ newline ++ newline
  ++ "Please greet me warmly and gently ask if I recognize anything in this photo.".

Definition opt_string (s : option string) : JsValue :=
  match s with
  | Some x => JString x
  | None => JUndefined
  end.

(** [messageData.key]: a [TypeError] ([None]) on [null] and
    [undefined], [undefined] when the member is absent. *)
Definition member (key : string) (v : JsValue) : option JsValue :=
  match v with
  | JUndefined | JNull => None
  | JObject fields =>
      match find (fun kv => String.eqb (fst kv) key) fields with
      | Some kv => Some (snd kv)
      | None => Some JUndefined
      end
  | _ => Some JUndefined
  end.

(** [v === 'literal']. *)
Definition is_literal (v : JsValue) (literal : string) : bool :=
  match v with
  | JString s => String.eqb s literal
  | _ => false
  end.

(** The props of the hook and the module constants it reads. *)
Record Props : Type := mkProps {
  sessionId : option string;
  patientId : option string;
  GEMINI_API_KEY : option string;
  token : option string;
  ws_base_url : string;      (* API_BASE_URL.replace('http', 'ws') *)
  OS : PlatformOS
}.

Definition render (s : option string) : string :=
  match s with
  | Some x => x
  | None => "null"
  end.

Definition wsUrl_of (p : Props) : string :=
  ws_base_url p ++ "/api/voice/ws/voice/" ++ render (sessionId p)
  ++ "?patient_id=" ++ render (patientId p)
  ++ "&token=" ++ render (token p).

Section Handlers.

(** [JSON.parse] ([None] when it throws) and [JSON.stringify]. *)
Variable JSON_parse : string -> option JsValue.
Variable JSON_stringify : JsValue -> string.

(** [handleMessage], with [now] the audio clock and [date] the value
    of [new Date().toISOString()]. *)
Definition handleMessage (now : Q) (date : string) (data : MessageData)
  (st : t) : completion t :=
  match data with
  | DataArrayBuffer bytes =>
      match bytes with
      | [] => Throws st            (* getUint8(0) out of bounds *)
      | messageType :: _ =>
          if (byte_val messageType =? 1)%Z then
            let pcmData := skipn 13 bytes in
            match playbackEngineRef st with
            | Some engine =>
                let st1 :=
                  if negb (state_eqb (state st) Speaking)
                  then setState Speaking st
                  else st in
                match engine_enqueue now pcmData engine with
                | Returns engine' =>
                    Returns (set_playbackEngineRef (Some engine') st1)
                | Throws engine' =>
                    Throws (set_playbackEngineRef (Some engine') st1)
                end
            | None => Returns st
            end
          else Returns st
      end
  | DataString s =>
      match JSON_parse s with
      | None =>
          Returns
            (perform
               (Log warn "[VoiceSession] Received unparseable JSON" [])
               st)
      | Some messageData =>
          match member "type" messageData with
          | None => Throws st
          | Some type =>
              if is_literal type "connected" then
                let st1 :=
                  setState Connected
                    (perform
                       (Log info
                            "[VoiceSession] Backend confirmed connection"
                            [])
                       st) in
                match initialPhotoRef st1 with
                | Some photo =>
                    if is_open (wsRef st1) then
                      let greetingMessage :=
                        JObject [("type", JString "text");
                                 ("text", JString (greeting_text photo))] in
                      Returns
                        (ws_send
                           (TextFrame (JSON_stringify greetingMessage))
                           st1)
                    else Returns st1
                | None => Returns st1
                end
              else if is_literal type "transcript" then
                let entry :=
                  mkEntry
                    (match member "role" messageData with
                     | Some v => v | None => JUndefined end)
                    (match member "text" messageData with
                     | Some v => v | None => JUndefined end)
                    date None in
                Returns (addTranscriptEntry entry st)
              else if is_literal type "interrupted" then
                let st1 :=
                  match playbackEngineRef st with
                  | Some engine =>
                      set_playbackEngineRef
                        (Some (engine_clear engine)) st
                  | None => st
                  end in
                Returns (setState Connected st1)
              else if is_literal type "photo_context_updated" then
                Returns
                  (perform
                     (Log info "[VoiceSession] Photo context updated: "
                          [match member "photo_id" messageData with
                           | Some v => v | None => JUndefined end])
                     st)
              else if is_literal type "error" then
                let message :=
                  match member "message" messageData with
                  | Some v => v | None => JUndefined end in
                Returns
                  (setError message
                     (perform
                        (Log error "[VoiceSession] Backend error: "
                             [message])
                        st))
              else Returns st
          end
      end
  | DataOther => Returns st
  end.

(** The callback registered with [engine.onDrained] by [connect]. *)
Definition drained (st : t) : t :=
  if state_eqb (state st) Speaking then setState Connected st else st.

(** The socket handlers installed by [connect]. *)
Definition onopen (st : t) : t :=
  perform (Log info "[VoiceSession] WebSocket connected" [])
    (match wsRef st with
     | Some w => set_wsRef (Some (mkWebSocket (url w) OPEN (sent w))) st
     | None => st
     end).

Definition onerror (st : t) : t :=
  setState Error
    (setError (JString "Connection error")
       (perform (Log error "[VoiceSession] WebSocket error:" []) st)).

Definition onclose (st : t) : t :=
  let st1 :=
    set_wsRef None
      (perform (Log info "[VoiceSession] WebSocket closed. Code: " [])
               st) in
  if negb (state_eqb (state st1) Error)
  then setState Disconnected st1
  else st1.

(** [setupAudioMode]; [throws] tells whether [setAudioModeAsync]
    rejects. *)
Definition setupAudioMode (throws : bool) (st : t) : t :=
  if audioModeSetRef st then st
  else
    let st1 := perform SetAudioMode st in
    if throws
    then perform
           (Log error "[VoiceSession] Failed to set audio mode:" []) st1
    else set_audioModeSetRef true st1.

(** What the platform answers during [connect]: whether
    [setAudioModeAsync] rejects, and the permission status ([None]
    when [requestPermissionsAsync] rejects). *)
Record ConnectEnv : Type := mkConnectEnv {
  audioModeThrows : bool;
  permission : option string
}.

Definition connect (p : Props) (env : ConnectEnv) (st : t) : t :=
  if negb (truthy (sessionId p)) || negb (truthy (patientId p))
     || negb (truthy (GEMINI_API_KEY p))
  then
    setState Error
      (setError
         (JString "Missing session ID, patient ID, or Gemini API Key") st)
  else if is_open (wsRef st) then st
  else
    let st1 := clearTranscript (setError JNull (setState Connecting st)) in
    let st2 := setupAudioMode (audioModeThrows env) st1 in
    let st3 := perform RequestPermissions st2 in
    match permission env with
    | None =>
        setState Error
          (setError (JString "Failed to connect")
             (perform
                (Log error "[VoiceSession] Connection failed:" []) st3))
    | Some status =>
        if negb (String.eqb status "granted") then
          setState Error
            (setError (JString "Microphone permission denied") st3)
        else
          let engine :=
            engine_onDrained
              (engine_init (createPlaybackEngine (OS p))) in
          let st4 := set_playbackEngineRef (Some engine) st3 in
          let wsUrl := wsUrl_of p in
          set_wsRef (Some (mkWebSocket wsUrl CONNECTING []))
                    (perform (NewWebSocket wsUrl) st4)
    end.

(** [sendPhotoChange], with [date] the value of
    [new Date().toISOString()]. *)
Definition photo_change_message (photo : PhotoContext) : JsValue :=
  JObject
    [("type", JString "photo_change");
     ("photo_id", JString (id photo));
     ("caption", opt_string (caption photo));
     ("tags",
      match tags photo with
      | Some l => JArray (map (fun t => JString (tag_value t)) l)
      | None => JUndefined
      end);
     ("date_taken", opt_string (date_taken photo))].

Definition view_entry (date : string) (photo : PhotoContext)
  : VoiceTranscriptEntry :=
  mkEntry (JString "system") (JString ("Viewed photo " ++ id photo))
          date (Some (id photo)).

Definition sendPhotoChange (date : string) (photo : PhotoContext) (st : t)
  : t :=
  if is_open (wsRef st) then
    addTranscriptEntry (view_entry date photo)
      (ws_send (TextFrame (JSON_stringify (photo_change_message photo)))
               st)
  else st.

End Handlers.

End VoiceSession.

(** ** Playback events *)

Module PlaybackEvents.

Import WebAudioPlaybackEngine.

(** [n] sources finish one after the other: the engine after their
    [onended] handlers ran, and for each handler whether it invoked the
    drained callback. *)
Fixpoint ended_events (n : nat) (e : t) : t * list bool :=
  match n with
  | O => (e, [])
  | S k =>
      let r := onended e in
      let rest := ended_events k (fst r) in
      (fst rest, snd r :: snd rest)
  end.

End PlaybackEvents.

Module NativeEvents.

Import NativeAudioPlaybackEngine.

(** The calls of [WebAudioPlaybackEngine.call] on the native engine;
    [Ended] is an [onEnded] event that carries a buffer id. *)
Definition step (e : t) (c : WebAudioPlaybackEngine.call) : t :=
  match c with
  | WebAudioPlaybackEngine.Init => init e
  | WebAudioPlaybackEngine.Enqueue now pcmData =>
      state_of (enqueue now pcmData e)
  | WebAudioPlaybackEngine.Clear => clear e
  | WebAudioPlaybackEngine.Destroy => destroy e
  | WebAudioPlaybackEngine.OnDrained => onDrained e
  | WebAudioPlaybackEngine.Ended => fst (onEnded e)
  end.

Definition run (calls : list WebAudioPlaybackEngine.call) (e : t) : t :=
  fold_left step calls e.

End NativeEvents.

Module Web := WebAudioPlaybackEngine.
Module Native := NativeAudioPlaybackEngine.

(** ** The worklet as a stream processor *)

Module EncoderEvents.

Import PCMAudioProcessor.

(** What the worklet receives: a render quantum, whose first input has
    a channel of samples or none, or a 'flush' message on its port. *)
Inductive event : Type :=
| Render (channel : option (list Q))
| Flush.

(** [process(inputs)] with its guard, and the port's [onmessage]. *)
Definition handle (p : t) (ev : event) : t * option (list Z) :=
  match ev with
  | Render (Some samples) => process samples p
  | Render None => (p, None)
  | Flush => sendBuffer p
  end.

(** The processor after the events, and the frames posted, in order. *)
Fixpoint run (evs : list event) (p : t) : t * list (list Z) :=
  match evs with
  | [] => (p, [])
  | ev :: rest =>
      let r := handle p ev in
      let r' := run rest (fst r) in
      (fst r',
       match snd r with
       | Some frame => frame :: snd r'
       | None => snd r'
       end)
  end.

(** The samples received, in order. *)
Definition samples_of (evs : list event) : list Q :=
  flat_map (fun ev => match ev with
                      | Render (Some samples) => samples
                      | _ => []
                      end) evs.

(** The conversion [sendBuffer] applies to each sample. *)
Definition encode (samples : list Q) : list Z :=
  map (fun x => Int16_store (floatTo16BitPCM x)) samples.

End EncoderEvents.

(** ** The recorder around the resampler (services/webAudioRecorder.ts) *)

Module Recorder.

Import WebAudioRecorder.

(** Calls that take or give back a device or an audio context. *)
Inductive PlatformCall : Type :=
| NewAudioContext
| CloseAudioContext
| GetUserMedia
| StopTracks.

(** The fields of the class; a handle is modelled by its presence, the
    callback by its registration.  [calls] logs the platform calls that
    succeeded, oldest first. *)
Record t : Type := mkRecorder {
  audioContext : bool;
  workletNode : bool;
  sourceNode : bool;
  mediaStream : bool;
  isRecording : bool;
  onAudioChunk : bool;
  resampledBuffer : list (list Z);
  totalSamples : Z;
  calls : list PlatformCall
}.

Definition new_recorder : t :=
  mkRecorder false false false false false false [] 0 [].

(** [cleanup]. *)
Definition cleanup (r : t) : t :=
  mkRecorder false false false false false false [] 0
             (calls r
              ++ (if mediaStream r then [StopTracks] else [])
              ++ (if audioContext r then [CloseAudioContext] else [])).

(** The steps of [start] that may throw or reject. *)
Inductive StartStep : Type :=
| CreateContext
| ResumeContext
| AddModule
| AcquireStream
| CreateSource
| CreateWorklet
| ConnectNodes.

Definition step_eqb (a b : StartStep) : bool :=
  match a, b with
  | CreateContext, CreateContext | ResumeContext, ResumeContext
  | AddModule, AddModule | AcquireStream, AcquireStream
  | CreateSource, CreateSource | CreateWorklet, CreateWorklet
  | ConnectNodes, ConnectNodes => true
  | _, _ => false
  end.

(** What the platform answers during [start]: whether the Web Audio API
    is there, and the first step that fails, if any. *)
Record StartEnv : Type := mkStartEnv {
  supported : bool;
  failure : option StartStep
}.

Definition fails (env : StartEnv) (s : StartStep) : bool :=
  match failure env with
  | Some f => step_eqb f s
  | None => false
  end.

(** [start]: the recorder afterwards and the boolean returned. *)
Definition start (env : StartEnv) (r : t) : t * bool :=
  if isRecording r then (r, false)
  else if negb (supported env) then (r, false)
  else
    let r0 :=
      mkRecorder (audioContext r) (workletNode r) (sourceNode r)
                 (mediaStream r) (isRecording r) true [] 0 (calls r) in
    if fails env CreateContext then (cleanup r0, false)
    else
      let r1 :=
        mkRecorder true (workletNode r0) (sourceNode r0) (mediaStream r0)
                   (isRecording r0) true [] 0
                   (calls r0 ++ [NewAudioContext]) in
      if fails env ResumeContext || fails env AddModule
         || fails env AcquireStream
      then (cleanup r1, false)
      else
        let r2 :=
          mkRecorder true (workletNode r1) (sourceNode r1) true
                     (isRecording r1) true [] 0
                     (calls r1 ++ [GetUserMedia]) in
        if fails env CreateSource then (cleanup r2, false)
        else
          let r3 :=
            mkRecorder true (workletNode r2) true true (isRecording r2)
                       true [] 0 (calls r2) in
          if fails env CreateWorklet then (cleanup r3, false)
          else
            let r4 :=
              mkRecorder true true true true (isRecording r3) true [] 0
                         (calls r3) in
            if fails env ConnectNodes then (cleanup r4, false)
            else
              (mkRecorder true true true true true true [] 0 (calls r4),
               true).

(** [flushBuffer]: the chunk handed to the callback, if any. *)
Definition flushBuffer (r : t) : t * option (list Z) :=
  match resampledBuffer r with
  | [] => (r, None)
  | _ =>
      if negb (onAudioChunk r) then (r, None)
      else
        (mkRecorder (audioContext r) (workletNode r) (sourceNode r)
                    (mediaStream r) (isRecording r) (onAudioChunk r)
                    [] 0 (calls r),
         Some (List.concat (resampledBuffer r)))
  end.

(** [handleAudioData] on one message of the worklet. *)
Definition handleAudioData (samples : list Z) (sourceSampleRate : Q) (r : t)
  : t * option (list Z) :=
  if negb (isRecording r) || negb (onAudioChunk r) then (r, None)
  else
    let resampled := resample samples sourceSampleRate TARGET_SAMPLE_RATE in
    let r1 :=
      mkRecorder (audioContext r) (workletNode r) (sourceNode r)
                 (mediaStream r) (isRecording r) (onAudioChunk r)
                 (resampledBuffer r ++ [resampled])
                 (totalSamples r + Z.of_nat (List.length resampled))
                 (calls r) in
    if (MIN_CHUNK_SAMPLES <=? totalSamples r1)%Z
    then flushBuffer r1
    else (r1, None).

Definition emitted (o : option (list Z)) : list (list Z) :=
  match o with
  | Some chunk => [chunk]
  | None => []
  end.

(** A run of worklet messages: the recorder afterwards and the chunks
    emitted, in order. *)
Fixpoint handle_all (messages : list (list Z * Q)) (r : t)
  : t * list (list Z) :=
  match messages with
  | [] => (r, [])
  | m :: rest =>
      let h := handleAudioData (fst m) (snd m) r in
      let h' := handle_all rest (fst h) in
      (fst h', emitted (snd h) ++ snd h')
  end.

(** [stop]; [late] are the worklet messages that arrive during its
    50 ms wait, among them the reply to 'flush'. *)
Definition stop (late : list (list Z * Q)) (r : t) : t * list (list Z) :=
  if negb (isRecording r) then (r, [])
  else
    let h := handle_all late r in
    let f := flushBuffer (fst h) in
    (cleanup (fst f), snd h ++ emitted (snd f)).

End Recorder.

(** [isActive] through the interface. *)
Definition engine_isActive (e : AudioPlaybackEngine) : bool :=
  match e with
  | WebEngine w => WebAudioPlaybackEngine.isActive w
  | NativeEngine n => NativeAudioPlaybackEngine.isActive n
  end.

(** ** Slideshow position of the therapy store (stores/therapy-store.ts) *)

Module TherapyStore.

Section Store.

Variable Media : Type.

(** The fields the navigation actions read and write. *)
Record t : Type := mkStore {
  mediaQueue : list Media;
  currentIndex : Z;
  isPaused : bool;
  photosViewed : Z
}.

Definition nextPhoto (s : t) : t :=
  if (currentIndex s <? Z.of_nat (List.length (mediaQueue s)) - 1)%Z
  then mkStore (mediaQueue s) (currentIndex s + 1) (isPaused s)
               (photosViewed s + 1)
  else s.

Definition previousPhoto (s : t) : t :=
  if (0 <? currentIndex s)%Z
  then mkStore (mediaQueue s) (currentIndex s - 1) (isPaused s)
               (photosViewed s)
  else s.

Definition goToPhoto (index : Z) (s : t) : t :=
  if (0 <=? index)%Z && (index <? Z.of_nat (List.length (mediaQueue s)))%Z
  then mkStore (mediaQueue s) index (isPaused s) (photosViewed s)
  else s.

Definition togglePause (s : t) : t :=
  mkStore (mediaQueue s) (currentIndex s) (negb (isPaused s))
          (photosViewed s).

(** The navigation actions. *)
Inductive action : Type :=
| NextPhoto
| PreviousPhoto
| GoToPhoto (index : Z)
| TogglePause.

Definition act (s : t) (a : action) : t :=
  match a with
  | NextPhoto => nextPhoto s
  | PreviousPhoto => previousPhoto s
  | GoToPhoto index => goToPhoto index s
  | TogglePause => togglePause s
  end.

(** The state set by [startSession] for a queue. *)
Definition started_with (queue : list Media) : t :=
  mkStore queue 0 false 0.

End Store.

End TherapyStore.

(** * Vocabulary of the properties *)

Unset Implicit Arguments.

Section PlaybackVocabulary.

Import WebAudioPlaybackEngine.

(** The sources started by a call that took the engine from [e] to
    [e']: the part of the log of [e'] that lies before the log of [e]. *)
Definition newly_scheduled (e e' : t) : list ScheduledSource :=
  firstn (List.length (scheduled e') - List.length (scheduled e))
         (scheduled e').

(** The start time is not before the clock reading of the call. *)
Definition not_in_past (s : ScheduledSource) : Prop :=
  scheduledAt s <= startTime s.

(** The start time is the clock reading plus the safety margin. *)
Definition anchored (s : ScheduledSource) : Prop :=
  startTime s = scheduledAt s + SAFETY_MARGIN.

(** [s] was scheduled right after [prev]: it starts no earlier, and
    either exactly where [prev] ends, or, when the clock had already
    passed the end of [prev] (underflow), at the clock plus the margin. *)
Definition follows (prev s : ScheduledSource) : Prop :=
  startTime prev <= startTime s /\
  (startTime s = startTime prev + duration (buffer prev) \/
   (startTime prev + duration (buffer prev) < scheduledAt s /\ anchored s)).

(** A log of [start] calls (latest first) whose first call is anchored
    and in which every call follows the one before it. *)
Fixpoint gapless (log : list ScheduledSource) : Prop :=
  match log with
  | [] => True
  | s :: rest =>
      match rest with
      | [] => anchored s
      | prev :: _ => follows prev s /\ gapless rest
      end
  end.

(** Playback has started, the log is gapless and not empty, and
    [nextStartTime] is the end of the source scheduled last. *)
Definition chained (e : t) : Prop :=
  started e = true /\ has_ctx e = true /\
  exists s l,
    scheduled e = s :: l /\ gapless (s :: l) /\
    nextStartTime e = startTime s + duration (buffer s).

(** The state of a playback round: still in pre-roll with nothing
    scheduled, or [chained]. *)
Definition round_state (e : t) : Prop :=
  (started e = false /\ scheduled e = []) \/ chained e.

(** The state of an engine between calls: without a context, or in a
    playback round. *)
Definition engine_state (e : t) : Prop :=
  has_ctx e = false \/ round_state e.

(** The state of an engine in pre-roll holding the buffers [pre]. *)
Definition in_preroll (pre : list AudioBuffer) (e : t) : Prop :=
  started e = false /\ destroyed e = false /\ has_ctx e = true /\
  scheduled e = [] /\ bufferedChunks e = pre.

(** The chunks [chunks] decode to the buffers [bufs], one each. *)
Definition decode_to (chunks : list (Q * list byte))
  (bufs : list AudioBuffer) : Prop :=
  Forall2 (fun c buf => pcmToAudioBuffer (snd c) = Some buf) chunks bufs.

(** After the calls [chunks] on [e], every chunk sits in the pre-roll
    queue and none has been scheduled. *)
Definition held_in_preroll (chunks : list (Q * list byte)) (e : t) : Prop :=
  let e' := enqueue_all chunks e in
  started e' = false /\
  scheduled e' = [] /\
  List.length (bufferedChunks e') = List.length chunks.

End PlaybackVocabulary.

Section ResamplerVocabulary.

Import WebAudioRecorder.

(** The linear interpolation the specification describes for output
    index [i]: between the input samples at [floor (i * ratio)] and at
    [min (floor (i * ratio) + 1) (length - 1)], weighted by the
    fractional part of [i * ratio]. *)
Definition interpolate (input : list Z) (ratio : Q) (i : nat) : Q :=
  let pos := inject_Z (Z.of_nat i) * ratio in
  let lo := Qfloor pos in
  let hi := Z.min (lo + 1) (Z.of_nat (List.length input) - 1) in
  let t := pos - inject_Z lo in
  inject_Z (nth (Z.to_nat lo) input 0%Z) * (1 - t)
  + inject_Z (nth (Z.to_nat hi) input 0%Z) * t.

(** [z] is an integer nearest to [v] (the upper one at a half). *)
Definition nearest (z : Z) (v : Q) : Prop :=
  v - (1 # 2) < inject_Z z /\ inject_Z z <= v + (1 # 2).

End ResamplerVocabulary.

Section Binary64Vocabulary.

(** The exact linear interpolation of [input] at the real position
    [pos]: between the samples at [floor pos] and at
    [min (floor pos + 1) (length - 1)], weighted by the fractional part
    of [pos]. *)
Definition linear_interpolation (input : list Z) (pos : Q) : Q :=
  let lo := Qfloor pos in
  let hi := Z.min (lo + 1) (Z.of_nat (List.length input) - 1) in
  let t := pos - inject_Z lo in
  inject_Z (nth (Z.to_nat lo) input 0%Z) * (1 - t)
  + inject_Z (nth (Z.to_nat hi) input 0%Z) * t.

(** The linear interpolation the specification describes for output
    index [i], evaluated in JavaScript numbers: the position [i * ratio],
    its fractional part and the weighted sum are binary64 values. *)
Definition interpolate64 (input : list Z) (ratio : Q) (i : nat) : Q :=
  let pos := Binary64.mul (inject_Z (Z.of_nat i)) ratio in
  let lo := Qfloor pos in
  let hi := Z.min (lo + 1) (Z.of_nat (List.length input) - 1) in
  let t := Binary64.sub pos (inject_Z lo) in
  Binary64.add
    (Binary64.mul (inject_Z (nth (Z.to_nat lo) input 0%Z)) (Binary64.sub 1 t))
    (Binary64.mul (inject_Z (nth (Z.to_nat hi) input 0%Z)) t).

End Binary64Vocabulary.

Section SessionVocabulary.

Import VoiceSession.
Local Open Scope string_scope.

(** A required identifier or credential is missing or empty. *)
Definition missing_or_empty (s : option string) : Prop :=
  s = None \/ s = Some EmptyString.





(** The call that took the session from [st] to [st'] appended the
    photo-view entry to the transcript. *)
Definition emits_view_entry (date : string) (photo : PhotoContext)
  (st st' : t) : Prop :=
  currentTranscript st' = (currentTranscript st ++ [view_entry date photo])%list.

End SessionVocabulary.

Section PlaybackEventsVocabulary.

Import WebAudioPlaybackEngine.

(** A chunk that carries at least one whole 16-bit sample and no stray
    byte. *)
Definition whole_samples (pcmData : list byte) : Prop :=
  pcmData <> [] /\ Nat.even (List.length pcmData) = true.

(** In a log of [start] calls (latest first), every source starts at or
    after the end of every source scheduled before it. *)
Fixpoint non_overlapping (log : list ScheduledSource) : Prop :=
  match log with
  | [] => True
  | s :: rest =>
      Forall (fun p => startTime p + duration (buffer p) <= startTime s) rest
      /\ non_overlapping rest
  end.

(** Every scheduled source is pending until it ends. *)
Definition counted (e : t) : Prop :=
  pendingSources e = Z.of_nat (List.length (scheduled e)).

(** An engine able to schedule, whose scheduled buffers followed by its
    pre-roll queue are [bufs]. *)
Definition holds_in_order (bufs : list AudioBuffer) (e : t) : Prop :=
  destroyed e = false /\ has_ctx e = true /\
  (map buffer (rev (scheduled e)) ++ bufferedChunks e = bufs)%list /\
  (if started e
   then bufferedChunks e = []
   else scheduled e = [] /\
        (List.length (bufferedChunks e) < CHUNKS_BEFORE_START)%nat).

(** The state of a destroyed engine. *)
Definition torn_down (e : t) : Prop :=
  destroyed e = true /\ ctx e = None /\ bufferedChunks e = [] /\
  (pendingSources e <= 0)%Z.

End PlaybackEventsVocabulary.

Section EngineVocabulary.

(** A web engine and a native engine in step: same flags and pre-roll
    queue, both live, the native queue holding the buffers of the web
    schedule, and the web pending count equal to the native difference
    of counts. *)
Definition in_step (w : Web.t) (n : Native.t) : Prop :=
  Web.started w = Native.started n /\
  Web.bufferedChunks w = Native.bufferedChunks n /\
  Web.drainedCallback w = Native.drainedCallback n /\
  Web.destroyed w = false /\ Native.destroyed n = false /\
  Web.has_ctx w = true /\ Native.ctx n = true /\
  (exists q, Native.queueSource n = Some q /\
             Native.queued q = map Web.buffer (Web.scheduled w)) /\
  Web.pendingSources w = (Native.enqueuedCount n - Native.endedCount n)%Z.

End EngineVocabulary.

Section RecorderVocabulary.

Import Recorder.

(** No handle held, no callback, nothing pending, not recording. *)
Definition released (r : t) : Prop :=
  audioContext r = false /\ workletNode r = false /\ sourceNode r = false /\
  mediaStream r = false /\ isRecording r = false /\ onAudioChunk r = false /\
  resampledBuffer r = [] /\ totalSamples r = 0%Z.

(** Every handle held, the callback registered, recording. *)
Definition capturing (r : t) : Prop :=
  audioContext r = true /\ workletNode r = true /\ sourceNode r = true /\
  mediaStream r = true /\ isRecording r = true /\ onAudioChunk r = true.

(** Microphone streams taken and not yet given back, by the log. *)
Fixpoint open_streams (log : list PlatformCall) : Z :=
  match log with
  | [] => 0
  | GetUserMedia :: rest => open_streams rest + 1
  | StopTracks :: rest => open_streams rest - 1
  | _ :: rest => open_streams rest
  end.

(** Audio contexts created and not yet closed, by the log. *)
Fixpoint open_contexts (log : list PlatformCall) : Z :=
  match log with
  | [] => 0
  | NewAudioContext :: rest => open_contexts rest + 1
  | CloseAudioContext :: rest => open_contexts rest - 1
  | _ :: rest => open_contexts rest
  end.

(** The pending count is the number of samples pending, below the
    minimum chunk size. *)
Definition pending_counted (r : t) : Prop :=
  totalSamples r = Z.of_nat (List.length (List.concat (resampledBuffer r)))
  /\ (totalSamples r < WebAudioRecorder.MIN_CHUNK_SAMPLES)%Z.

(** The fields [handleAudioData] and [flushBuffer] leave alone. *)
Definition same_handles (r r' : t) : Prop :=
  audioContext r' = audioContext r /\ workletNode r' = workletNode r /\
  sourceNode r' = sourceNode r /\ mediaStream r' = mediaStream r /\
  isRecording r' = isRecording r /\ onAudioChunk r' = onAudioChunk r /\
  calls r' = calls r.

(** The handles held match the log: one open stream and one open context
    while capturing, none otherwise. *)
Definition balanced (r : t) : Prop :=
  (released r \/ capturing r) /\
  open_streams (calls r) = (if mediaStream r then 1 else 0)%Z /\
  open_contexts (calls r) = (if audioContext r then 1 else 0)%Z.

(** What the application does with the recorder. *)
Inductive operation : Type :=
| Start (env : StartEnv)
| Audio (samples : list Z) (sourceSampleRate : Q)
| Stop (late : list (list Z * Q)).

Definition apply_operation (r : t) (op : operation) : t :=
  match op with
  | Start env => fst (start env r)
  | Audio samples rate => fst (handleAudioData samples rate r)
  | Stop late => fst (stop late r)
  end.

End RecorderVocabulary.

Section MoreSessionVocabulary.

Import VoiceSession.

(** [l'] is [l] followed by at most one more element. *)
Definition grows_by_at_most_one {A : Type} (l l' : list A) : Prop :=
  exists new, l' = (l ++ new)%list /\ (List.length new <= 1)%nat.

(** The socket reference is the same socket, with at most one more
    frame, a text frame, handed to [send]. *)
Definition socket_only_sent (ws ws' : option WebSocket) : Prop :=
  match ws, ws' with
  | None, None => True
  | Some w, Some w' =>
      url w' = url w /\ readyState w' = readyState w /\
      exists new, sent w' = (sent w ++ new)%list /\
                  (List.length new <= 1)%nat /\
                  Forall (fun f => exists data, f = TextFrame data) new
  | _, _ => False
  end.

(** No socket was created by the platform calls [evs]. *)
Definition no_socket_created (evs : list IOEvent) : Prop :=
  Forall (fun ev => forall wsUrl, ev <> NewWebSocket wsUrl) evs.

(** The configuration passes the guard of [connect]. *)
Definition configured (p : Props) : Prop :=
  truthy (sessionId p) = true /\ truthy (patientId p) = true /\
  truthy (GEMINI_API_KEY p) = true.

End MoreSessionVocabulary.

Section StoreVocabulary.

Import TherapyStore.

(** The position points into the queue, or is 0 for an empty queue. *)
Definition position_valid {Media : Type} (s : t Media) : Prop :=
  (0 <= currentIndex s)%Z /\
  ((currentIndex s < Z.of_nat (List.length (mediaQueue s)))%Z
   \/ currentIndex s = 0%Z).

End StoreVocabulary.

(** * Properties *)

(** ** Numbers *)

Lemma Qlt_bool_true (x y : Q) : Qlt_bool x y = true <-> x < y.
Proof.
  unfold Qlt_bool. rewrite negb_true_iff.
  split; intro H.
  - apply Qnot_le_lt. intro Hle. apply Qle_bool_iff in Hle. congruence.
  - destruct (Qle_bool y x) eqn:E; [|reflexivity].
    apply Qle_bool_iff in E. exfalso. apply (Qlt_not_le _ _ H E).
Qed.

Lemma Qlt_bool_false (x y : Q) : Qlt_bool x y = false <-> y <= x.
Proof.
  unfold Qlt_bool. rewrite negb_false_iff. apply Qle_bool_iff.
Qed.

Lemma duration_nonneg (b : AudioBuffer) : 0 <= duration b.
Proof.
  unfold duration, Qdiv.
  apply Qmult_le_0_compat.
  - change 0 with (inject_Z 0). rewrite <- Zle_Qle. lia.
  - apply Qinv_le_0_compat. unfold SAMPLE_RATE. discriminate.
Qed.

Lemma margin_pos : 0 < SAFETY_MARGIN.
Proof. reflexivity. Qed.

(** ** Playback scheduler *)

Section Playback.

Import WebAudioPlaybackEngine.

Lemma scheduleBuffer_scheduled now audioBuffer e :
  has_ctx e = true ->
  scheduled (scheduleBuffer now audioBuffer e)
  = mkSource audioBuffer
             (if Qlt_bool (nextStartTime e) now
              then now + SAFETY_MARGIN else nextStartTime e)
             now :: scheduled e.
Proof.
  unfold has_ctx, scheduleBuffer, scheduled.
  destruct (ctx e); [reflexivity | discriminate].
Qed.

Lemma scheduleBuffer_no_ctx now audioBuffer e :
  has_ctx e = false -> scheduleBuffer now audioBuffer e = e.
Proof.
  unfold has_ctx, scheduleBuffer. intro H.
  destruct (ctx e); [discriminate | reflexivity].
Qed.

Lemma scheduleBuffer_has_ctx now audioBuffer e :
  has_ctx (scheduleBuffer now audioBuffer e) = has_ctx e.
Proof.
  unfold has_ctx, scheduleBuffer.
  destruct (ctx e) eqn:E; cbn; rewrite ?E; reflexivity.
Qed.

(** The source started by [scheduleBuffer] is not in the past. *)
Lemma reanchor_not_in_past now next :
  now <= (if Qlt_bool next now then now + SAFETY_MARGIN else next).
Proof.
  destruct (Qlt_bool next now) eqn:E.
  - pose proof margin_pos. lra.
  - apply Qlt_bool_false in E. exact E.
Qed.

(** What a batch of [scheduleBuffer] calls at one clock reading adds to
    the log. *)
Lemma schedule_batch now bufs : forall e,
  has_ctx e = true ->
  let e' := fold_left (fun acc buf => scheduleBuffer now buf acc) bufs e in
  has_ctx e' = true /\
  started e' = started e /\
  bufferedChunks e' = bufferedChunks e /\
  destroyed e' = destroyed e /\
  exists fresh,
    scheduled e' = fresh ++ scheduled e /\
    List.length fresh = List.length bufs /\
    map buffer (rev fresh) = bufs /\
    Forall (fun s => scheduledAt s = now /\ now <= startTime s) fresh.
Proof.
  induction bufs as [|b bufs IH]; intros e Hc; cbn [fold_left].
  - repeat split; try assumption.
    exists []. repeat split; constructor.
  - pose proof (scheduleBuffer_scheduled now b e Hc) as Hs.
    assert (Hc1 : has_ctx (scheduleBuffer now b e) = true)
      by (rewrite scheduleBuffer_has_ctx; exact Hc).
    destruct (IH _ Hc1) as (H1 & H2 & H3 & H4 & fresh & Hf & Hl & Hm & Ha).
    cbv zeta.
    repeat split; try assumption.
    + rewrite H2. unfold scheduleBuffer. destruct (ctx e); reflexivity.
    + rewrite H3. unfold scheduleBuffer. destruct (ctx e); reflexivity.
    + rewrite H4. unfold scheduleBuffer. destruct (ctx e); reflexivity.
    + eexists (fresh ++ [_]). repeat split.
      * rewrite Hf, Hs, <- app_assoc. reflexivity.
      * rewrite length_app, Hl. cbn. lia.
      * rewrite rev_app_distr. cbn. rewrite Hm. reflexivity.
      * apply Forall_app. split; [exact Ha|].
        constructor; [|constructor]. cbn. split; [reflexivity|].
        apply reanchor_not_in_past.
Qed.

Lemma startPlayback_batch now e :
  has_ctx e = true ->
  let e' := startPlayback now e in
  has_ctx e' = true /\ started e' = true /\ bufferedChunks e' = [] /\
  destroyed e' = destroyed e /\
  exists fresh,
    scheduled e' = fresh ++ scheduled e /\
    map buffer (rev fresh) = bufferedChunks e /\
    Forall (fun s => scheduledAt s = now /\ now <= startTime s) fresh.
Proof.
  intros Hc. unfold startPlayback.
  unfold has_ctx in Hc. destruct (ctx e) as [c|] eqn:E; [|discriminate].
  set (e1 := mkEngine (Some c) (now + SAFETY_MARGIN) true (bufferedChunks e)
                      (drainedCallback e) (pendingSources e) (destroyed e)).
  assert (Hc1 : has_ctx e1 = true) by reflexivity.
  destruct (schedule_batch now (bufferedChunks e) e1 Hc1)
    as (H1 & H2 & H3 & H4 & fresh & Hf & Hl & Hm & Ha).
  cbv zeta. repeat split; try assumption.
  exists fresh. repeat split; try assumption.
  unfold scheduled at 1. cbn [ctx].
  change (scheduled (fold_left (fun acc buf => scheduleBuffer now buf acc)
                               (bufferedChunks e) e1) = fresh ++ scheduled e).
  rewrite Hf. unfold scheduled. cbn. rewrite E. reflexivity.
Qed.

(** What one [enqueue] call adds to the log of [start] calls. *)
Lemma enqueue_fresh now pcmData e :
  let e' := state_of (enqueue now pcmData e) in
  exists fresh,
    scheduled e' = fresh ++ scheduled e /\
    Forall (fun s => scheduledAt s = now /\ now <= startTime s) fresh /\
    (started e = true -> nextStartTime e < now ->
     Forall (fun s => startTime s = now + SAFETY_MARGIN) fresh).
Proof.
  unfold enqueue.
  destruct (destroyed e || negb (has_ctx e)) eqn:G.
  { exists []. cbn. repeat split; constructor. }
  apply orb_false_iff in G. destruct G as [_ G].
  apply negb_false_iff in G.
  destruct (pcmToAudioBuffer pcmData) as [audioBuffer|].
  2:{ exists []. cbn. repeat split; constructor. }
  destruct (started e) eqn:S; cbn [negb].
  - exists [mkSource audioBuffer
              (if Qlt_bool (nextStartTime e) now
               then now + SAFETY_MARGIN else nextStartTime e) now].
    cbn [state_of]. rewrite (scheduleBuffer_scheduled now audioBuffer e G).
    repeat split.
    + constructor; [|constructor]. cbn. split; [reflexivity|].
      apply reanchor_not_in_past.
    + intros _ Hlt. apply Qlt_bool_true in Hlt. rewrite Hlt.
      constructor; [reflexivity | constructor].
  - set (e1 := mkEngine (ctx e) (nextStartTime e) false
                        (bufferedChunks e ++ [audioBuffer])
                        (drainedCallback e) (pendingSources e) (destroyed e)).
    assert (Hs1 : scheduled e1 = scheduled e) by reflexivity.
    destruct (CHUNKS_BEFORE_START <=? List.length (bufferedChunks e1))%nat.
    + assert (Hc1 : has_ctx e1 = true) by exact G.
      destruct (startPlayback_batch now e1 Hc1)
        as (_ & _ & _ & _ & fresh & Hf & _ & Ha).
      exists fresh. cbn [state_of]. rewrite Hf, Hs1.
      repeat split; [exact Ha | discriminate].
    + exists []. cbn [state_of]. repeat split; constructor.
Qed.

Lemma newly_scheduled_app e e' fresh :
  scheduled e' = fresh ++ scheduled e -> newly_scheduled e e' = fresh.
Proof.
  intro H. unfold newly_scheduled. rewrite H, length_app.
  replace (List.length fresh + List.length (scheduled e)
           - List.length (scheduled e))%nat
    with (List.length fresh + 0)%nat by lia.
  rewrite firstn_app_2. cbn. apply app_nil_r.
Qed.

Lemma step_not_in_past e c :
  Forall not_in_past (scheduled e) -> Forall not_in_past (scheduled (step e c)).
Proof.
  intro H. destruct c as [|now pcmData| | | |]; cbn [step].
  - constructor.
  - destruct (enqueue_fresh now pcmData e) as (fresh & Hf & Ha & _).
    rewrite Hf. apply Forall_app. split; [|exact H].
    eapply Forall_impl; [|exact Ha].
    intros s [H1 H2]. unfold not_in_past. rewrite H1. exact H2.
  - unfold clear, scheduled. cbn [ctx].
    destruct (destroyed e); [destruct (ctx e)|]; constructor.
  - constructor.
  - exact H.
  - exact H.
Qed.

Lemma run_not_in_past calls : forall e,
  Forall not_in_past (scheduled e) -> Forall not_in_past (scheduled (run calls e)).
Proof.
  induction calls as [|c calls IH]; intros e H; cbn [run fold_left].
  - exact H.
  - apply IH. apply step_not_in_past. exact H.
Qed.

(** C1. Underflow recovery: when [enqueue] finds the engine started and
    [nextStartTime] already behind the audio clock, the chunk it
    schedules starts at the clock plus the safety margin; and in every
    case each source it schedules, like every source in the log, has a
    start time that is not before the clock reading of its call. *)
Theorem C1_schedule_never_in_past :
  forall (calls : list call) (now : Q) (pcmData : list byte),
    let e := run calls new_engine in
    let e' := state_of (enqueue now pcmData e) in
    scheduled e' = newly_scheduled e e' ++ scheduled e /\
    Forall (fun s => scheduledAt s = now /\ now <= startTime s)
           (newly_scheduled e e') /\
    Forall not_in_past (scheduled e') /\
    (started e = true -> nextStartTime e < now ->
     Forall (fun s => startTime s = now + SAFETY_MARGIN)
            (newly_scheduled e e')).
Proof.
  intros calls now pcmData e e'.
  destruct (enqueue_fresh now pcmData e) as (fresh & Hf & Ha & Hu).
  fold e' in Hf.
  rewrite (newly_scheduled_app e e' fresh Hf).
  repeat split; try assumption.
  change e' with (step e (Enqueue now pcmData)).
  apply step_not_in_past. unfold e.
  apply run_not_in_past. constructor.
Qed.

Lemma C1_schedule_never_in_past_witness :
  let calls := [Init; Enqueue 0 [x00; x00]; Enqueue 0 [x00; x00];
                Enqueue 0 [x00; x00]] in
  let e := run calls new_engine in
  started e = true /\ nextStartTime e < 10 /\
  Forall (fun s => startTime s = 10 + SAFETY_MARGIN)
         (newly_scheduled e (state_of (enqueue 10 [x01; x00] e))).
Proof.
  intros calls e.
  split; [reflexivity|]. split; [vm_compute; reflexivity|].
  pose proof (C1_schedule_never_in_past calls 10 [x01; x00]) as H.
  cbv zeta in H. destruct H as (_ & _ & _ & H).
  apply H; [reflexivity | vm_compute; reflexivity].
Defined.

(** *** Contiguity of the schedule *)

Lemma scheduleBuffer_first now b e :
  started e = true -> has_ctx e = true -> scheduled e = [] ->
  nextStartTime e = now + SAFETY_MARGIN ->
  chained (scheduleBuffer now b e).
Proof.
  intros Hs Hc Hnil Hn. unfold chained.
  rewrite scheduleBuffer_has_ctx.
  pose proof (scheduleBuffer_scheduled now b e Hc) as Hl.
  rewrite Hnil, Hn in Hl.
  replace (if Qlt_bool (now + SAFETY_MARGIN) now
           then now + SAFETY_MARGIN else now + SAFETY_MARGIN)
    with (now + SAFETY_MARGIN) in Hl by (destruct (Qlt_bool _ _); reflexivity).
  split; [|split; [exact Hc|]].
  - unfold scheduleBuffer. destruct (ctx e); assumption.
  - eexists _, _. split; [exact Hl|]. split; [reflexivity|].
    unfold has_ctx in Hc. unfold scheduleBuffer.
    destruct (ctx e); [|discriminate]. cbn. rewrite Hn.
    destruct (Qlt_bool _ _); reflexivity.
Qed.

Lemma scheduleBuffer_chained now b e :
  chained e -> chained (scheduleBuffer now b e).
Proof.
  intros (Hs & Hc & s & l & Hl & Hg & Hn). unfold chained.
  rewrite scheduleBuffer_has_ctx.
  pose proof (scheduleBuffer_scheduled now b e Hc) as Hl'.
  rewrite Hl, Hn in Hl'.
  pose proof (duration_nonneg (buffer s)) as Hd.
  pose proof margin_pos as Hm.
  split; [|split; [exact Hc|]].
  - unfold scheduleBuffer. destruct (ctx e); assumption.
  - eexists _, _. split; [exact Hl'|]. split.
    + cbn [gapless]. split; [|exact Hg].
      unfold follows, anchored. cbn [startTime scheduledAt buffer].
      destruct (Qlt_bool (startTime s + duration (buffer s)) now) eqn:E.
      * apply Qlt_bool_true in E. split; [lra|].
        right. split; [exact E | reflexivity].
      * split; [lra|]. left. reflexivity.
    + unfold has_ctx in Hc. unfold scheduleBuffer.
      destruct (ctx e); [|discriminate]. cbn. rewrite Hn. reflexivity.
Qed.

Lemma schedule_batch_chained now bufs : forall e,
  chained e ->
  chained (fold_left (fun acc buf => scheduleBuffer now buf acc) bufs e).
Proof.
  induction bufs as [|b bufs IH]; intros e H; cbn [fold_left].
  - exact H.
  - apply IH. apply scheduleBuffer_chained. exact H.
Qed.

Lemma enqueue_round_state now pcmData e :
  round_state e -> round_state (state_of (enqueue now pcmData e)).
Proof.
  intros H. unfold enqueue.
  destruct (destroyed e || negb (has_ctx e)) eqn:G; [exact H|].
  apply orb_false_iff in G. destruct G as [_ G].
  apply negb_false_iff in G.
  destruct (pcmToAudioBuffer pcmData) as [audioBuffer|]; [|exact H].
  destruct H as [[Hs Hnil] | Hch].
  - rewrite Hs. cbn [negb].
    set (e1 := mkEngine (ctx e) (nextStartTime e) false
                        (bufferedChunks e ++ [audioBuffer])
                        (drainedCallback e) (pendingSources e) (destroyed e)).
    destruct (CHUNKS_BEFORE_START <=? List.length (bufferedChunks e1))%nat;
      cbn [state_of].
    + right. unfold startPlayback.
      assert (Hc1 : has_ctx e1 = true) by exact G.
      unfold has_ctx in Hc1. destruct (ctx e1) as [c|] eqn:E; [|discriminate].
      destruct (bufferedChunks e1) as [|b0 rest] eqn:B.
      { exfalso. cbn in B. destruct (bufferedChunks e); discriminate. }
      cbn [fold_left].
      set (e2 := mkEngine (Some c) (now + SAFETY_MARGIN) true (b0 :: rest)
                          (drainedCallback e1) (pendingSources e1)
                          (destroyed e1)).
      assert (H2 : chained (scheduleBuffer now b0 e2)).
      { apply scheduleBuffer_first; try reflexivity.
        unfold scheduled. cbn [e2 ctx].
        change (Some c) with (Some c) in E.
        assert (Hsc : scheduled e1 = []) by exact Hnil.
        unfold scheduled in Hsc. rewrite E in Hsc. exact Hsc. }
      pose proof (schedule_batch_chained now rest _ H2) as H3.
      exact H3.
    + left. split; [reflexivity | exact Hnil].
  - destruct Hch as (Hs & Hrest). rewrite Hs. cbn [negb state_of].
    right. apply scheduleBuffer_chained. split; assumption.
Qed.

Lemma enqueue_all_round_state chunks : forall e,
  round_state e -> round_state (enqueue_all chunks e).
Proof.
  induction chunks as [|c chunks IH]; intros e H;
    cbn [enqueue_all fold_left].
  - exact H.
  - apply IH. apply enqueue_round_state. exact H.
Qed.

(** C4. Chunk ordering: in a playback round (from a state in which
    playback has not started and nothing is scheduled, as after [init]
    on a new engine or after [clear]), after any sequence of [enqueue]
    calls the log of scheduled sources is [gapless]: the first source
    starts at its clock reading plus the safety margin, and every later
    source starts no earlier than the one before it, exactly at the end
    of that one unless it was re-anchored on underflow. *)
Theorem C4_schedule_contiguous :
  forall (e0 : t) (chunks : list (Q * list byte)),
    started e0 = false -> scheduled e0 = [] ->
    gapless (scheduled (enqueue_all chunks e0)).
Proof.
  intros e0 chunks Hs Hnil.
  destruct (enqueue_all_round_state chunks e0) as [[_ H] | H].
  - left. split; assumption.
  - rewrite H. exact I.
  - destruct H as (_ & _ & s & l & Hl & Hg & _). rewrite Hl. exact Hg.
Qed.

Lemma C4_schedule_contiguous_witness :
  let e0 := init new_engine in
  let chunks := [(0, [x00; x00]); (0, [x01; x00]); (1 # 10, [x02; x00]);
                 (2 # 10, [x03; x00; x04; x00]); (7, [x05; x00])] in
  started e0 = false /\ scheduled e0 = [] /\
  gapless (scheduled (enqueue_all chunks e0)).
Proof.
  intros e0 chunks.
  split; [reflexivity|]. split; [reflexivity|].
  apply (C4_schedule_contiguous e0 chunks); reflexivity.
Defined.

(** Three chunks of one sample each, enqueued at clock 1, then a fourth
    at clock 1, then a fifth after the queue ran dry at clock 7: start
    times 1.05, 1.05 + 1/24000, 1.05 + 2/24000, 1.05 + 3/24000 and
    7.05. *)
Example schedule_trace :
  let chunks := [(1, [x00; x00]); (1, [x00; x00]); (1, [x00; x00]);
                 (1, [x00; x00]); (7, [x00; x00])] in
  map (fun s => Qred (startTime s))
      (rev (scheduled (enqueue_all chunks (init new_engine))))
  = [21 # 20; 25201 # 24000; 12601 # 12000; 8401 # 8000; 141 # 20].
Proof. vm_compute. reflexivity. Qed.

(** The same holds when [enqueue] calls are interleaved with [onended]
    events, [onDrained], [clear] and [destroy]: the sources scheduled on
    the current context, that is since the last [clear], are gapless. *)
Lemma step_engine_state e c :
  c <> Init -> engine_state e -> engine_state (step e c).
Proof.
  intros Hc H. destruct c as [|now pcmData| | | |]; cbn [step].
  - congruence.
  - destruct H as [H | H].
    + left. unfold enqueue. rewrite H, orb_true_r. exact H.
    + right. apply enqueue_round_state. exact H.
  - unfold engine_state, round_state, clear, has_ctx, scheduled. cbn.
    destruct (destroyed e); [destruct (ctx e)|]; cbn; auto.
  - left. reflexivity.
  - exact H.
  - exact H.
Qed.

Lemma run_engine_state calls : forall e,
  Forall (fun c => c <> Init) calls ->
  engine_state e -> engine_state (run calls e).
Proof.
  induction calls as [|c calls IH]; intros e Hc H; cbn [run fold_left].
  - exact H.
  - inversion Hc; subst. apply IH; [assumption|].
    apply step_engine_state; assumption.
Qed.

Theorem schedule_contiguous_any_calls :
  forall calls : list call,
    Forall (fun c => c <> Init) calls ->
    gapless (scheduled (run calls (init new_engine))).
Proof.
  intros calls Hc.
  destruct (run_engine_state calls (init new_engine) Hc) as [H | [[_ H] | H]].
  - right. left. split; reflexivity.
  - unfold scheduled. unfold has_ctx in H.
    destruct (ctx (run calls (init new_engine))); [discriminate | exact I].
  - rewrite H. exact I.
  - destruct H as (_ & _ & s & l & Hl & Hg & _). rewrite Hl. exact Hg.
Qed.

(** *** Clear and pre-roll *)

Lemma enqueue_destroyed now pcmData e :
  destroyed (state_of (enqueue now pcmData e)) = destroyed e.
Proof.
  unfold enqueue.
  destruct (destroyed e || negb (has_ctx e)) eqn:G; [reflexivity|].
  apply orb_false_iff in G. destruct G as [_ G].
  apply negb_false_iff in G.
  destruct (pcmToAudioBuffer pcmData) as [audioBuffer|]; [|reflexivity].
  destruct (started e); cbn [negb].
  - cbn [state_of]. unfold scheduleBuffer. destruct (ctx e); reflexivity.
  - set (e1 := mkEngine (ctx e) (nextStartTime e) false
                        (bufferedChunks e ++ [audioBuffer])
                        (drainedCallback e) (pendingSources e) (destroyed e)).
    destruct (CHUNKS_BEFORE_START <=? List.length (bufferedChunks e1))%nat;
      cbn [state_of]; [|reflexivity].
    destruct (startPlayback_batch now e1 G) as (_ & _ & _ & H & _).
    exact H.
Qed.

Lemma enqueue_all_destroyed chunks : forall e,
  destroyed (enqueue_all chunks e) = destroyed e.
Proof.
  induction chunks as [|c chunks IH]; intros e; cbn [enqueue_all fold_left].
  - reflexivity.
  - change (destroyed (enqueue_all chunks (state_of (enqueue (fst c) (snd c) e)))
            = destroyed e).
    rewrite IH. apply enqueue_destroyed.
Qed.

Lemma enqueue_in_preroll now pcmData buf pre e :
  in_preroll pre e ->
  pcmToAudioBuffer pcmData = Some buf ->
  (S (List.length pre) < CHUNKS_BEFORE_START)%nat ->
  in_preroll (pre ++ [buf]) (state_of (enqueue now pcmData e)) /\
  pendingSources (state_of (enqueue now pcmData e)) = pendingSources e.
Proof.
  intros (Hs & Hd & Hc & Hnil & Hb) Hbuf Hlen.
  unfold enqueue. rewrite Hd, Hc, Hbuf, Hs. cbn [orb negb].
  cbn [bufferedChunks]. rewrite Hb, length_app. cbn [List.length].
  replace (CHUNKS_BEFORE_START <=? List.length pre + 1)%nat with false
    by (symmetry; apply Nat.leb_gt; lia).
  cbn [state_of]. unfold in_preroll. cbn.
  repeat split; try assumption.
Qed.

Lemma enqueue_all_in_preroll more bufs :
  decode_to more bufs ->
  forall pre e,
    in_preroll pre e ->
    (List.length pre + List.length more < CHUNKS_BEFORE_START)%nat ->
    in_preroll (pre ++ bufs) (enqueue_all more e) /\
    pendingSources (enqueue_all more e) = pendingSources e.
Proof.
  induction 1 as [|c buf more bufs Hbuf Hdec IH]; intros pre e Hp Hlen;
    cbn [enqueue_all fold_left].
  - rewrite app_nil_r. split; [exact Hp | reflexivity].
  - cbn [List.length] in Hlen.
    destruct (enqueue_in_preroll (fst c) (snd c) buf pre e Hp Hbuf)
      as [Hq Hpend]; [lia|].
    destruct (IH (pre ++ [buf]) _ Hq) as [Hr Hpend'].
    { rewrite length_app. cbn [List.length]. lia. }
    rewrite <- app_assoc in Hr. cbn [app] in Hr.
    split; [exact Hr|].
    change (pendingSources
              (enqueue_all more (state_of (enqueue (fst c) (snd c) e)))
            = pendingSources e).
    rewrite Hpend'. exact Hpend.
Qed.

Lemma clear_in_preroll e :
  destroyed e = false -> in_preroll [] (clear e).
Proof.
  intro Hd. unfold in_preroll, clear, has_ctx, scheduled. cbn.
  rewrite Hd. repeat split.
Qed.

(** The [enqueue] call that fills the pre-roll queue schedules all of
    it, in arrival order. *)
Lemma enqueue_completes_preroll now pcmData buf pre e :
  in_preroll pre e ->
  pcmToAudioBuffer pcmData = Some buf ->
  S (List.length pre) = CHUNKS_BEFORE_START ->
  let e' := state_of (enqueue now pcmData e) in
  started e' = true /\ bufferedChunks e' = [] /\
  map buffer (rev (scheduled e')) = pre ++ [buf].
Proof.
  intros (Hs & Hd & Hc & Hnil & Hb) Hbuf Hlen.
  unfold enqueue. rewrite Hd, Hc, Hbuf, Hs. cbn [orb negb].
  cbn [bufferedChunks]. rewrite Hb, length_app. cbn [List.length].
  replace (CHUNKS_BEFORE_START <=? List.length pre + 1)%nat with true
    by (symmetry; apply Nat.leb_le; lia).
  cbn [state_of].
  set (e1 := mkEngine (ctx e) (nextStartTime e) false (pre ++ [buf])
                      (drainedCallback e) (pendingSources e) false).
  destruct (startPlayback_batch now e1 Hc)
    as (_ & H1 & H2 & _ & fresh & Hf & Hm & _).
  cbv zeta. repeat split; try assumption.
  rewrite Hf. change (scheduled e1) with (scheduled e).
  rewrite Hnil, app_nil_r. exact Hm.
Qed.

(** C5, as stated, fails: the third chunk after a [clear] is not held.
    It fills the pre-roll queue, so the same [enqueue] call schedules
    the three chunks and empties the queue. *)
Lemma C5_three_chunks_not_held :
  let three := [(0, [x00; x00]); (0, [x00; x00]); (0, [x00; x00])] in
  let e := clear (enqueue_all three (init new_engine)) in
  ~ held_in_preroll three e /\
  List.length (scheduled (enqueue_all three e)) = 3%nat /\
  bufferedChunks (enqueue_all three e) = [].
Proof.
  intros three e. split; [|split; reflexivity].
  unfold held_in_preroll. intros (H & _). vm_compute in H. discriminate.
Qed.

(** C5 (amended). After any sequence of [enqueue] calls (three or more,
    or fewer) on an initialised engine followed by [clear]: [isActive]
    is false, and the pending count, the pre-roll queue, the scheduling
    anchor and the started flag have their initial values; the chunks
    enqueued next re-enter pre-roll: as long as there are fewer than
    [CHUNKS_BEFORE_START] = 3 of them (the first two), they are held in
    the queue and nothing is scheduled; the chunk that brings the queue
    to three starts playback and the three are scheduled in order. *)
Theorem C5_clear_resets_preroll :
  forall (chunks more : list (Q * list byte)) (bufs : list AudioBuffer),
    (List.length more < CHUNKS_BEFORE_START)%nat ->
    decode_to more bufs ->
    let e := clear (enqueue_all chunks (init new_engine)) in
    let e' := enqueue_all more e in
    (isActive e = false /\
     pendingSources e = pendingSources new_engine /\
     bufferedChunks e = bufferedChunks new_engine /\
     nextStartTime e = nextStartTime new_engine /\
     started e = started new_engine /\
     scheduled e = []) /\
    (held_in_preroll more e /\ bufferedChunks e' = bufs /\
     isActive e' = false) /\
    (forall now pcmData buf,
        S (List.length more) = CHUNKS_BEFORE_START ->
        pcmToAudioBuffer pcmData = Some buf ->
        let e'' := state_of (enqueue now pcmData e') in
        started e'' = true /\ bufferedChunks e'' = [] /\
        map buffer (rev (scheduled e'')) = bufs ++ [buf]).
Proof.
  intros chunks more bufs Hlen Hdec e e'.
  assert (Hd : destroyed (enqueue_all chunks (init new_engine)) = false)
    by (rewrite enqueue_all_destroyed; reflexivity).
  pose proof (clear_in_preroll _ Hd) as Hp. fold e in Hp.
  destruct (enqueue_all_in_preroll more bufs Hdec [] e Hp Hlen)
    as [Hq Hpend].
  fold e' in Hq, Hpend. cbn [app] in Hq.
  assert (Hlb : List.length bufs = List.length more).
  { clear -Hdec. induction Hdec; cbn; congruence. }
  split; [|split].
  - unfold e, clear, isActive, scheduled. cbn. rewrite Hd. repeat split.
  - destruct Hq as (Hs & _ & _ & Hnil & Hb).
    unfold held_in_preroll. fold e'. rewrite Hb, Hlb.
    repeat split; try assumption.
    unfold isActive. rewrite Hs. reflexivity.
  - intros now pcmData buf Hthree Hbuf.
    apply (enqueue_completes_preroll now pcmData buf bufs e' Hq Hbuf).
    rewrite Hlb. exact Hthree.
Qed.

Lemma C5_clear_resets_preroll_witness :
  let chunks := [(0, [x00; x00]); (0, [x01; x00]); (0, [x02; x00]);
                 (1, [x03; x00])] in
  let more := [(2, [x10; x00]); (2, [x20; x00])] in
  let bufs := [mkAudioBuffer [16 / 32768]; mkAudioBuffer [32 / 32768]] in
  let e := clear (enqueue_all chunks (init new_engine)) in
  ((List.length more < CHUNKS_BEFORE_START)%nat /\ decode_to more bufs) /\
  held_in_preroll more e /\
  (S (List.length more) = CHUNKS_BEFORE_START /\
   pcmToAudioBuffer [x30; x00] = Some (mkAudioBuffer [48 / 32768])) /\
  started (state_of (enqueue 3 [x30; x00] (enqueue_all more e))) = true.
Proof.
  intros chunks more bufs e.
  assert (Hlen : (List.length more < CHUNKS_BEFORE_START)%nat)
    by (cbv; lia).
  assert (Hdec : decode_to more bufs)
    by (repeat constructor).
  destruct (C5_clear_resets_preroll chunks more bufs Hlen Hdec)
    as (_ & (Hheld & _) & Hthird).
  split; [split; assumption|]. split; [exact Hheld|].
  assert (H3 : S (List.length more) = CHUNKS_BEFORE_START) by reflexivity.
  assert (Hb : pcmToAudioBuffer [x30; x00] = Some (mkAudioBuffer [48 / 32768]))
    by reflexivity.
  split; [split; assumption|].
  destruct (Hthird 3 [x30; x00] _ H3 Hb) as (Hs & _). exact Hs.
Defined.

End Playback.

(** ** Frame encoder *)

Section Encoder.

Import PCMAudioProcessor.

Lemma wrap_int16_small z : is_int16 z -> wrap_int16 z = z.
Proof.
  unfold is_int16, wrap_int16. intro H.
  rewrite Z.mod_small by lia. lia.
Qed.

Lemma Qtruncate_bounds (x : Q) (lo hi : Z) :
  inject_Z lo <= x -> x <= inject_Z hi ->
  (lo <= Qtruncate x <= hi)%Z.
Proof.
  destruct x as [n d]. unfold Qle, Qtruncate. cbn.
  intros Hlo Hhi. rewrite Z.mul_1_r in Hlo, Hhi.
  split.
  - rewrite <- (Z.quot_mul lo (Zpos d)) by discriminate.
    apply Z.quot_le_mono; lia.
  - rewrite <- (Z.quot_mul hi (Zpos d)) by discriminate.
    apply Z.quot_le_mono; lia.
Qed.

Lemma clamp_spec (x : Q) :
  let s := Qmax (-1) (Qmin 1 x) in
  (x < -1 /\ s == -1) \/ (-1 <= x <= 1 /\ s == x) \/ (1 < x /\ s == 1).
Proof.
  cbv zeta.
  destruct (Q.min_spec 1 x) as [[H1 E1] | [H1 E1]];
    destruct (Q.max_spec (-1) (Qmin 1 x)) as [[H2 E2] | [H2 E2]];
    rewrite E1 in H2; rewrite E2, ?E1.
  - right. right. split; [exact H1 | reflexivity].
  - exfalso. lra.
  - right. left. split; [lra | reflexivity].
  - destruct (Qeq_dec x (-1)) as [Heq | Hne].
    + right. left. split; [lra | symmetry; exact Heq].
    + left. split; [|reflexivity].
      apply Qle_lteq in H2. destruct H2 as [H2 | H2]; [exact H2|].
      exfalso. apply Hne. exact H2.
Qed.

Lemma floatTo16BitPCM_range (x : Q) :
  -32768 <= floatTo16BitPCM x <= 32767.
Proof.
  unfold floatTo16BitPCM.
  pose proof (clamp_spec x) as Hc. cbv zeta in Hc.
  set (s := Qmax (-1) (Qmin 1 x)) in *.
  assert (Hs : -1 <= s <= 1) by (destruct Hc as [[? E] | [[? E] | [? E]]]; lra).
  destruct (Qlt_bool s 0) eqn:E.
  - apply Qlt_bool_true in E. lra.
  - apply Qlt_bool_false in E. lra.
Qed.

(** C9. Float to PCM16: the sample is first clamped to [-1, 1]; the
    clamped sample [s] is mapped to [s * 32768] when [s < 0] and to
    [s * 32767] otherwise; the result lies in [-32768, 32767], so the
    store into the [Int16Array] keeps its integer part without wrapping;
    2.0 yields 32767 and -2.0 yields -32768. *)
Theorem C9_floatTo16BitPCM_clamps :
  forall x : Q,
    let s := Qmax (-1) (Qmin 1 x) in
    ((x < -1 /\ s == -1) \/ (-1 <= x <= 1 /\ s == x) \/ (1 < x /\ s == 1)) /\
    ((s < 0 /\ floatTo16BitPCM x = s * 32768) \/
     (0 <= s /\ floatTo16BitPCM x = s * 32767)) /\
    -32768 <= floatTo16BitPCM x <= 32767 /\
    Int16_store (floatTo16BitPCM x) = Qtruncate (floatTo16BitPCM x) /\
    is_int16 (Int16_store (floatTo16BitPCM x)) /\
    floatTo16BitPCM 2 == 32767 /\
    floatTo16BitPCM (-2) == -32768 /\
    snd (sendBuffer (mkProcessor [2; -2] 4800)) = Some [32767; -32768]%Z.
Proof.
  intros x s.
  pose proof (floatTo16BitPCM_range x) as Hr.
  assert (Ht : is_int16 (Qtruncate (floatTo16BitPCM x))).
  { apply Qtruncate_bounds; [apply (proj1 Hr) | apply (proj2 Hr)]. }
  split; [apply clamp_spec|].
  split.
  { unfold floatTo16BitPCM. fold s.
    destruct (Qlt_bool s 0) eqn:E.
    - left. split; [apply Qlt_bool_true; exact E | reflexivity].
    - right. split; [apply Qlt_bool_false; exact E | reflexivity]. }
  split; [exact Hr|].
  unfold Int16_store. rewrite (wrap_int16_small _ Ht).
  repeat split; try reflexivity; apply Ht.
Qed.

End Encoder.

(** ** Resampler *)

Section Resampler.

Import WebAudioRecorder.

Lemma Math_round_nearest (v : Q) : nearest (Math_round v) v.
Proof.
  unfold nearest, Math_round.
  pose proof (Qfloor_le (v + (1 # 2))) as H1.
  pose proof (Qlt_floor (v + (1 # 2))) as H2.
  rewrite inject_Z_plus in H2. change (inject_Z 1) with 1 in H2.
  split; lra.
Qed.

Lemma Math_round_int16 (v : Q) :
  -32768 <= v <= 32767 -> is_int16 (Math_round v).
Proof.
  intros [Hlo Hhi]. unfold is_int16, Math_round. split.
  - change (-32768)%Z with (Qfloor (inject_Z (-32768))).
    apply Qfloor_resp_le. change (inject_Z (-32768)) with (-32768). lra.
  - pose proof (Qfloor_le (v + (1 # 2))) as H.
    assert (Hlt : inject_Z (Qfloor (v + (1 # 2))) < inject_Z 32768)
      by (change (inject_Z 32768) with 32768; lra).
    rewrite <- Zlt_Qlt in Hlt. lia.
Qed.

Lemma Int16_store_int (z : Z) : is_int16 z -> Int16_store (inject_Z z) = z.
Proof.
  intro H. unfold Int16_store, Qtruncate. cbn.
  rewrite Z.quot_1_r. apply wrap_int16_small. exact H.
Qed.

Lemma element_nth (input : list Z) (k : Z) :
  (0 <= k < Z.of_nat (List.length input))%Z ->
  element input k = Some (nth (Z.to_nat k) input 0%Z).
Proof.
  intro H. unfold element.
  replace (k <? 0)%Z with false by (symmetry; apply Z.ltb_ge; lia).
  apply nth_error_nth'. lia.
Qed.

Lemma nth_int16 (input : list Z) (k : nat) :
  Forall is_int16 input -> is_int16 (nth k input 0%Z).
Proof.
  intro H. destruct (Nat.lt_ge_cases k (List.length input)) as [Hk | Hk].
  - rewrite Forall_forall in H. apply H. apply nth_In. exact Hk.
  - rewrite nth_overflow by exact Hk. unfold is_int16. lia.
Qed.

(** A weighted mean of two 16-bit samples is within the 16-bit range. *)
Lemma mean_int16 (a b : Z) (t : Q) :
  is_int16 a -> is_int16 b -> 0 <= t -> t <= 1 ->
  -32768 <= inject_Z a * (1 - t) + inject_Z b * t <= 32767.
Proof.
  unfold is_int16. intros [Ha1 Ha2] [Hb1 Hb2] Ht0 Ht1.
  assert (Qa1 : -32768 <= inject_Z a)
    by (change (-32768) with (inject_Z (-32768)); rewrite <- Zle_Qle; lia).
  assert (Qa2 : inject_Z a <= 32767)
    by (change 32767 with (inject_Z 32767); rewrite <- Zle_Qle; lia).
  assert (Qb1 : -32768 <= inject_Z b)
    by (change (-32768) with (inject_Z (-32768)); rewrite <- Zle_Qle; lia).
  assert (Qb2 : inject_Z b <= 32767)
    by (change 32767 with (inject_Z 32767); rewrite <- Zle_Qle; lia).
  set (x := inject_Z a) in *. set (y := inject_Z b) in *.
  assert (H1 : 0 <= (x + 32768) * (1 - t))
    by (apply Qmult_le_0_compat; lra).
  assert (H2 : 0 <= (y + 32768) * t)
    by (apply Qmult_le_0_compat; lra).
  assert (H3 : 0 <= (32767 - x) * (1 - t))
    by (apply Qmult_le_0_compat; lra).
  assert (H4 : 0 <= (32767 - y) * t)
    by (apply Qmult_le_0_compat; lra).
  split; lra.
Qed.

Lemma ratio_pos (src tgt : Q) : 0 < src -> 0 < tgt -> 0 < src / tgt.
Proof.
  intros Hs Ht. apply Qlt_shift_div_l; [exact Ht | lra].
Qed.

(** Every source index read by the loop lies inside the input. *)
Lemma source_index_range (n i : nat) (ratio : Q) :
  0 < ratio ->
  (i < Z.to_nat (Qfloor (inject_Z (Z.of_nat n) / ratio)))%nat ->
  (0 <= Qfloor (inject_Z (Z.of_nat i) * ratio) < Z.of_nat n)%Z.
Proof.
  intros Hr Hi.
  set (L := inject_Z (Z.of_nat n)) in *.
  set (x := inject_Z (Z.of_nat i)).
  assert (Hx0 : 0 <= x)
    by (unfold x; change 0 with (inject_Z 0); rewrite <- Zle_Qle; lia).
  assert (Hm : x + 1 <= L / ratio).
  { pose proof (Qfloor_le (L / ratio)) as Hf.
    assert (Hz : (Z.of_nat i + 1 <= Qfloor (L / ratio))%Z) by lia.
    rewrite Zle_Qle, inject_Z_plus in Hz.
    change (inject_Z 1) with 1 in Hz. fold x in Hz. lra. }
  assert (Hmul : (x + 1) * ratio <= L).
  { assert (H : (x + 1) * ratio <= L / ratio * ratio)
      by (apply Qmult_le_compat_r; [exact Hm | lra]).
    assert (E : L / ratio * ratio == L) by (field; lra).
    rewrite E in H. exact H. }
  assert (Hlt : x * ratio < L) by lra.
  split.
  - change 0%Z with (Qfloor (inject_Z 0)).
    apply Qfloor_resp_le. change (inject_Z 0) with 0.
    apply Qmult_le_0_compat; lra.
  - pose proof (Qfloor_le (x * ratio)) as Hf.
    assert (H : inject_Z (Qfloor (x * ratio)) < L) by lra.
    unfold L in H. rewrite <- Zlt_Qlt in H. exact H.
Qed.

Lemma resample_at_spec (input : list Z) (ratio : Q) (i : nat) :
  Forall is_int16 input -> 0 < ratio ->
  (i < Z.to_nat (Qfloor (inject_Z (Z.of_nat (List.length input)) / ratio)))%nat ->
  resample_at input ratio (Z.of_nat i) = Math_round (interpolate input ratio i) /\
  is_int16 (Math_round (interpolate input ratio i)).
Proof.
  intros Hin Hr Hi.
  pose proof (source_index_range _ i ratio Hr Hi) as Hlo.
  unfold resample_at, interpolate.
  set (pos := inject_Z (Z.of_nat i) * ratio) in *.
  set (lo := Qfloor pos) in *.
  set (hi := Z.min (lo + 1) (Z.of_nat (List.length input) - 1)).
  assert (Hhi : (0 <= hi < Z.of_nat (List.length input))%Z)
    by (unfold hi; lia).
  rewrite (element_nth input lo Hlo), (element_nth input hi Hhi).
  assert (Ht0 : 0 <= pos - inject_Z lo)
    by (pose proof (Qfloor_le pos); fold lo in H; lra).
  assert (Ht1 : pos - inject_Z lo <= 1).
  { pose proof (Qlt_floor pos) as H. fold lo in H.
    rewrite inject_Z_plus in H. change (inject_Z 1) with 1 in H. lra. }
  pose proof (mean_int16 _ _ _ (nth_int16 input (Z.to_nat lo) Hin)
                         (nth_int16 input (Z.to_nat hi) Hin) Ht0 Ht1) as Hm.
  pose proof (Math_round_int16 _ Hm) as H16.
  split; [|exact H16].
  apply Int16_store_int. exact H16.
Qed.

(** 48 kHz to 16 kHz keeps every third sample; 24 kHz to 16 kHz
    interpolates halfway on odd output indices, halves rounded up. *)
Example resample_48k :
  resample [10; 20; 30; 40; 50; 60; 70]%Z 48000 16000 = [10; 40]%Z.
Proof. vm_compute. reflexivity. Qed.

Example resample_24k :
  resample [0; 10; 21; 30; -5; -8]%Z 24000 16000 = [0; 16; 30; -6]%Z.
Proof. vm_compute. reflexivity. Qed.

End Resampler.

(** ** Resampler in binary64 *)

Section ResamplerBinary64.
Import Binary64.

Lemma pow2_pos (e : Z) : 0 < pow2 e.
Proof. apply Qpower_0_lt. reflexivity. Qed.

Lemma pow2_plus (a b : Z) : pow2 (a + b) == pow2 a * pow2 b.
Proof. apply Qpower_plus. discriminate. Qed.

Lemma pow2_minus (a b : Z) : pow2 (a - b) == pow2 a / pow2 b.
Proof. apply Qpower_minus. discriminate. Qed.

Lemma pow2_Z (n : Z) : (0 <= n)%Z -> pow2 n == inject_Z (2 ^ n).
Proof. intro H. unfold pow2. rewrite Zpower_Qpower by exact H. reflexivity. Qed.

(** [2 ^ ilog2 x <= x < 2 ^ (ilog2 x + 1)] for positive [x]. *)
Lemma ilog2_spec (x : Q) :
  0 < x -> pow2 (ilog2 x) <= x /\ x < pow2 (ilog2 x + 1).
Proof.
  intros Hx. destruct x as [n d]. unfold ilog2. cbn [Qnum Qden].
  assert (Hn : (0 < n)%Z).
  { unfold Qlt in Hx. cbn in Hx. lia. }
  set (ln := Z.log2 n). set (ld := Z.log2 (Z.pos d)).
  assert (Hln : (0 <= ln)%Z) by apply Z.log2_nonneg.
  assert (Hld : (0 <= ld)%Z) by apply Z.log2_nonneg.
  destruct (Z.log2_spec n Hn) as [Hn1 Hn2]. fold ln in Hn1, Hn2.
  destruct (Z.log2_spec (Z.pos d) (Pos2Z.is_pos d)) as [Hd1 Hd2].
  fold ld in Hd1, Hd2.
  replace (Z.succ ln) with (ln + 1)%Z in Hn2 by lia.
  replace (Z.succ ld) with (ld + 1)%Z in Hd2 by lia.
  (* the four bounds in Q *)
  assert (E : n # d == inject_Z n / inject_Z (Z.pos d)) by apply Qmake_Qdiv.
  assert (Qd : 0 < inject_Z (Z.pos d)) by reflexivity.
  assert (Qn1 : pow2 ln <= inject_Z n)
    by (rewrite pow2_Z by exact Hln; rewrite <- Zle_Qle; exact Hn1).
  assert (Qn2 : inject_Z n < pow2 (ln + 1))
    by (rewrite pow2_Z by lia; rewrite <- Zlt_Qlt; exact Hn2).
  assert (Qd1 : pow2 ld <= inject_Z (Z.pos d))
    by (rewrite pow2_Z by exact Hld; rewrite <- Zle_Qle; exact Hd1).
  assert (Qd2 : inject_Z (Z.pos d) < pow2 (ld + 1))
    by (rewrite pow2_Z by lia; rewrite <- Zlt_Qlt; exact Hd2).
  (* n / d lies strictly between 2^(k-1) and 2^(k+1) *)
  assert (Lo : pow2 (ln - ld - 1) <= n # d).
  { rewrite E. apply Qle_shift_div_l; [exact Qd|].
    replace (ln - ld - 1)%Z with (ln - (ld + 1))%Z by lia.
    rewrite pow2_minus.
    pose proof (pow2_pos (ld + 1)) as P1. pose proof (pow2_pos ln) as P2.
    apply Qle_trans with (pow2 ln / pow2 (ld + 1) * pow2 (ld + 1)).
    - apply Qmult_le_l.
      + apply Qlt_shift_div_l; [exact P1|]. rewrite Qmult_0_l. exact P2.
      + apply Qlt_le_weak. exact Qd2.
    - assert (F : pow2 ln / pow2 (ld + 1) * pow2 (ld + 1) == pow2 ln)
        by (field; intro H0; rewrite H0 in P1; discriminate).
      rewrite F. exact Qn1. }
  assert (Hi : n # d < pow2 (ln - ld + 1)).
  { rewrite E. apply Qlt_shift_div_r; [exact Qd|].
    replace (ln - ld + 1)%Z with (ln + 1 - ld)%Z by lia.
    rewrite pow2_minus.
    pose proof (pow2_pos ld) as P1. pose proof (pow2_pos (ln + 1)) as P2.
    apply Qlt_le_trans with (pow2 (ln + 1)); [exact Qn2|].
    apply Qle_trans with (pow2 (ln + 1) / pow2 ld * pow2 ld).
    - assert (F : pow2 (ln + 1) / pow2 ld * pow2 ld == pow2 (ln + 1))
        by (field; intro H0; rewrite H0 in P1; discriminate).
      rewrite F. apply Qle_refl.
    - apply Qmult_le_l.
      + apply Qlt_shift_div_l; [exact P1|]. rewrite Qmult_0_l. exact P2.
      + exact Qd1. }
  destruct (Qle_bool (pow2 (ln - ld)) (n # d)) eqn:T.
  - apply Qle_bool_iff in T. split; [exact T | exact Hi].
  - split; [exact Lo|].
    replace (ln - ld - 1 + 1)%Z with (ln - ld)%Z by lia.
    apply Qnot_le_lt. intro H. apply Qle_bool_iff in H. congruence.
Qed.


(** The nearest integer is at most one half away. *)
Lemma round_half_even_error (y : Q) :
  Qabs (inject_Z (round_half_even y) - y) <= 1 # 2.
Proof.
  unfold round_half_even.
  pose proof (Qfloor_le y) as H1. pose proof (Qlt_floor y) as H2.
  rewrite inject_Z_plus in H2. change (inject_Z 1) with 1 in H2.
  set (q := Qfloor y) in *.
  apply Qabs_Qle_condition.
  destruct (Qlt_bool (y - inject_Z q) (1 # 2)) eqn:A.
  - apply Qlt_bool_true in A. split; lra.
  - apply Qlt_bool_false in A.
    destruct (Qlt_bool (1 # 2) (y - inject_Z q)) eqn:B.
    + rewrite inject_Z_plus. change (inject_Z 1) with 1. split; lra.
    + apply Qlt_bool_false in B.
      destruct (Z.even q).
      * split; lra.
      * rewrite inject_Z_plus. change (inject_Z 1) with 1. split; lra.
Qed.

Lemma pow2_52 : pow2 52 == 4503599627370496.
Proof. reflexivity. Qed.

(** The result is within half a unit in the last place of the exact
    value, hence within the relative error [u]. *)
Lemma fl_error (x : Q) : Qabs (fl x - x) <= u * Qabs x.
Proof.
  unfold fl. destruct (Qeq_bool x 0) eqn:Z0.
  - apply Qeq_bool_iff in Z0.
    assert (E : 0 - x == 0) by (rewrite Z0; reflexivity).
    rewrite E, Z0. unfold Qle. cbn. lia.
  - assert (Hx : 0 < Qabs x).
    { apply Qeq_bool_neq in Z0. apply Qabs_case; intros H.
      - destruct (Qlt_le_dec 0 x) as [L|L]; [exact L|].
        exfalso. apply Z0. lra.
      - destruct (Qlt_le_dec x 0) as [L|L]; [lra|].
        exfalso. apply Z0. lra. }
    cbv zeta. rewrite Qred_correct.
    set (e := (ilog2 (Qabs x) - 52)%Z).
    set (m := round_half_even (x / pow2 e)).
    pose proof (pow2_pos e) as Pe.
    pose proof (round_half_even_error (x / pow2 e)) as Hm. fold m in Hm.
    destruct (ilog2_spec (Qabs x) Hx) as [Hlo _].
    assert (P : pow2 (ilog2 (Qabs x)) == pow2 e * pow2 52).
    { replace (ilog2 (Qabs x)) with (e + 52)%Z by (unfold e; lia).
      apply pow2_plus. }
    rewrite P, pow2_52 in Hlo.
    assert (E : inject_Z m * pow2 e - x
                == (inject_Z m - x / pow2 e) * pow2 e)
      by (field; intro H0; rewrite H0 in Pe; discriminate).
    rewrite E, Qabs_Qmult, (Qabs_pos (pow2 e)) by (apply Qlt_le_weak; exact Pe).
    apply Qle_trans with ((1 # 2) * pow2 e).
    + apply Qmult_le_compat_r; [exact Hm | apply Qlt_le_weak; exact Pe].
    + unfold u. lra.
Qed.


Lemma fl_error_bound (x B : Q) :
  - B <= x <= B -> - (u * B) <= fl x - x <= u * B.
Proof.
  intros H. apply Qabs_Qle_condition in H.
  pose proof (fl_error x) as E.
  apply Qabs_Qle_condition.
  apply Qle_trans with (u * Qabs x); [exact E|].
  apply Qmult_le_l; [reflexivity | exact H].
Qed.

Lemma fl_nonneg (x : Q) : 0 <= x -> x * (1 - u) <= fl x <= x * (1 + u).
Proof.
  intros H. pose proof (fl_error x) as E.
  rewrite (Qabs_pos x H) in E. apply Qabs_Qle_condition in E.
  unfold u in *. split; lra.
Qed.

Lemma mul_bound (a s A S : Q) :
  - A <= a <= A -> - S <= s <= S -> - (A * S) <= a * s <= A * S.
Proof.
  intros Ha Hs. apply Qabs_Qle_condition in Ha, Hs.
  apply Qabs_Qle_condition. rewrite Qabs_Qmult.
  pose proof (Qabs_nonneg a). pose proof (Qabs_nonneg s).
  apply Qle_trans with (A * Qabs s).
  - apply Qmult_le_compat_r; assumption.
  - rewrite (Qmult_comm A (Qabs s)), (Qmult_comm A S).
    apply Qmult_le_compat_r; [exact Hs | lra].
Qed.


Lemma int16_bounds (a : Z) :
  is_int16 a -> -32768 <= inject_Z a <= 32768.
Proof.
  intros [H1 H2]. split.
  - change (-32768) with (inject_Z (-32768)). rewrite <- Zle_Qle. exact H1.
  - change 32768 with (inject_Z 32768). rewrite <- Zle_Qle. lia.
Qed.

(** The blend of two 16-bit samples computed in binary64 is within
    2^-35 of the exact blend. *)
Lemma blend_accuracy (a b : Z) (t0 : Q) :
  is_int16 a -> is_int16 b -> 0 <= t0 -> t0 <= 1 ->
  let t := fl t0 in
  Qabs (fl (fl (inject_Z a * fl (1 - t)) + fl (inject_Z b * t))
        - (inject_Z a * (1 - t0) + inject_Z b * t0))
  <= 1 # 34359738368.
Proof.
  intros Ha Hb Ht0 Ht1 t.
  pose proof (int16_bounds a Ha) as BA. pose proof (int16_bounds b Hb) as BB.
  pose proof (mean_int16 a b t0 Ha Hb Ht0 Ht1) as HE.
  set (A := inject_Z a) in *. set (B := inject_Z b) in *.
  pose proof (fl_nonneg t0 Ht0) as Ht. fold t in Ht.
  assert (Ht' : 0 <= t <= 1 + u) by (unfold u in *; split; lra).
  assert (Hd2 : - u <= t - t0 <= u) by (unfold u in *; split; lra).
  assert (Hs : - u * 1 <= fl (1 - t) - (1 - t) <= u * 1).
  { assert (H : - (1) <= 1 - t <= 1) by (unfold u in *; split; lra).
    pose proof (fl_error_bound (1 - t) 1 H). lra. }
  set (s := fl (1 - t)) in *.
  set (d1 := s - (1 - t0)). set (d2 := t - t0).
  assert (Hd1 : - (2 * u) <= d1 <= 2 * u) by (unfold d1, u in *; split; lra).
  fold d2 in Hd2.
  assert (Hsb : - (1 + 2 * u) <= s <= 1 + 2 * u)
    by (unfold d1, u in *; split; lra).
  assert (Htb : - (1 + u) <= t <= 1 + u) by (unfold u in *; split; lra).
  pose proof (mul_bound A s 32768 (1 + 2 * u) BA Hsb) as M1.
  pose proof (mul_bound B t 32768 (1 + u) BB Htb) as M2.
  pose proof (fl_error_bound (A * s) _ M1) as F1.
  pose proof (fl_error_bound (B * t) _ M2) as F2.
  pose proof (mul_bound A d1 32768 (2 * u) BA Hd1) as N1.
  assert (Hd2' : - (u) <= d2 <= u) by lra.
  pose proof (mul_bound B d2 32768 u BB Hd2') as N2.
  assert (I1 : A * s == A * (1 - t0) + A * d1) by (unfold d1; ring).
  assert (I2 : B * t == B * t0 + B * d2) by (unfold d2; ring).
  set (v1 := fl (A * s)) in *. set (v2 := fl (B * t)) in *.
  assert (W : - (32769) <= v1 + v2 <= 32769) by (unfold u in *; split; lra).
  pose proof (fl_error_bound (v1 + v2) 32769 W) as F3.
  apply Qabs_Qle_condition. unfold u in *. split; lra.
Qed.


Lemma Math_round_int16_slack (v : Q) :
  -32768 - (1 # 4) <= v <= 32767 + (1 # 4) ->
  is_int16 (WebAudioRecorder.Math_round v).
Proof.
  intros [Hlo Hhi]. unfold is_int16, WebAudioRecorder.Math_round. split.
  - change (-32768)%Z with (Qfloor (inject_Z (-32768))).
    apply Qfloor_resp_le. change (inject_Z (-32768)) with (-32768). lra.
  - pose proof (Qfloor_le (v + (1 # 2))) as H.
    assert (Hlt : inject_Z (Qfloor (v + (1 # 2))) < inject_Z 32768)
      by (change (inject_Z 32768) with 32768; lra).
    rewrite <- Zlt_Qlt in Hlt. lia.
Qed.

(** The ratio of two sample rates, rounded. *)
Lemma ratio64_bounds (R target : Q) :
  1 <= R <= 1000000 -> 1 <= target <= 1000000 ->
  (1 # 1000000) * (1 - u) <= div R target <= 1000000 * (1 + u).
Proof.
  intros [HR1 HR2] [HT1 HT2].
  assert (Ht : 0 < target) by lra.
  assert (H1 : (1 # 1000000) <= R / target)
    by (apply Qle_shift_div_l; [exact Ht | lra]).
  assert (H2 : R / target <= 1000000)
    by (apply Qle_shift_div_r; [exact Ht | lra]).
  assert (H0 : 0 <= R / target) by lra.
  pose proof (fl_nonneg (R / target) H0) as F. unfold div.
  unfold u in *. split; lra.
Qed.

(** Every source index read by the loop lies inside the input. *)
Lemma source_index_range64 (n i : nat) (ratio : Q) :
  (1 # 1000000) * (1 - u) <= ratio ->
  (Z.of_nat n < 2 ^ 31)%Z ->
  (i < Z.to_nat (Qfloor (div (inject_Z (Z.of_nat n)) ratio)))%nat ->
  (0 <= Qfloor (mul (inject_Z (Z.of_nat i)) ratio) < Z.of_nat n)%Z.
Proof.
  intros Hr Hn Hi. unfold div, mul in *.
  assert (Hr0 : 0 < ratio) by (unfold u in *; lra).
  set (L := inject_Z (Z.of_nat n)) in *.
  set (x := inject_Z (Z.of_nat i)).
  assert (HL0 : 0 <= L)
    by (unfold L; change 0 with (inject_Z 0); rewrite <- Zle_Qle; lia).
  assert (HL : L <= 2147483648).
  { unfold L. change 2147483648 with (inject_Z (2 ^ 31)).
    rewrite <- Zle_Qle. lia. }
  assert (Hx0 : 0 <= x)
    by (unfold x; change 0 with (inject_Z 0); rewrite <- Zle_Qle; lia).
  assert (Hq0 : 0 <= L / ratio)
    by (apply Qle_shift_div_l; [exact Hr0 | lra]).
  pose proof (fl_nonneg (L / ratio) Hq0) as [_ Fq].
  assert (Hm : x + 1 <= L / ratio * (1 + u)).
  { pose proof (Qfloor_le (fl (L / ratio))) as Hf.
    assert (Hz : (Z.of_nat i + 1 <= Qfloor (fl (L / ratio)))%Z) by lia.
    rewrite Zle_Qle, inject_Z_plus in Hz.
    change (inject_Z 1) with 1 in Hz. fold x in Hz. lra. }
  assert (Hmul : (x + 1) * ratio <= L / ratio * (1 + u) * ratio)
    by (apply Qmult_le_compat_r; [exact Hm | lra]).
  assert (E : L / ratio * (1 + u) * ratio == L * (1 + u)) by (field; lra).
  rewrite E in Hmul.
  assert (HP : 0 <= x * ratio) by (apply Qmult_le_0_compat; lra).
  pose proof (fl_nonneg (x * ratio) HP) as [Fp1 Fp2].
  assert (Hlt : fl (x * ratio) < L) by (unfold u in *; lra).
  split.
  - change 0%Z with (Qfloor (inject_Z 0)).
    apply Qfloor_resp_le. change (inject_Z 0) with 0. unfold u in *. lra.
  - pose proof (Qfloor_le (fl (x * ratio))) as Hf.
    assert (H : inject_Z (Qfloor (fl (x * ratio))) < L) by lra.
    unfold L in H. rewrite <- Zlt_Qlt in H. exact H.
Qed.

Lemma resample_at64_spec (input : list Z) (ratio : Q) (i : nat) :
  Forall is_int16 input ->
  (0 <= Qfloor (mul (inject_Z (Z.of_nat i)) ratio)
   < Z.of_nat (List.length input))%Z ->
  WebAudioRecorder64.resample_at input ratio (Z.of_nat i)
  = WebAudioRecorder.Math_round (interpolate64 input ratio i) /\
  is_int16 (WebAudioRecorder.Math_round (interpolate64 input ratio i)) /\
  Qabs (interpolate64 input ratio i
        - linear_interpolation input (mul (inject_Z (Z.of_nat i)) ratio))
  <= 1 # 34359738368.
Proof.
  intros Hin Hlo.
  unfold WebAudioRecorder64.resample_at, interpolate64, linear_interpolation.
  set (pos := mul (inject_Z (Z.of_nat i)) ratio) in *.
  set (lo := Qfloor pos) in *.
  set (hi := Z.min (lo + 1) (Z.of_nat (List.length input) - 1)).
  assert (Hhi : (0 <= hi < Z.of_nat (List.length input))%Z)
    by (unfold hi; lia).
  rewrite (element_nth input lo Hlo), (element_nth input hi Hhi).
  assert (Ht0 : 0 <= pos - inject_Z lo)
    by (pose proof (Qfloor_le pos); fold lo in H; lra).
  assert (Ht1 : pos - inject_Z lo <= 1).
  { pose proof (Qlt_floor pos) as H. fold lo in H.
    rewrite inject_Z_plus in H. change (inject_Z 1) with 1 in H. lra. }
  pose proof (nth_int16 input (Z.to_nat lo) Hin) as Ha.
  pose proof (nth_int16 input (Z.to_nat hi) Hin) as Hb.
  pose proof (blend_accuracy _ _ _ Ha Hb Ht0 Ht1) as Hacc.
  pose proof (mean_int16 _ _ _ Ha Hb Ht0 Ht1) as Hm.
  cbv zeta in Hacc. unfold add, sub, mul at 2 3 4.
  unfold add, sub, mul in Hacc |- *.
  set (v := fl (fl (inject_Z (nth (Z.to_nat lo) input 0%Z)
                    * fl (1 - fl (pos - inject_Z lo)))
                + fl (inject_Z (nth (Z.to_nat hi) input 0%Z)
                      * fl (pos - inject_Z lo)))) in *.
  assert (H16 : is_int16 (WebAudioRecorder.Math_round v)).
  { apply Math_round_int16_slack.
    apply Qabs_Qle_condition in Hacc. split; lra. }
  split; [|split; [exact H16 | exact Hacc]].
  apply Int16_store_int. exact H16.
Qed.


(** The result has a significand of at most 53 bits. *)
Lemma fl_representable (x : Q) :
  exists (m e : Z), fl x == inject_Z m * pow2 e /\ (Z.abs m <= 2 ^ 53)%Z.
Proof.
  unfold fl. destruct (Qeq_bool x 0) eqn:Z0.
  - exists 0%Z, 0%Z. split; [reflexivity | cbn; lia].
  - assert (Hx : 0 < Qabs x).
    { apply Qeq_bool_neq in Z0. apply Qabs_case; intros H.
      - destruct (Qlt_le_dec 0 x) as [L|L]; [exact L|].
        exfalso. apply Z0. lra.
      - destruct (Qlt_le_dec x 0) as [L|L]; [lra|].
        exfalso. apply Z0. lra. }
    cbv zeta.
    set (e := (ilog2 (Qabs x) - 52)%Z).
    set (m := round_half_even (x / pow2 e)).
    exists m, e. split; [apply Qred_correct|].
    pose proof (pow2_pos e) as Pe.
    pose proof (round_half_even_error (x / pow2 e)) as Hm. fold m in Hm.
    destruct (ilog2_spec (Qabs x) Hx) as [_ Hhi].
    assert (P : pow2 (ilog2 (Qabs x) + 1) == pow2 e * pow2 53).
    { replace (ilog2 (Qabs x) + 1)%Z with (e + 53)%Z by (unfold e; lia).
      apply pow2_plus. }
    rewrite P in Hhi. change (pow2 53) with 9007199254740992 in Hhi.
    assert (Hy : Qabs (x / pow2 e) < 9007199254740992).
    { unfold Qdiv. rewrite Qabs_Qmult.
      rewrite (Qabs_pos (/ pow2 e))
        by (apply Qlt_le_weak, Qinv_lt_0_compat; exact Pe).
      apply Qlt_shift_div_r; [exact Pe|]. lra. }
    apply Qabs_Qle_condition in Hm.
    assert (Hy' : - (9007199254740992) <= x / pow2 e <= 9007199254740992).
    { apply Qabs_Qle_condition. apply Qlt_le_weak. exact Hy. }
    assert (H1 : inject_Z m < inject_Z (2 ^ 53 + 1))
      by (change (inject_Z (2 ^ 53 + 1)) with 9007199254740993; lra).
    assert (H2 : inject_Z (- (2 ^ 53 + 1)) < inject_Z m)
      by (change (inject_Z (- (2 ^ 53 + 1))) with (-9007199254740993); lra).
    rewrite <- Zlt_Qlt in H1, H2. lia.
Qed.

(** Equal rationals have the same rounding, whatever the fractions that
    denote them. *)
Lemma ilog2_unique (x : Q) (k : Z) :
  pow2 k <= x -> x < pow2 (k + 1) -> 0 < x -> ilog2 x = k.
Proof.
  intros H1 H2 Hx. destruct (ilog2_spec x Hx) as [L1 L2].
  assert (A : pow2 (ilog2 x) < pow2 (k + 1)) by lra.
  assert (B : pow2 k < pow2 (ilog2 x + 1)) by lra.
  apply Qpower_lt_compat_l_inv in A; [|reflexivity].
  apply Qpower_lt_compat_l_inv in B; [|reflexivity].
  lia.
Qed.

Lemma round_half_even_comp (x y : Q) :
  x == y -> round_half_even x = round_half_even y.
Proof.
  intros E. unfold round_half_even, Qlt_bool.
  rewrite (Qfloor_comp x y E).
  set (q := Qfloor y).
  assert (R : x - inject_Z q == y - inject_Z q) by (rewrite E; reflexivity).
  assert (B1 : Qle_bool (1 # 2) (x - inject_Z q)
               = Qle_bool (1 # 2) (y - inject_Z q)).
  { destruct (Qle_bool (1 # 2) (y - inject_Z q)) eqn:T.
    - apply Qle_bool_iff in T. apply Qle_bool_iff. lra.
    - destruct (Qle_bool (1 # 2) (x - inject_Z q)) eqn:T'; [|reflexivity].
      apply Qle_bool_iff in T'.
      assert (T2 : Qle_bool (1 # 2) (y - inject_Z q) = true)
        by (apply Qle_bool_iff; lra).
      congruence. }
  assert (B2 : Qle_bool (x - inject_Z q) (1 # 2)
               = Qle_bool (y - inject_Z q) (1 # 2)).
  { destruct (Qle_bool (y - inject_Z q) (1 # 2)) eqn:T.
    - apply Qle_bool_iff in T. apply Qle_bool_iff. lra.
    - destruct (Qle_bool (x - inject_Z q) (1 # 2)) eqn:T'; [|reflexivity].
      apply Qle_bool_iff in T'.
      assert (T2 : Qle_bool (y - inject_Z q) (1 # 2) = true)
        by (apply Qle_bool_iff; lra).
      congruence. }
  rewrite B1, B2. reflexivity.
Qed.

Lemma fl_comp (x y : Q) : x == y -> fl x = fl y.
Proof.
  intros E. unfold fl.
  assert (Z0 : Qeq_bool x 0 = Qeq_bool y 0).
  { destruct (Qeq_bool y 0) eqn:T.
    - apply Qeq_bool_iff in T. apply Qeq_bool_iff. rewrite E. exact T.
    - destruct (Qeq_bool x 0) eqn:T'; [|reflexivity].
      apply Qeq_bool_iff in T'.
      assert (T2 : Qeq_bool y 0 = true)
        by (apply Qeq_bool_iff; rewrite <- E; exact T').
      congruence. }
  rewrite Z0. destruct (Qeq_bool y 0) eqn:T; [reflexivity|].
  assert (Hy : 0 < Qabs y).
  { apply Qeq_bool_neq in T. apply Qabs_case; intros H.
    - destruct (Qlt_le_dec 0 y) as [L|L]; [exact L|].
      exfalso. apply T. lra.
    - destruct (Qlt_le_dec y 0) as [L|L]; [lra|].
      exfalso. apply T. lra. }
  assert (Ea : Qabs x == Qabs y) by (rewrite E; reflexivity).
  assert (El : ilog2 (Qabs x) = ilog2 (Qabs y)).
  { destruct (ilog2_spec (Qabs y) Hy) as [L1 L2].
    apply ilog2_unique; rewrite Ea; assumption. }
  cbv zeta. rewrite El.
  set (e := (ilog2 (Qabs y) - 52)%Z).
  assert (Ed : x / pow2 e == y / pow2 e) by (rewrite E; reflexivity).
  rewrite (round_half_even_comp _ _ Ed). reflexivity.
Qed.

Lemma round_half_even_integer (y : Q) (k : Z) :
  y == inject_Z k -> round_half_even y = k.
Proof.
  intros E. rewrite (round_half_even_comp _ _ E).
  unfold round_half_even. rewrite Qfloor_Z.
  assert (T : Qlt_bool (inject_Z k - inject_Z k) (1 # 2) = true).
  { unfold Qlt_bool.
    destruct (Qle_bool (1 # 2) (inject_Z k - inject_Z k)) eqn:T;
      [|reflexivity].
    apply Qle_bool_iff in T. exfalso. lra. }
  rewrite T. reflexivity.
Qed.

(** Integers up to 2^53 are binary64 values: array lengths, indices and
    16-bit samples are not rounded. *)
Lemma fl_integer (z : Z) :
  (Z.abs z <= 2 ^ 53)%Z -> fl (inject_Z z) == inject_Z z.
Proof.
  intros Hz. unfold fl. destruct (Qeq_bool (inject_Z z) 0) eqn:Z0.
  - apply Qeq_bool_iff in Z0. symmetry. exact Z0.
  - apply Qeq_bool_neq in Z0.
    assert (Hz0 : z <> 0%Z) by (intros ->; apply Z0; reflexivity).
    assert (Ea : Qabs (inject_Z z) = inject_Z (Z.abs z)) by reflexivity.
    assert (Hx : 0 < Qabs (inject_Z z)).
    { rewrite Ea. change 0 with (inject_Z 0). rewrite <- Zlt_Qlt. lia. }
    cbv zeta. rewrite Qred_correct.
    destruct (ilog2_spec _ Hx) as [L1 _].
    assert (Hk : (ilog2 (Qabs (inject_Z z)) <= 53)%Z).
    { apply Qpower_le_compat_l_inv with (q := 2); [|reflexivity].
      apply Qle_trans with (Qabs (inject_Z z)); [exact L1|].
      rewrite Ea. change (2 ^ 53) with (inject_Z (2 ^ 53)).
      rewrite <- Zle_Qle. exact Hz. }
    set (e := (ilog2 (Qabs (inject_Z z)) - 52)%Z) in *.
    pose proof (pow2_pos e) as Pe.
    destruct (Z.le_gt_cases e 0) as [He|He].
    + assert (Hp : pow2 e * pow2 (- e) == 1).
      { rewrite <- pow2_plus. replace (e + - e)%Z with 0%Z by lia.
        reflexivity. }
      assert (Hi : pow2 (- e) == inject_Z (2 ^ (- e)))
        by (apply pow2_Z; lia).
      assert (Ey : inject_Z z / pow2 e == inject_Z (z * 2 ^ (- e))).
      { rewrite inject_Z_mult, <- Hi.
        apply Qeq_trans with (inject_Z z * (pow2 e * pow2 (- e)) / pow2 e).
        - rewrite Hp. field. lra.
        - field. lra. }
      rewrite (round_half_even_integer _ _ Ey).
      rewrite inject_Z_mult, <- Hi.
      apply Qeq_trans with (inject_Z z * (pow2 e * pow2 (- e))).
      * ring.
      * rewrite Hp. ring.
    + assert (He1 : e = 1%Z) by (unfold e in *; lia).
      assert (Hk53 : ilog2 (Qabs (inject_Z z)) = 53%Z)
        by (unfold e in *; lia).
      rewrite Hk53 in L1. rewrite Ea in L1.
      change (pow2 53) with (inject_Z (2 ^ 53)) in L1.
      rewrite <- Zle_Qle in L1.
      rewrite He1.
      assert (Hcases : z = (2 ^ 53)%Z \/ z = (- 2 ^ 53)%Z) by lia.
      destruct Hcases as [-> | ->]; vm_compute; reflexivity.
Qed.

(** No integer is nearer. *)
Lemma round_half_even_nearest (y : Q) (k : Z) :
  Qabs (inject_Z (round_half_even y) - y) <= Qabs (inject_Z k - y).
Proof.
  pose proof (round_half_even_error y) as Hm.
  set (m := round_half_even y) in *.
  destruct (Z.eq_dec k m) as [->|Hne]; [apply Qle_refl|].
  apply Qabs_Qle_condition in Hm.
  destruct (Z.lt_ge_cases k m) as [Hlt|Hge].
  - assert (H : inject_Z k + 1 <= inject_Z m).
    { change 1 with (inject_Z 1). rewrite <- inject_Z_plus, <- Zle_Qle. lia. }
    apply Qabs_case; intros Hc; apply Qabs_case; intros Hd; lra.
  - assert (H : inject_Z m + 1 <= inject_Z k).
    { change 1 with (inject_Z 1). rewrite <- inject_Z_plus, <- Zle_Qle. lia. }
    apply Qabs_case; intros Hc; apply Qabs_case; intros Hd; lra.
Qed.

Lemma pow2_le (a b : Z) : (a <= b)%Z -> pow2 a <= pow2 b.
Proof. intro H. apply Qpower_le_compat_l; [exact H | discriminate]. Qed.

(** No number with a 53-bit significand is nearer to [x] than [fl x]. *)
Lemma fl_nearest (x : Q) (m' e' : Z) :
  (Z.abs m' < 2 ^ 53)%Z ->
  Qabs (fl x - x) <= Qabs (inject_Z m' * pow2 e' - x).
Proof.
  intros Hm'. unfold fl. destruct (Qeq_bool x 0) eqn:Z0.
  - apply Qeq_bool_iff in Z0.
    assert (E : 0 - x == 0) by (rewrite Z0; reflexivity).
    rewrite E. apply Qabs_nonneg.
  - assert (Hx : 0 < Qabs x).
    { apply Qeq_bool_neq in Z0. apply Qabs_case; intros H.
      - destruct (Qlt_le_dec 0 x) as [L|L]; [exact L|].
        exfalso. apply Z0. lra.
      - destruct (Qlt_le_dec x 0) as [L|L]; [lra|].
        exfalso. apply Z0. lra. }
    cbv zeta. rewrite Qred_correct.
    destruct (ilog2_spec (Qabs x) Hx) as [Hlo _].
    set (e := (ilog2 (Qabs x) - 52)%Z) in *.
    set (y := x / pow2 e).
    pose proof (pow2_pos e) as Pe.
    assert (P : pow2 (ilog2 (Qabs x)) == pow2 e * pow2 52).
    { replace (ilog2 (Qabs x)) with (e + 52)%Z by (unfold e; lia).
      apply pow2_plus. }
    rewrite P in Hlo. change (pow2 52) with 4503599627370496 in Hlo.
    (* distances to multiples of 2^e *)
    assert (D : forall k : Z,
               Qabs (inject_Z k * pow2 e - x)
               == Qabs (inject_Z k - y) * pow2 e).
    { intro k.
      assert (E : inject_Z k * pow2 e - x == (inject_Z k - y) * pow2 e)
        by (unfold y; field; lra).
      rewrite E, Qabs_Qmult, (Qabs_pos (pow2 e)) by lra. reflexivity. }
    assert (N : forall k : Z,
               Qabs (inject_Z (round_half_even y) * pow2 e - x)
               <= Qabs (inject_Z k * pow2 e - x)).
    { intro k. rewrite (D k), (D (round_half_even y)).
      apply Qmult_le_compat_r; [apply round_half_even_nearest | lra]. }
    destruct (Z.le_gt_cases e e') as [He|He].
    + (* the candidate is a multiple of 2^e *)
      assert (Hp : pow2 e' == inject_Z (2 ^ (e' - e)) * pow2 e).
      { rewrite <- pow2_Z by lia. rewrite <- pow2_plus.
        replace (e' - e + e)%Z with e' by lia. reflexivity. }
      assert (Ef : inject_Z m' * pow2 e'
                   == inject_Z (m' * 2 ^ (e' - e)) * pow2 e)
        by (rewrite Hp, inject_Z_mult; ring).
      rewrite Ef. apply N.
    + (* the candidate is smaller in magnitude than 2^(52+e) <= |x| *)
      pose proof (pow2_pos e') as Pe'.
      assert (Hp : pow2 e' * 2 <= pow2 e).
      { assert (H2 : pow2 e' * 2 == pow2 (e' + 1))
          by (rewrite pow2_plus; reflexivity).
        rewrite H2. apply pow2_le. lia. }
      assert (Hf : Qabs (inject_Z m' * pow2 e') < pow2 e * 4503599627370496).
      { rewrite Qabs_Qmult, (Qabs_pos (pow2 e')) by lra.
        assert (Hm : Qabs (inject_Z m') <= 9007199254740991).
        { change (Qabs (inject_Z m')) with (inject_Z (Z.abs m')).
          change 9007199254740991 with (inject_Z (2 ^ 53 - 1)).
          rewrite <- Zle_Qle. lia. }
        assert (H1 : Qabs (inject_Z m') * pow2 e'
                     <= 9007199254740991 * pow2 e')
          by (apply Qmult_le_compat_r; [exact Hm | lra]).
        lra. }
      set (f := inject_Z m' * pow2 e') in *.
      pose proof (Qabs_triangle_reverse x f) as T.
      rewrite (Qabs_Qminus f x).
      apply Qle_trans with (Qabs x - pow2 e * 4503599627370496); [|lra].
      (* compare with the multiple +-2^52 of 2^e *)
      destruct (Qlt_le_dec x 0) as [Neg|Pos].
      * pose proof (N (- 2 ^ 52)%Z) as Nk.
        rewrite (Qabs_neg x) in * by lra.
        eapply Qle_trans; [exact Nk|].
        change (inject_Z (- 2 ^ 52)) with (-4503599627370496).
        rewrite Qabs_pos by lra. lra.
      * pose proof (N (2 ^ 52)%Z) as Nk.
        rewrite (Qabs_pos x) in * by lra.
        eapply Qle_trans; [exact Nk|].
        change (inject_Z (2 ^ 52)) with 4503599627370496.
        rewrite Qabs_neg by lra. lra.
Qed.
(** One tenth, and the sum 0.1 + 0.2, which is not the number 0.3. *)
Example fl_tenth :
  fl (1 # 10) = 3602879701896397 # 36028797018963968 /\
  add (fl (1 # 10)) (fl (2 # 10)) = 1351079888211149 # 4503599627370496 /\
  fl (3 # 10) = 5404319552844595 # 18014398509481984.
Proof. repeat split; vm_compute; reflexivity. Qed.

(** Halfway between two binary64 values the even significand wins:
    2^53 + 1 goes down to 2^53, and 2^53 + 3 goes up to 2^53 + 4. *)
Example fl_ties_to_even :
  fl 9007199254740993 = 9007199254740992 /\
  fl 9007199254740995 = 9007199254740996.
Proof. split; vm_compute; reflexivity. Qed.

(** C8. The resampler is a function of its arguments alone.  With equal
    rates it returns its input.  With different rates between 1 Hz and
    1 MHz, [ratio = source / target] as a JavaScript number, and fewer
    than 2^31 samples of 16 bits, the output has
    [floor (length / ratio)] samples, every index read lies inside the
    input, and output sample [i] is [Math.round] of the linear
    interpolation between the samples at [floor (i * ratio)] and
    [min (floor (i * ratio) + 1) (length - 1)], computed in binary64: an
    integer nearest to it, within the 16-bit range.  The binary64
    interpolation is within 2^-35 of the exact one at that position, so
    the sample is within 1/2 + 2^-35 of the exact interpolation. *)
Theorem C8_resample_interpolates :
  forall (input : list Z) (R : Q),
    WebAudioRecorder64.resample input R R = input /\
    forall (target : Q) (i : nat),
      Forall is_int16 input ->
      (Z.of_nat (List.length input) < 2 ^ 31)%Z ->
      1 <= R <= 1000000 -> 1 <= target <= 1000000 -> ~ R == target ->
      let ratio := Binary64.div R target in
      let output := WebAudioRecorder64.resample input R target in
      Z.of_nat (List.length output)
      = Qfloor (Binary64.div (inject_Z (Z.of_nat (List.length input))) ratio)
      /\
      ((i < List.length output)%nat ->
       let pos := Binary64.mul (inject_Z (Z.of_nat i)) ratio in
       (0 <= Qfloor pos < Z.of_nat (List.length input))%Z /\
       nth i output 0%Z
       = WebAudioRecorder.Math_round (interpolate64 input ratio i) /\
       nearest (nth i output 0%Z) (interpolate64 input ratio i) /\
       is_int16 (nth i output 0%Z) /\
       Qabs (interpolate64 input ratio i - linear_interpolation input pos)
       <= 1 # 34359738368 /\
       Qabs (inject_Z (nth i output 0%Z) - linear_interpolation input pos)
       <= (1 # 2) + (1 # 34359738368)).
Proof.
  intros input R. split.
  { unfold WebAudioRecorder64.resample.
    rewrite (proj2 (Qeq_bool_iff R R)); reflexivity. }
  intros target i Hin Hn HR Ht Hne ratio output.
  pose proof (ratio64_bounds R target HR Ht) as [Hr _]. fold ratio in Hr.
  assert (Hr0 : 0 < ratio) by (unfold u in *; lra).
  set (len := Qfloor (div (inject_Z (Z.of_nat (List.length input))) ratio)).
  assert (Hout : output
                 = map (fun k => WebAudioRecorder64.resample_at
                                   input ratio (Z.of_nat k))
                       (seq 0 (Z.to_nat len))).
  { unfold output, WebAudioRecorder64.resample.
    destruct (Qeq_bool R target) eqn:E; [|reflexivity].
    exfalso. apply Hne. apply Qeq_bool_iff. exact E. }
  assert (Hlen : List.length output = Z.to_nat len)
    by (rewrite Hout, length_map, length_seq; reflexivity).
  split.
  { rewrite Hlen. apply Z2Nat.id. unfold len, div.
    change 0%Z with (Qfloor (inject_Z 0)).
    apply Qfloor_resp_le. change (inject_Z 0) with 0.
    assert (H0 : 0 <= inject_Z (Z.of_nat (List.length input)) / ratio).
    { apply Qle_shift_div_l; [exact Hr0|].
      rewrite Qmult_0_l. change 0 with (inject_Z 0).
      rewrite <- Zle_Qle. lia. }
    pose proof (fl_nonneg _ H0) as [F _]. unfold u in *.
    assert (0 <= inject_Z (Z.of_nat (List.length input)) / ratio
                 * (1 - (1 # 9007199254740992)))
      by (apply Qmult_le_0_compat; [exact H0 | lra]).
    lra. }
  intro Hi. rewrite Hlen in Hi. intro pos.
  pose proof (source_index_range64 _ i ratio Hr Hn Hi) as Hidx.
  destruct (resample_at64_spec input ratio i Hin Hidx) as (Hat & H16 & Hacc).
  assert (Hnth : nth i output 0%Z
                 = WebAudioRecorder.Math_round (interpolate64 input ratio i)).
  { rewrite Hout.
    rewrite (nth_indep _ 0%Z
               (WebAudioRecorder64.resample_at input ratio (Z.of_nat 0)))
      by (rewrite length_map, length_seq; exact Hi).
    rewrite (map_nth (fun k => WebAudioRecorder64.resample_at
                                 input ratio (Z.of_nat k))).
    rewrite seq_nth by exact Hi. cbn [Nat.add]. exact Hat. }
  split; [exact Hidx|].
  rewrite Hnth.
  split; [reflexivity|]. split; [apply Math_round_nearest|].
  split; [exact H16|]. split; [exact Hacc|].
  pose proof (Math_round_nearest (interpolate64 input ratio i)) as [N1 N2].
  subst pos.
  apply Qabs_Qle_condition in Hacc. apply Qabs_Qle_condition.
  split; lra.
Qed.

(** 22.05 kHz to 16 kHz: output sample 1 lies at position 1.378125,
    where the exact interpolation of 80 and -80 is 19.5; in binary64 the
    ratio is rounded up and the sum falls just below the half, so the
    engine stores 19 where exact arithmetic gives 20. *)
Example resample_22050 :
  WebAudioRecorder64.resample [0; 80; -80]%Z 22050 16000 = [0; 19]%Z /\
  WebAudioRecorder.resample [0; 80; -80]%Z 22050 16000 = [0; 20]%Z.
Proof. split; vm_compute; reflexivity. Qed.

Lemma C8_resample_interpolates_witness :
  let input := [0; 80; -80]%Z in
  (Forall is_int16 input /\ (Z.of_nat (List.length input) < 2 ^ 31)%Z /\
   1 <= 22050 <= 1000000 /\ 1 <= 16000 <= 1000000 /\ ~ 22050 == 16000 /\
   (1 < List.length (WebAudioRecorder64.resample input 22050 16000))%nat) /\
  nth 1 (WebAudioRecorder64.resample input 22050 16000) 0%Z
  = WebAudioRecorder.Math_round
      (interpolate64 input (Binary64.div 22050 16000) 1) /\
  nth 1 (WebAudioRecorder64.resample input 22050 16000) 0%Z = 19%Z.
Proof.
  intros input.
  assert (Hin : Forall is_int16 input)
    by (repeat constructor; discriminate).
  assert (Hn : (Z.of_nat (List.length input) < 2 ^ 31)%Z) by reflexivity.
  assert (Hs : 1 <= 22050 <= 1000000) by (split; discriminate).
  assert (Ht : 1 <= 16000 <= 1000000) by (split; discriminate).
  assert (Hne : ~ 22050 == 16000) by discriminate.
  assert (Hi : (1 < List.length
                      (WebAudioRecorder64.resample input 22050 16000))%nat)
    by (vm_compute; lia).
  split; [repeat split; try assumption; discriminate|].
  destruct (C8_resample_interpolates input 22050) as [_ H].
  destruct (H 16000 1%nat Hin Hn Hs Ht Hne) as [_ H'].
  destruct (H' Hi) as (_ & Hnth & _).
  split; [exact Hnth | vm_compute; reflexivity].
Defined.

End ResamplerBinary64.

(** ** Session state machine *)

Section Session.

Import VoiceSession.
Local Open Scope string_scope.

Lemma truthy_false (s : option string) :
  truthy s = false <-> missing_or_empty s.
Proof.
  unfold truthy, missing_or_empty. destruct s as [x|].
  - rewrite negb_false_iff, String.eqb_eq. split.
    + intro H. right. congruence.
    + intros [H | H]; congruence.
  - split; [intros _; left; reflexivity | reflexivity].
Qed.

(** C10. A binary message whose leading type byte is not 0x01 is
    discarded: the handler returns with the session exactly as it was,
    so the state is unchanged, nothing reaches the playback engine, and
    no transcript entry, error message or platform call is made. *)
Theorem C10_non_audio_binary_discarded :
  forall (JSON_parse : string -> option JsValue)
         (JSON_stringify : JsValue -> string)
         (now : Q) (date : string) (messageType : byte) (rest : list byte)
         (st : t),
    byte_val messageType <> 1%Z ->
    handleMessage JSON_parse JSON_stringify now date
                  (DataArrayBuffer (messageType :: rest)) st
    = Returns st.
Proof.
  intros JSON_parse JSON_stringify now date messageType rest st H.
  cbn [handleMessage].
  apply Z.eqb_neq in H. rewrite H. reflexivity.
Qed.

(** C3. [connect] with a missing or empty session id, patient id or
    API key only sets the error message and the state [Error]: whatever
    the platform would answer, no platform call is made, no playback
    engine is created and no socket is opened. *)
Theorem C3_connect_fails_fast :
  forall (p : Props) (env : ConnectEnv) (st : t),
    missing_or_empty (sessionId p) \/ missing_or_empty (patientId p)
    \/ missing_or_empty (GEMINI_API_KEY p) ->
    let st' := connect p env st in
    st' = setState Error
            (setError
               (JString "Missing session ID, patient ID, or Gemini API Key")
               st) /\
    state st' = Error /\
    error_message st'
    = JString "Missing session ID, patient ID, or Gemini API Key" /\
    io st' = io st /\
    playbackEngineRef st' = playbackEngineRef st /\
    wsRef st' = wsRef st /\
    currentTranscript st' = currentTranscript st.
Proof.
  intros p env st H st'.
  assert (G : negb (truthy (sessionId p)) || negb (truthy (patientId p))
              || negb (truthy (GEMINI_API_KEY p)) = true).
  { rewrite !orb_true_iff, !negb_true_iff, !truthy_false.
    destruct H as [H | [H | H]]; auto. }
  unfold st', connect. rewrite G. repeat split.
Qed.

(** C2, on the code: an inbound message of type 'error' stores the
    message text as the error message, and leaves the session state as
    it was. *)
Theorem C2_error_message_keeps_state :
  forall (JSON_parse : string -> option JsValue)
         (JSON_stringify : JsValue -> string)
         (now : Q) (date s : string) (messageData message : JsValue)
         (st : t),
    JSON_parse s = Some messageData ->
    member "type" messageData = Some (JString "error") ->
    member "message" messageData = Some message ->
    exists st',
      handleMessage JSON_parse JSON_stringify now date (DataString s) st
      = Returns st' /\
      error_message st' = message /\
      state st' = state st.
Proof.
  intros JSON_parse JSON_stringify now date s messageData message st
         Hp Ht Hm.
  cbn [handleMessage]. rewrite Hp, Ht, Hm. cbn.
  eexists. split; [reflexivity|]. split; reflexivity.
Qed.

(** By contrast, a message of type 0x01 received in state [Connected]
    moves the session to [Speaking] and hands the bytes after the 13-byte
    header to the playback engine, which holds them in pre-roll. *)
Example audio_message_is_enqueued :
  let st :=
    set_playbackEngineRef
      (Some (engine_init (createPlaybackEngine web)))
      (setState Connected (new_session None)) in
  let frame := [x01; x00; x00; x00; x00; x00; x00; x00; x00; x00; x00; x00;
                x00; x00; x40] in
  let st' := state_of (handleMessage (fun _ => None) (fun _ => EmptyString)
                                     0 "2025-01-01T00:00:00.000Z"
                                     (DataArrayBuffer frame) st) in
  state st' = Speaking /\
  playbackEngineRef st'
  = Some (WebEngine
            (WebAudioPlaybackEngine.mkEngine
               (Some WebAudioPlaybackEngine.new_AudioContext) 0 false
               [mkAudioBuffer [16384 / 32768]] false 0 false)).
Proof. split; reflexivity. Qed.

Lemma C10_non_audio_binary_discarded_witness :
  let parse := fun _ : string => @None JsValue in
  let stringify := fun _ : JsValue => EmptyString in
  let st :=
    set_playbackEngineRef
      (Some (engine_init (createPlaybackEngine web)))
      (setState Connected (new_session None)) in
  byte_val x02 <> 1%Z /\
  handleMessage parse stringify 0 "2025-01-01T00:00:00.000Z"
                (DataArrayBuffer [x02; x00; x00; x7f]) st
  = Returns st.
Proof.
  intros parse stringify st.
  assert (H : byte_val x02 <> 1%Z) by (vm_compute; lia).
  split; [exact H|].
  apply (C10_non_audio_binary_discarded parse stringify 0 _ x02 _ st H).
Defined.

Lemma C3_connect_fails_fast_witness :
  let p := mkProps (Some EmptyString) (Some "patient-1") (Some "key")
                   (Some "jwt") "ws://localhost:8000" web in
  let env := mkConnectEnv false (Some "granted") in
  let st := new_session None in
  missing_or_empty (sessionId p) /\
  state (connect p env st) = Error /\
  io (connect p env st) = [] /\
  playbackEngineRef (connect p env st) = None /\
  wsRef (connect p env st) = None.
Proof.
  intros p env st.
  assert (H : missing_or_empty (sessionId p)) by (right; reflexivity).
  split; [exact H|].
  destruct (C3_connect_fails_fast p env st (or_introl H))
    as (_ & Hs & _ & Hio & He & Hw & _).
  repeat split; assumption.
Defined.

(** A session with every identifier present and the permission granted
    reaches [Connecting] with an engine and a socket: the guard of C3 is
    what stops the run above. *)
Example connect_proceeds :
  let p := mkProps (Some "session-1") (Some "patient-1") (Some "key")
                   (Some "jwt") "ws://localhost:8000" web in
  let st' := connect p (mkConnectEnv false (Some "granted"))
                     (new_session None) in
  state st' = Connecting /\
  io st'
  = [SetAudioMode; RequestPermissions;
     NewWebSocket
       "ws://localhost:8000/api/voice/ws/voice/session-1?patient_id=patient-1&token=jwt"] /\
  playbackEngineRef st'
  = Some (WebEngine
            (WebAudioPlaybackEngine.onDrained
               (WebAudioPlaybackEngine.init
                  WebAudioPlaybackEngine.new_engine))).
Proof. repeat split. Qed.

(** The guard does not look at the authentication token: without one,
    [connect] goes on and opens the socket with [token=null]. *)
Example connect_without_token :
  let p := mkProps (Some "session-1") (Some "patient-1") (Some "key")
                   None "ws://localhost:8000" web in
  let st' := connect p (mkConnectEnv false (Some "granted"))
                     (new_session None) in
  state st' = Connecting /\
  wsRef st'
  = Some (mkWebSocket
            "ws://localhost:8000/api/voice/ws/voice/session-1?patient_id=patient-1&token=null"
            CONNECTING []).
Proof. split; reflexivity. Qed.

(** A denied permission ends in [Error] before any engine or socket
    exists. *)
Example connect_permission_denied :
  let p := mkProps (Some "session-1") (Some "patient-1") (Some "key")
                   (Some "jwt") "ws://localhost:8000" web in
  let st' := connect p (mkConnectEnv false (Some "denied"))
                     (new_session None) in
  state st' = Error /\
  error_message st' = JString "Microphone permission denied" /\
  playbackEngineRef st' = None /\ wsRef st' = None.
Proof. repeat split. Qed.

Lemma C2_error_message_keeps_state_witness :
  let messageData :=
    JObject [("type", JString "error");
             ("message", JString "quota exceeded")] in
  let parse := fun _ : string => Some messageData in
  let stringify := fun _ : JsValue => EmptyString in
  let st := setState Connected (new_session None) in
  (parse "{}" = Some messageData /\
   member "type" messageData = Some (JString "error") /\
   member "message" messageData = Some (JString "quota exceeded")) /\
  exists st',
    handleMessage parse stringify 0 "2025-01-01T00:00:00.000Z"
                  (DataString "{}") st
    = Returns st' /\
    error_message st' = JString "quota exceeded" /\
    state st' = Connected.
Proof.
  intros messageData parse stringify st.
  assert (Hp : parse "{}" = Some messageData) by reflexivity.
  assert (Ht : member "type" messageData = Some (JString "error"))
    by reflexivity.
  assert (Hm : member "message" messageData
               = Some (JString "quota exceeded")) by reflexivity.
  split; [repeat split; assumption|].
  exact (C2_error_message_keeps_state parse stringify 0 _ "{}" messageData
                                      _ st Hp Ht Hm).
Defined.

(** *** The greeting *)









Example description_of_a_photo :
  buildPhotoDescription
    (mkPhoto "p1" (Some "Beach day")
             (Some [mkTag "person" "Anna"; mkTag "place" "Nice";
                    mkTag "person" "Luc"; mkTag "object" "kite"])
             None)
  = "Caption: " ++ dquote ++ "Beach day" ++ dquote
    ++ ". People in photo: Anna, Luc. Location: Nice".
Proof. reflexivity. Qed.

Example description_placeholder :
  buildPhotoDescription (mkPhoto "p2" None None None) = NO_CONTEXT /\
  buildPhotoDescription
    (mkPhoto "p3" (Some EmptyString) (Some [mkTag "object" "kite"]) None)
  = NO_CONTEXT.
Proof. split; reflexivity. Qed.

(** The greeting is sent on the session's socket only if it is open:
    with no socket in [wsRef] the state still becomes [Connected] and
    nothing is sent. *)
Example connected_without_open_socket :
  let photo := mkPhoto "p1" (Some "Beach day") None None in
  let parse := fun _ : string => Some (JObject [("type", JString "connected")]) in
  let st := setState Connecting (new_session (Some photo)) in
  let st' := state_of (handleMessage parse (fun _ => "greeting") 0
                                     "2025-01-01T00:00:00.000Z"
                                     (DataString "{}") st) in
  state st' = Connected /\ wsRef st' = None.
Proof. split; reflexivity. Qed.


(** *** Photo change *)

(** C7, as stated, fails: with no open socket [sendPhotoChange] emits
    no transcript entry. *)
Lemma C7_no_entry_when_closed :
  let photo := mkPhoto "p1" (Some "Beach day") None None in
  let stringify := fun _ : JsValue => "photo_change" in
  let st := setState Connected (new_session None) in
  let st' := sendPhotoChange stringify "2025-01-01T00:00:00.000Z" photo st in
  ~ emits_view_entry "2025-01-01T00:00:00.000Z" photo st st' /\
  currentTranscript st' = [].
Proof.
  intros photo stringify st st'. split; [|reflexivity].
  unfold emits_view_entry. cbn. discriminate.
Qed.

(** C7 (amended). [sendPhotoChange] does nothing unless the socket is
    open.  When it is open, it hands to the socket one 'photo_change'
    message carrying the photo id, the caption, the tag values and the
    date, and appends to the transcript one entry of role 'system'
    recording the view; the entry does not depend on what becomes of
    the frame. *)
Theorem C7_sendPhotoChange :
  forall (JSON_stringify : JsValue -> string) (date : string)
         (photo : PhotoContext) (st : t),
    let st' := sendPhotoChange JSON_stringify date photo st in
    let message := photo_change_message photo in
    (is_open (wsRef st) = false -> st' = st) /\
    (forall w, wsRef st = Some w -> readyState w = OPEN ->
       wsRef st'
       = Some (mkWebSocket (url w) OPEN
                           (sent w ++ [TextFrame (JSON_stringify message)])) /\
       emits_view_entry date photo st st' /\
       state st' = state st /\
       error_message st' = error_message st) /\
    (member "type" message = Some (JString "photo_change") /\
     member "photo_id" message = Some (JString (id photo)) /\
     member "caption" message = Some (opt_string (caption photo)) /\
     member "tags" message
     = Some (match tags photo with
             | Some l => JArray (map (fun t => JString (tag_value t)) l)
             | None => JUndefined
             end) /\
     member "date_taken" message = Some (opt_string (date_taken photo))) /\
    (role (view_entry date photo) = JString "system" /\
     text (view_entry date photo) = JString ("Viewed photo " ++ id photo) /\
     photo_id (view_entry date photo) = Some (id photo)).
Proof.
  intros JSON_stringify date photo st st' message.
  split; [|split; [|split]].
  - intro H. unfold st', sendPhotoChange. rewrite H. reflexivity.
  - intros w Hw Hopen.
    assert (Ho : is_open (wsRef st) = true)
      by (unfold is_open; rewrite Hw, Hopen; reflexivity).
    unfold st', sendPhotoChange. rewrite Ho.
    unfold ws_send, emits_view_entry. rewrite Hw. unfold send.
    rewrite Hopen. repeat split.
  - repeat split.
  - repeat split.
Qed.

Lemma C7_sendPhotoChange_witness :
  let photo := mkPhoto "p1" (Some "Beach day")
                       (Some [mkTag "person" "Anna"]) None in
  let stringify := fun _ : JsValue => "photo_change" in
  let w := mkWebSocket "ws://localhost:8000/api/voice/ws/voice/s1" OPEN [] in
  let closed := setState Connected (new_session None) in
  let open := set_wsRef (Some w) closed in
  let date := "2025-01-01T00:00:00.000Z" in
  (is_open (wsRef closed) = false /\
   sendPhotoChange stringify date photo closed = closed) /\
  (wsRef open = Some w /\ readyState w = OPEN) /\
  currentTranscript (sendPhotoChange stringify date photo open)
  = [mkEntry (JString "system") (JString "Viewed photo p1") date (Some "p1")].
Proof.
  intros photo stringify w closed open date.
  assert (Hc : is_open (wsRef closed) = false) by reflexivity.
  assert (Hw : wsRef open = Some w) by reflexivity.
  assert (Ho : readyState w = OPEN) by reflexivity.
  split; [split; [exact Hc|]|split; [split; assumption|]].
  - exact (proj1 (C7_sendPhotoChange stringify date photo closed) Hc).
  - destruct (C7_sendPhotoChange stringify date photo open)
      as (_ & H & _).
    destruct (H w Hw Ho) as (_ & He & _).
    exact He.
Defined.

End Session.

(** ** Playback scheduler: counting, order, drain and teardown *)

Section PlaybackMore.

Import WebAudioPlaybackEngine PlaybackEvents.

Lemma list_pair_ind (A : Type) (P : list A -> Prop) :
  P [] -> (forall a, P [a]) ->
  (forall a b l, P l -> P (a :: b :: l)) ->
  forall l, P l.
Proof.
  intros H0 H1 H2 l.
  assert (H : P l /\ forall a, P (a :: l)).
  { induction l as [|b l [IH1 IH2]].
    - split; [exact H0 | exact H1].
    - split; [apply IH2 | intro a; apply H2; exact IH1]. }
  exact (proj1 H).
Qed.

Lemma wrap_int16_range (z : Z) : is_int16 (wrap_int16 z).
Proof.
  unfold is_int16, wrap_int16.
  pose proof (Z.mod_pos_bound (z + 32768) 65536 ltac:(lia)). lia.
Qed.

(** [new Int16Array(buffer)] succeeds exactly on an even byte length, and
    then yields one 16-bit sample per pair of bytes. *)
Lemma Int16Array_of_spec (bs : list byte) :
  if Nat.even (List.length bs)
  then exists l, Int16Array_of bs = Some l /\
                 List.length l = Nat.div2 (List.length bs) /\
                 Forall is_int16 l
  else Int16Array_of bs = None.
Proof.
  induction bs as [|a|a b l IH] using list_pair_ind.
  - exists []. repeat split. constructor.
  - reflexivity.
  - cbn [List.length Nat.even Int16Array_of Nat.div2].
    destruct (Nat.even (List.length l)).
    + destruct IH as (l' & E & Hl & Hf). rewrite E.
      eexists. split; [reflexivity|]. split.
      * cbn [List.length]. rewrite Hl. reflexivity.
      * constructor; [apply wrap_int16_range | exact Hf].
    + rewrite IH. reflexivity.
Qed.

Lemma sample_range (z : Z) :
  is_int16 z -> -1 <= inject_Z z / inject_Z 32768 /\
                inject_Z z / inject_Z 32768 < 1.
Proof.
  intros [Hlo Hhi]. split.
  - apply Qle_shift_div_l; [reflexivity|].
    change (-1 * inject_Z 32768) with (inject_Z (-32768)).
    rewrite <- Zle_Qle. exact Hlo.
  - apply Qlt_shift_div_r; [reflexivity|].
    change (1 * inject_Z 32768) with (inject_Z 32768).
    rewrite <- Zlt_Qlt. lia.
Qed.

Lemma whole_samples_decode (pcmData : list byte) :
  whole_samples pcmData ->
  exists buf,
    pcmToAudioBuffer pcmData = Some buf /\
    List.length (channelData buf) = Nat.div2 (List.length pcmData) /\
    Forall (fun x => -1 <= x /\ x < 1) (channelData buf).
Proof.
  intros [Hne Hev]. unfold pcmToAudioBuffer.
  pose proof (Int16Array_of_spec pcmData) as H. rewrite Hev in H.
  destruct H as (l & E & Hl & Hf). rewrite E.
  assert (Hl0 : l <> []).
  { intros ->. destruct pcmData as [|lo [|hi rest]];
      [congruence | discriminate | discriminate]. }
  destruct l as [|s0 l]; [congruence|].
  eexists. split; [reflexivity|]. cbn [channelData]. split.
  - rewrite length_map. exact Hl.
  - apply Forall_map. eapply Forall_impl; [|exact Hf].
    intros z Hz. apply sample_range. exact Hz.
Qed.

(** X7. Decoding: a chunk of whole samples decodes to one float per
    pair of bytes, each in [-1, 1), and the buffer has a positive
    duration. *)
Theorem decoded_chunk_in_range :
  forall pcmData : list byte,
    whole_samples pcmData ->
    exists buf,
      pcmToAudioBuffer pcmData = Some buf /\
      (2 * List.length (channelData buf))%nat = List.length pcmData /\
      Forall (fun x => -1 <= x /\ x < 1) (channelData buf) /\
      0 < duration buf.
Proof.
  intros pcmData Hw.
  destruct (whole_samples_decode pcmData Hw) as (buf & E & Hl & Hr).
  destruct Hw as [Hne Hev].
  apply Nat.even_spec in Hev. destruct Hev as [m Hm].
  assert (Hlen : List.length (channelData buf) = m)
    by (rewrite Hl, Hm; apply Nat.div2_double).
  exists buf. repeat split; try assumption.
  - rewrite Hlen. symmetry. exact Hm.
  - unfold duration. apply Qlt_shift_div_l; [reflexivity|].
    rewrite Qmult_0_l. change 0 with (inject_Z 0). rewrite <- Zlt_Qlt.
    destruct pcmData; [congruence|]. cbn [List.length] in Hm. lia.
Qed.

Lemma decoded_chunk_in_range_witness :
  whole_samples [xff; x7f; x00; x80] /\
  exists buf,
    pcmToAudioBuffer [xff; x7f; x00; x80] = Some buf /\
    Forall (fun x => -1 <= x /\ x < 1) (channelData buf).
Proof.
  assert (H : whole_samples [xff; x7f; x00; x80])
    by (split; [discriminate | reflexivity]).
  split; [exact H|].
  destruct (decoded_chunk_in_range _ H) as (buf & E & _ & Hr & _).
  exists buf. split; assumption.
Defined.

(** X6. A malformed chunk is rejected: on a live engine [enqueue]
    returns exactly when the chunk holds at least one sample and no
    stray byte.  A chunk with an odd number of bytes (no [Int16Array]
    view) and an empty chunk (no [AudioBuffer] of length 0) make it
    throw before it touches the engine, in pre-roll or not. *)
Theorem malformed_chunk_rejected :
  forall (now : Q) (pcmData : list byte) (e : t),
    destroyed e = false -> has_ctx e = true ->
    returned (enqueue now pcmData e)
    = Nat.even (List.length pcmData) && (0 <? List.length pcmData)%nat /\
    (Nat.even (List.length pcmData) && (0 <? List.length pcmData)%nat = false ->
     enqueue now pcmData e = Throws e).
Proof.
  intros now pcmData e Hd Hc.
  unfold enqueue, pcmToAudioBuffer. rewrite Hd, Hc. cbn [orb negb].
  pose proof (Int16Array_of_spec pcmData) as H.
  destruct (Nat.even (List.length pcmData)) eqn:Hev.
  - destruct H as (l & E & Hl & _). rewrite E.
    destruct pcmData as [|lo [|hi rest]]; [| discriminate |].
    + cbn in E. injection E as <-. split; reflexivity.
    + destruct l as [|s0 l]; [discriminate|].
      cbn [List.length Nat.ltb Nat.leb andb]. split; [|discriminate].
      destruct (started e); cbn [negb]; [reflexivity|].
      match goal with |- context [if ?c then _ else _] => destruct c end;
        reflexivity.
  - rewrite H. split; reflexivity.
Qed.

Lemma malformed_chunk_rejected_witness :
  let e := init new_engine in
  (destroyed e = false /\ has_ctx e = true) /\
  enqueue 0 [x01; x02; x03] e = Throws e /\
  enqueue 0 [] e = Throws e /\
  returned (enqueue 0 [x01; x02] e) = true.
Proof.
  intro e.
  assert (Hd : destroyed e = false) by reflexivity.
  assert (Hc : has_ctx e = true) by reflexivity.
  split; [split; assumption|].
  split; [|split].
  - exact (proj2 (malformed_chunk_rejected 0 [x01; x02; x03] e Hd Hc)
                 eq_refl).
  - exact (proj2 (malformed_chunk_rejected 0 [] e Hd Hc) eq_refl).
  - exact (proj1 (malformed_chunk_rejected 0 [x01; x02] e Hd Hc)).
Defined.

(** *** The pending count *)

Lemma scheduleBuffer_pending now b e :
  has_ctx e = true ->
  pendingSources (scheduleBuffer now b e) = (pendingSources e + 1)%Z /\
  drainedCallback (scheduleBuffer now b e) = drainedCallback e.
Proof.
  unfold has_ctx, scheduleBuffer. destruct (ctx e); [|discriminate].
  intros _. split; reflexivity.
Qed.

Lemma schedule_batch_pending now bufs : forall e,
  has_ctx e = true ->
  let e' := fold_left (fun acc buf => scheduleBuffer now buf acc) bufs e in
  pendingSources e' = (pendingSources e + Z.of_nat (List.length bufs))%Z /\
  drainedCallback e' = drainedCallback e.
Proof.
  induction bufs as [|b bufs IH]; intros e Hc; cbn [fold_left List.length].
  - split; [lia | reflexivity].
  - assert (Hc1 : has_ctx (scheduleBuffer now b e) = true)
      by (rewrite scheduleBuffer_has_ctx; exact Hc).
    destruct (IH _ Hc1) as [H1 H2].
    destruct (scheduleBuffer_pending now b e Hc) as [H3 H4].
    cbv zeta. rewrite H1, H2, H3, H4. split; [lia | reflexivity].
Qed.

Lemma enqueue_counted now pcmData e :
  counted e ->
  counted (state_of (enqueue now pcmData e)) /\
  drainedCallback (state_of (enqueue now pcmData e)) = drainedCallback e.
Proof.
  unfold counted. intro H. unfold enqueue.
  destruct (destroyed e || negb (has_ctx e)) eqn:G;
    [split; [exact H | reflexivity]|].
  apply orb_false_iff in G. destruct G as [_ G].
  apply negb_false_iff in G.
  destruct (pcmToAudioBuffer pcmData) as [audioBuffer|];
    [|split; [exact H | reflexivity]].
  destruct (started e); cbn [negb state_of].
  - rewrite (scheduleBuffer_scheduled now audioBuffer e G).
    destruct (scheduleBuffer_pending now audioBuffer e G) as [H1 H2].
    rewrite H1, H2, H. cbn [List.length]. split; [lia | reflexivity].
  - set (e1 := mkEngine (ctx e) (nextStartTime e) false
                        (bufferedChunks e ++ [audioBuffer])
                        (drainedCallback e) (pendingSources e) (destroyed e)).
    destruct (CHUNKS_BEFORE_START <=? List.length (bufferedChunks e1))%nat;
      cbn [state_of]; [|split; [exact H | reflexivity]].
    unfold startPlayback.
    assert (Hc1 : has_ctx e1 = true) by exact G.
    unfold has_ctx in Hc1. destruct (ctx e1) as [c|] eqn:E; [|discriminate].
    set (e2 := mkEngine (Some c) (now + SAFETY_MARGIN) true (bufferedChunks e1)
                        (drainedCallback e1) (pendingSources e1)
                        (destroyed e1)).
    assert (Hc2 : has_ctx e2 = true) by reflexivity.
    destruct (schedule_batch now (bufferedChunks e1) e2 Hc2)
      as (_ & _ & _ & _ & fresh & Hf & Hl & _).
    destruct (schedule_batch_pending now (bufferedChunks e1) e2 Hc2)
      as [Hp Hcb].
    cbv zeta in Hf, Hp, Hcb.
    unfold scheduled at 1. cbn [ctx pendingSources drainedCallback].
    change (match ctx (fold_left (fun acc buf => scheduleBuffer now buf acc)
                                 (bufferedChunks e1) e2) with
            | Some c0 => sources c0
            | None => []
            end)
      with (scheduled (fold_left (fun acc buf => scheduleBuffer now buf acc)
                                 (bufferedChunks e1) e2)).
    rewrite Hf, Hp, Hcb, length_app, Hl.
    assert (Hs2 : scheduled e2 = scheduled e)
      by (unfold scheduled; cbn [ctx e2]; change (ctx e1) with (ctx e) in E;
          rewrite E; reflexivity).
    rewrite Hs2. cbn [pendingSources drainedCallback e2 e1]. rewrite H.
    split; [lia | reflexivity].
Qed.

Lemma enqueue_all_counted chunks : forall e,
  counted e ->
  counted (enqueue_all chunks e) /\
  drainedCallback (enqueue_all chunks e) = drainedCallback e.
Proof.
  induction chunks as [|c chunks IH]; intros e H; cbn [enqueue_all fold_left].
  - split; [exact H | reflexivity].
  - destruct (enqueue_counted (fst c) (snd c) e H) as [H1 H2].
    destruct (IH _ H1) as [H3 H4].
    split; [exact H3|].
    change (drainedCallback
              (enqueue_all chunks (state_of (enqueue (fst c) (snd c) e)))
            = drainedCallback e).
    rewrite H4. exact H2.
Qed.

(** X2. Between the first [enqueue] of a round and the first [onended],
    the pending count is the number of sources scheduled, and [isActive]
    tells whether anything has been scheduled: false during pre-roll,
    true from the call that completes it. *)
Theorem pending_counts_scheduled :
  forall (e0 : t) (chunks : list (Q * list byte)),
    started e0 = false -> scheduled e0 = [] -> pendingSources e0 = 0%Z ->
    let e := enqueue_all chunks e0 in
    pendingSources e = Z.of_nat (List.length (scheduled e)) /\
    isActive e = (0 <? List.length (scheduled e))%nat.
Proof.
  intros e0 chunks Hs Hnil Hp e.
  assert (Hc0 : counted e0) by (unfold counted; rewrite Hnil; exact Hp).
  destruct (enqueue_all_counted chunks e0 Hc0) as [Hc _]. fold e in Hc.
  split; [exact Hc|].
  unfold isActive. rewrite Hc.
  destruct (enqueue_all_round_state chunks e0) as [[H1 H2] | H].
  - left. split; assumption.
  - fold e in H1, H2. rewrite H1, H2. reflexivity.
  - fold e in H. destruct H as (H1 & _ & s & l & Hl & _).
    rewrite H1, Hl. reflexivity.
Qed.

Lemma pending_counts_scheduled_witness :
  let e0 := init new_engine in
  let chunks := [(0, [x00; x00]); (0, [x01; x00]); (0, [x02; x00]);
                 (1, [x03; x00])] in
  (started e0 = false /\ scheduled e0 = [] /\ pendingSources e0 = 0%Z) /\
  pendingSources (enqueue_all chunks e0) = 4%Z /\
  isActive (enqueue_all chunks e0) = true.
Proof.
  intros e0 chunks.
  assert (Hs : started e0 = false) by reflexivity.
  assert (Hn : scheduled e0 = []) by reflexivity.
  assert (Hp : pendingSources e0 = 0%Z) by reflexivity.
  split; [repeat split; assumption|].
  destruct (pending_counts_scheduled e0 chunks Hs Hn Hp) as [H1 H2].
  split; [exact H1 | exact H2].
Defined.

(** *** Drain *)

Lemma ended_events_fire_last n : forall e,
  pendingSources e = Z.of_nat (S n) -> drainedCallback e = true ->
  snd (ended_events (S n) e) = (repeat false n ++ [true])%list /\
  pendingSources (fst (ended_events (S n) e)) = 0%Z /\
  started (fst (ended_events (S n) e)) = started e.
Proof.
  induction n as [|n IH]; intros e Hp Hcb.
  - cbn. rewrite Hp, Hcb. cbn. repeat split.
  - assert (Hp1 : pendingSources (fst (onended e)) = Z.of_nat (S n))
      by (cbn [onended fst pendingSources]; lia).
    assert (Hcb1 : drainedCallback (fst (onended e)) = true) by exact Hcb.
    destruct (IH _ Hp1 Hcb1) as (H1 & H2 & H3).
    change (ended_events (S (S n)) e)
      with (fst (ended_events (S n) (fst (onended e))),
            snd (onended e) :: snd (ended_events (S n) (fst (onended e)))).
    cbn [fst snd]. rewrite H1, H2, H3.
    split; [|split; reflexivity].
    cbn [repeat app]. f_equal.
    cbn [onended snd]. rewrite Hp.
    replace (Z.of_nat (S (S n)) - 1 =? 0)%Z with false
      by (symmetry; apply Z.eqb_neq; lia).
    reflexivity.
Qed.

(** X1. Drain fires once: with a drained callback registered, after the
    chunks of a round have been scheduled and each scheduled source has
    ended, the callback has run exactly once, in the handler of the last
    source, and the engine is no longer active. *)
Theorem drained_fires_once :
  forall (e0 : t) (chunks : list (Q * list byte)),
    started e0 = false -> scheduled e0 = [] -> pendingSources e0 = 0%Z ->
    drainedCallback e0 = true ->
    let e := enqueue_all chunks e0 in
    let n := List.length (scheduled e) in
    scheduled e <> [] ->
    let r := ended_events n e in
    snd r = (repeat false (n - 1) ++ [true])%list /\
    count_occ Bool.bool_dec (snd r) true = 1%nat /\
    pendingSources (fst r) = 0%Z /\
    isActive (fst r) = false.
Proof.
  intros e0 chunks Hs Hnil Hp Hcb e n Hne r.
  assert (Hc0 : counted e0) by (unfold counted; rewrite Hnil; exact Hp).
  destruct (enqueue_all_counted chunks e0 Hc0) as [Hc Hd].
  fold e in Hc, Hd. unfold counted in Hc. fold n in Hc.
  destruct n as [|m] eqn:En.
  { exfalso. apply Hne. destruct (scheduled e); [reflexivity | discriminate]. }
  rewrite Hcb in Hd.
  destruct (ended_events_fire_last m e Hc Hd) as (H1 & H2 & H3).
  fold r in H1, H2, H3.
  replace (S m - 1)%nat with m by lia.
  rewrite H1. repeat split.
  - rewrite count_occ_app. cbn.
    assert (H0 : count_occ Bool.bool_dec (repeat false m) true = 0%nat).
    { apply count_occ_not_In. intro Hin. apply repeat_spec in Hin.
      discriminate. }
    rewrite H0. reflexivity.
  - exact H2.
  - unfold isActive. rewrite H2. apply andb_false_r.
Qed.

Lemma drained_fires_once_witness :
  let e0 := onDrained (init new_engine) in
  let chunks := [(0, [x00; x00]); (0, [x01; x00]); (0, [x02; x00]);
                 (1, [x03; x00])] in
  (started e0 = false /\ scheduled e0 = [] /\ pendingSources e0 = 0%Z /\
   drainedCallback e0 = true /\ scheduled (enqueue_all chunks e0) <> []) /\
  snd (ended_events 4 (enqueue_all chunks e0)) = [false; false; false; true].
Proof.
  intros e0 chunks.
  assert (Hs : started e0 = false) by reflexivity.
  assert (Hn : scheduled e0 = []) by reflexivity.
  assert (Hp : pendingSources e0 = 0%Z) by reflexivity.
  assert (Hc : drainedCallback e0 = true) by reflexivity.
  assert (Hne : scheduled (enqueue_all chunks e0) <> [])
    by (vm_compute; discriminate).
  split; [repeat split; assumption|].
  destruct (drained_fires_once e0 chunks Hs Hn Hp Hc Hne) as [H _].
  exact H.
Defined.

(** *** Arrival order *)

Lemma enqueue_holds_in_order now pcmData buf bufs e :
  holds_in_order bufs e ->
  pcmToAudioBuffer pcmData = Some buf ->
  holds_in_order (bufs ++ [buf]) (state_of (enqueue now pcmData e)).
Proof.
  intros (Hd & Hc & Ho & Hs) Hbuf.
  assert (G : destroyed e || negb (has_ctx e) = false)
    by (rewrite Hd, Hc; reflexivity).
  unfold enqueue. rewrite G, Hbuf.
  destruct (started e) eqn:S; cbn [negb state_of].
  - unfold holds_in_order.
    rewrite scheduleBuffer_has_ctx,
      (scheduleBuffer_scheduled now buf e Hc).
    assert (Hf : destroyed (scheduleBuffer now buf e) = false
                 /\ started (scheduleBuffer now buf e) = true
                 /\ bufferedChunks (scheduleBuffer now buf e) = []).
    { unfold scheduleBuffer. destruct (ctx e); repeat split; assumption. }
    destruct Hf as (H1 & H2 & H3). rewrite H1, H2, H3.
    repeat split; try assumption.
    rewrite Hs, app_nil_r in Ho. rewrite app_nil_r.
    cbn [rev]. rewrite map_app, Ho. reflexivity.
  - destruct Hs as [Hnil Hlen].
    rewrite Hnil in Ho. cbn [rev map app] in Ho.
    set (e1 := mkEngine (ctx e) (nextStartTime e) false
                        (bufferedChunks e ++ [buf])
                        (drainedCallback e) (pendingSources e) (destroyed e)).
    assert (Hd1 : destroyed e1 = false) by exact Hd.
    destruct (CHUNKS_BEFORE_START <=? List.length (bufferedChunks e1))%nat
      eqn:L; cbn [state_of].
    + destruct (startPlayback_batch now e1 Hc)
        as (H1 & H2 & H3 & H4 & fresh & Hf & Hm & _).
      unfold holds_in_order. rewrite H1, H2, H3, H4, Hd1, Hf.
      change (scheduled e1) with (scheduled e). rewrite Hnil, !app_nil_r, Hm.
      repeat split; try assumption.
      cbn [bufferedChunks e1]. rewrite Ho. reflexivity.
    + unfold holds_in_order. cbn [destroyed started bufferedChunks e1].
      change (has_ctx e1) with (has_ctx e).
      change (scheduled e1) with (scheduled e). rewrite Hnil.
      apply Nat.leb_gt in L. cbn [bufferedChunks e1] in L.
      cbn [rev map app]. rewrite Ho. rewrite Ho in L.
      repeat split; assumption.
Qed.

Lemma enqueue_all_holds_in_order chunks news :
  decode_to chunks news ->
  forall bufs e,
    holds_in_order bufs e ->
    holds_in_order (bufs ++ news) (enqueue_all chunks e).
Proof.
  induction 1 as [|c buf chunks news Hbuf Hdec IH]; intros bufs e H;
    cbn [enqueue_all fold_left].
  - rewrite app_nil_r. exact H.
  - pose proof (enqueue_holds_in_order (fst c) (snd c) buf bufs e H Hbuf)
      as H1.
    pose proof (IH _ _ H1) as H2.
    rewrite <- app_assoc in H2. exact H2.
Qed.

Lemma whole_samples_decode_all (chunks : list (Q * list byte)) :
  Forall (fun c => whole_samples (snd c)) chunks ->
  exists bufs, decode_to chunks bufs.
Proof.
  induction 1 as [|c chunks Hc _ IH].
  - exists []. constructor.
  - destruct IH as [bufs IH].
    destruct (whole_samples_decode (snd c) Hc) as (buf & E & _).
    exists (buf :: bufs). constructor; assumption.
Qed.

(** X3. Arrival order: when every chunk received after [init] carries
    whole samples, each of them is decoded and kept, and the buffers
    handed to the audio context, followed by those still in pre-roll, are
    the decoded chunks in arrival order: none is dropped, repeated or
    reordered.  Fewer than three chunks are all in pre-roll; from three
    on the pre-roll queue is empty. *)
Theorem chunks_played_in_arrival_order :
  forall chunks : list (Q * list byte),
    Forall (fun c => whole_samples (snd c)) chunks ->
    let e := enqueue_all chunks (init new_engine) in
    exists bufs,
      decode_to chunks bufs /\
      (map buffer (rev (scheduled e)) ++ bufferedChunks e = bufs)%list /\
      (if (List.length chunks <? CHUNKS_BEFORE_START)%nat
       then scheduled e = [] /\ bufferedChunks e = bufs
       else bufferedChunks e = [] /\ map buffer (rev (scheduled e)) = bufs).
Proof.
  intros chunks Hw e.
  destruct (whole_samples_decode_all chunks Hw) as [bufs Hdec].
  assert (H0 : holds_in_order [] (init new_engine)).
  { unfold holds_in_order. cbn. repeat split. unfold CHUNKS_BEFORE_START. lia. }
  pose proof (enqueue_all_holds_in_order chunks bufs Hdec [] _ H0) as H.
  fold e in H. cbn [app] in H.
  destruct H as (_ & _ & Ho & Hs).
  assert (Hlen : List.length bufs = List.length chunks).
  { clear -Hdec. induction Hdec; cbn; congruence. }
  exists bufs. split; [exact Hdec|]. split; [exact Ho|].
  assert (Hl : (List.length (map buffer (rev (scheduled e)))
                + List.length (bufferedChunks e) = List.length chunks)%nat)
    by (rewrite <- Hlen, <- Ho, length_app; reflexivity).
  destruct (started e) eqn:S.
  - rewrite Hs in Ho, Hl. rewrite app_nil_r in Ho.
    destruct (List.length chunks <? CHUNKS_BEFORE_START)%nat eqn:L.
    + exfalso. apply Nat.ltb_lt in L.
      assert (Hpre : in_preroll [] (init new_engine)) by (repeat split).
      destruct (enqueue_all_in_preroll chunks bufs Hdec []
                                       (init new_engine) Hpre L)
        as [(Hst & _) _].
      fold e in Hst. congruence.
    + split; assumption.
  - destruct Hs as [Hnil Hb]. rewrite Hnil in Ho, Hl.
    cbn [rev map app List.length] in Ho, Hl.
    replace (List.length chunks <? CHUNKS_BEFORE_START)%nat with true
      by (symmetry; apply Nat.ltb_lt; lia).
    split; assumption.
Qed.

Lemma chunks_played_in_arrival_order_witness :
  let chunks := [(0, [x10; x00]); (0, [x20; x00]); (1, [x30; x00]);
                 (2, [x40; x00])] in
  Forall (fun c => whole_samples (snd c)) chunks /\
  map buffer (rev (scheduled (enqueue_all chunks (init new_engine))))
  = [mkAudioBuffer [16 / 32768]; mkAudioBuffer [32 / 32768];
     mkAudioBuffer [48 / 32768]; mkAudioBuffer [64 / 32768]].
Proof.
  intro chunks.
  assert (Hw : Forall (fun c => whole_samples (snd c)) chunks)
    by (repeat constructor; discriminate).
  split; [exact Hw|].
  destruct (chunks_played_in_arrival_order chunks Hw) as (bufs & Hd & _ & H).
  cbn [List.length Nat.ltb Nat.leb chunks CHUNKS_BEFORE_START] in H.
  destruct H as [_ H]. rewrite H.
  inversion Hd as [|c1 b1 l1 r1 E1 Hd1]; subst.
  inversion Hd1 as [|c2 b2 l2 r2 E2 Hd2]; subst.
  inversion Hd2 as [|c3 b3 l3 r3 E3 Hd3]; subst.
  inversion Hd3 as [|c4 b4 l4 r4 E4 Hd4]; subst.
  inversion Hd4; subst.
  change (Some (mkAudioBuffer [16 / 32768]) = Some b1) in E1.
  change (Some (mkAudioBuffer [32 / 32768]) = Some b2) in E2.
  change (Some (mkAudioBuffer [48 / 32768]) = Some b3) in E3.
  change (Some (mkAudioBuffer [64 / 32768]) = Some b4) in E4.
  congruence.
Defined.

(** *** No overlap *)

Lemma gapless_non_overlapping (log : list ScheduledSource) :
  gapless log -> non_overlapping log.
Proof.
  induction log as [|s rest IH]; intro Hg; [exact I|].
  cbn [gapless] in Hg.
  destruct rest as [|prev rest'].
  - split; [constructor | exact I].
  - destruct Hg as [Hf Hg]. specialize (IH Hg).
    split; [|exact IH].
    assert (Hprev : startTime prev + duration (buffer prev) <= startTime s).
    { destruct Hf as [_ [E | [Hlt Ha]]].
      - rewrite E. apply Qle_refl.
      - unfold anchored in Ha. rewrite Ha. pose proof margin_pos. lra. }
    constructor; [exact Hprev|].
    destruct IH as [Hall _].
    eapply Forall_impl; [|exact Hall].
    intros p Hp. cbv beta in Hp.
    pose proof (duration_nonneg (buffer prev)). lra.
Qed.

(** X4. No overlap: in a playback round, however the chunks arrive, every
    scheduled source starts at or after the end of every source scheduled
    before it, so two chunks never sound at the same time. *)
Theorem scheduled_sources_never_overlap :
  forall (e0 : t) (chunks : list (Q * list byte)),
    started e0 = false -> scheduled e0 = [] ->
    non_overlapping (scheduled (enqueue_all chunks e0)).
Proof.
  intros e0 chunks Hs Hnil. apply gapless_non_overlapping.
  destruct (enqueue_all_round_state chunks e0) as [[_ H] | H].
  - left. split; assumption.
  - rewrite H. exact I.
  - destruct H as (_ & _ & s & l & Hl & Hg & _). rewrite Hl. exact Hg.
Qed.

Lemma scheduled_sources_never_overlap_witness :
  let e0 := init new_engine in
  let chunks := [(0, [x00; x00]); (0, [x01; x00]); (1 # 10, [x02; x00]);
                 (2 # 10, [x03; x00; x04; x00]); (7, [x05; x00])] in
  (started e0 = false /\ scheduled e0 = []) /\
  non_overlapping (scheduled (enqueue_all chunks e0)).
Proof.
  intros e0 chunks.
  split; [split; reflexivity|].
  apply (scheduled_sources_never_overlap e0 chunks); reflexivity.
Defined.

(** *** Teardown *)

Lemma step_torn_down e c :
  c <> Init -> torn_down e -> torn_down (step e c).
Proof.
  intros Hc (Hd & Hx & Hb & Hp).
  destruct c as [|now pcmData| | | |]; cbn [step].
  - congruence.
  - unfold enqueue. rewrite Hd. cbn [orb state_of]. repeat split; assumption.
  - unfold torn_down, clear. cbn. rewrite Hd, Hx. repeat split. lia.
  - unfold torn_down, destroy. cbn. repeat split. lia.
  - unfold torn_down, onDrained. cbn. repeat split; assumption.
  - unfold torn_down, onended. cbn. repeat split; try assumption. lia.
Qed.

Lemma run_torn_down calls : forall e,
  Forall (fun c => c <> Init) calls -> torn_down e -> torn_down (run calls e).
Proof.
  induction calls as [|c calls IH]; intros e Hc H; cbn [run fold_left].
  - exact H.
  - inversion Hc; subst. apply IH; [assumption|].
    apply step_torn_down; assumption.
Qed.

(** X5. [destroy] is terminal: after it, whatever the engine held, no
    sequence of [enqueue], [clear], [destroy], [onDrained] and [onended]
    brings it back: it has no context, schedules and buffers nothing,
    and is never active. *)
Theorem destroy_is_terminal :
  forall (e : t) (calls : list call),
    Forall (fun c => c <> Init) calls ->
    let e' := run calls (destroy e) in
    destroyed e' = true /\ has_ctx e' = false /\ scheduled e' = [] /\
    bufferedChunks e' = [] /\ isActive e' = false.
Proof.
  intros e calls Hc e'.
  assert (H0 : torn_down (destroy e))
    by (unfold torn_down, destroy; cbn; repeat split; lia).
  destruct (run_torn_down calls _ Hc H0) as (Hd & Hx & Hb & Hp).
  fold e' in Hd, Hx, Hb, Hp.
  unfold has_ctx, scheduled, isActive. rewrite Hx.
  repeat split; try assumption.
  replace (0 <? pendingSources e')%Z with false
    by (symmetry; apply Z.ltb_ge; exact Hp).
  apply andb_false_r.
Qed.

Lemma destroy_is_terminal_witness :
  let e := enqueue_all [(0, [x00; x00]); (0, [x01; x00]); (0, [x02; x00])]
                       (init new_engine) in
  let calls := [Enqueue 1 [x03; x00]; Clear; Enqueue 2 [x04; x00]; Ended] in
  Forall (fun c => c <> Init) calls /\
  scheduled (run calls (destroy e)) = [] /\
  isActive (run calls (destroy e)) = false.
Proof.
  intros e calls.
  assert (Hc : Forall (fun c => c <> Init) calls)
    by (repeat constructor; discriminate).
  split; [exact Hc|].
  destruct (destroy_is_terminal e calls Hc) as (_ & _ & Hs & _ & Ha).
  split; assumption.
Defined.

End PlaybackMore.

(** ** The two playback engines *)

Section Engines.

Lemma scheduleBuffer_flags now b (w : Web.t) :
  Web.started (Web.scheduleBuffer now b w) = Web.started w /\
  Web.bufferedChunks (Web.scheduleBuffer now b w) = Web.bufferedChunks w /\
  Web.destroyed (Web.scheduleBuffer now b w) = Web.destroyed w.
Proof.
  unfold Web.scheduleBuffer. destruct (Web.ctx w); repeat split.
Qed.

Lemma native_enqueueBuffers bufs : forall (n : Native.t) q,
  Native.queueSource n = Some q ->
  Native.enqueueBuffers bufs n
  = Returns
      (Native.mkEngine
         (Native.ctx n)
         (Some (Native.mkQueueSource (rev bufs ++ Native.queued q)
                                     (Native.startedAt q)))
         (Native.started n) (Native.bufferedChunks n)
         (Native.drainedCallback n) (Native.destroyed n)
         (Native.enqueuedCount n + Z.of_nat (List.length bufs))
         (Native.endedCount n)).
Proof.
  induction bufs as [|b bufs IH]; intros n q Hq.
  - cbn. rewrite Z.add_0_r. destruct n as [c qs s bc dc d en ed].
    cbn in *. subst qs. destruct q. reflexivity.
  - cbn [Native.enqueueBuffers]. unfold Native.enqueueBuffer. rewrite Hq.
    rewrite (IH _ (Native.mkQueueSource (b :: Native.queued q)
                                        (Native.startedAt q)))
      by reflexivity.
    cbn. rewrite <- app_assoc. cbn [app List.length].
    do 2 f_equal. lia.
Qed.

Lemma web_batch bufs now : forall (w : Web.t),
  Web.has_ctx w = true ->
  let w' := fold_left (fun acc buf => Web.scheduleBuffer now buf acc) bufs w in
  Web.has_ctx w' = true /\
  Web.started w' = Web.started w /\
  Web.destroyed w' = Web.destroyed w /\
  Web.drainedCallback w' = Web.drainedCallback w /\
  map Web.buffer (Web.scheduled w')
  = (rev bufs ++ map Web.buffer (Web.scheduled w))%list /\
  Web.pendingSources w'
  = (Web.pendingSources w + Z.of_nat (List.length bufs))%Z.
Proof.
  intros w Hc.
  destruct (schedule_batch now bufs w Hc)
    as (H1 & H2 & _ & H4 & fresh & Hf & _ & Hm & _).
  destruct (schedule_batch_pending now bufs w Hc) as [Hp Hcb].
  cbv zeta in *. repeat split; try assumption.
  rewrite Hf, map_app. f_equal.
  rewrite <- Hm, map_rev, rev_involutive. reflexivity.
Qed.

Lemma web_startPlayback now (w : Web.t) :
  Web.has_ctx w = true ->
  let w' := Web.startPlayback now w in
  Web.has_ctx w' = true /\
  Web.started w' = true /\
  Web.bufferedChunks w' = [] /\
  Web.destroyed w' = Web.destroyed w /\
  Web.drainedCallback w' = Web.drainedCallback w /\
  map Web.buffer (Web.scheduled w')
  = (rev (Web.bufferedChunks w) ++ map Web.buffer (Web.scheduled w))%list /\
  Web.pendingSources w'
  = (Web.pendingSources w + Z.of_nat (List.length (Web.bufferedChunks w)))%Z.
Proof.
  intro Hc. unfold Web.startPlayback.
  unfold Web.has_ctx in Hc. destruct (Web.ctx w) as [c|] eqn:E; [|discriminate].
  set (w1 := Web.mkEngine (Some c) (now + SAFETY_MARGIN) true
                          (Web.bufferedChunks w) (Web.drainedCallback w)
                          (Web.pendingSources w) (Web.destroyed w)).
  assert (Hc1 : Web.has_ctx w1 = true) by reflexivity.
  destruct (web_batch (Web.bufferedChunks w) now w1 Hc1)
    as (H1 & H2 & H3 & H4 & H5 & H6).
  cbv zeta in *.
  assert (Hs : Web.scheduled w1 = Web.scheduled w)
    by (unfold Web.scheduled; cbn; rewrite E; reflexivity).
  rewrite Hs in H5.
  repeat split; assumption.
Qed.

Lemma native_startPlayback now (n : Native.t) q :
  Native.queueSource n = Some q ->
  Native.startPlayback now n
  = Returns
      (Native.mkEngine
         (Native.ctx n)
         (Some (Native.mkQueueSource
                  (rev (Native.bufferedChunks n) ++ Native.queued q)
                  (Some now)))
         true [] (Native.drainedCallback n) (Native.destroyed n)
         (Native.enqueuedCount n
          + Z.of_nat (List.length (Native.bufferedChunks n)))
         (Native.endedCount n)).
Proof.
  intro Hq. unfold Native.startPlayback.
  rewrite (native_enqueueBuffers _ _ q) by exact Hq.
  reflexivity.
Qed.

Lemma enqueue_in_step now pcmData w n :
  in_step w n ->
  in_step (state_of (Web.enqueue now pcmData w))
          (state_of (Native.enqueue now pcmData n)) /\
  returned (Web.enqueue now pcmData w)
  = returned (Native.enqueue now pcmData n).
Proof.
  intros (Hs & Hb & Hcb & Hdw & Hdn & Hcw & Hcn & (q & Hq & Hqueue) & Hp).
  assert (Gw : Web.destroyed w || negb (Web.has_ctx w) = false)
    by (rewrite Hdw, Hcw; reflexivity).
  assert (Gn : Native.destroyed n || negb (Native.ctx n) = false)
    by (rewrite Hdn, Hcn; reflexivity).
  unfold Web.enqueue, Native.enqueue. rewrite Gw, Gn.
  destruct (pcmToAudioBuffer pcmData) as [buf|].
  2:{ split; [|reflexivity]. cbn [state_of].
      repeat split; try assumption. exists q. split; assumption. }
  rewrite <- Hs, <- Hb.
  destruct (Web.started w) eqn:S; cbn [negb].
  - unfold Native.enqueueBuffer. rewrite Hq. cbn [state_of returned].
    split; [|reflexivity].
    destruct (scheduleBuffer_flags now buf w) as (F1 & F2 & F3).
    destruct (scheduleBuffer_pending now buf w Hcw) as (F4 & F5).
    unfold in_step.
    rewrite F1, F2, F3, F4, F5, scheduleBuffer_has_ctx,
      (scheduleBuffer_scheduled now buf w Hcw).
    cbn. rewrite S. repeat split; try assumption.
    + eexists. split; [reflexivity|]. cbn. rewrite Hqueue. reflexivity.
    + rewrite Hp. lia.
  - set (w1 := Web.mkEngine (Web.ctx w) (Web.nextStartTime w) false
                            (Web.bufferedChunks w ++ [buf])
                            (Web.drainedCallback w) (Web.pendingSources w)
                            (Web.destroyed w)).
    set (n1 := Native.mkEngine (Native.ctx n) (Native.queueSource n)
                               false
                               (Web.bufferedChunks w ++ [buf])
                               (Native.drainedCallback n)
                               (Native.destroyed n)
                               (Native.enqueuedCount n)
                               (Native.endedCount n)).
    change (Web.bufferedChunks w1) with (Web.bufferedChunks w ++ [buf])%list.
    change (Native.bufferedChunks n1)
      with (Web.bufferedChunks w ++ [buf])%list.
    destruct (CHUNKS_BEFORE_START
              <=? List.length (Web.bufferedChunks w ++ [buf]))%nat.
    + assert (Hq1 : Native.queueSource n1 = Some q) by exact Hq.
      rewrite (native_startPlayback now n1 q Hq1).
      cbn [state_of returned]. split; [|reflexivity].
      assert (Hc1 : Web.has_ctx w1 = true) by exact Hcw.
      destruct (web_startPlayback now w1 Hc1)
        as (H1 & H2 & H3 & H4 & H5 & H6 & H7).
      cbv zeta in *. unfold in_step.
      rewrite H1, H2, H3, H4, H5, H6, H7. cbn.
      repeat split; try assumption.
      * eexists. split; [reflexivity|]. cbn.
        change (Web.scheduled w1) with (Web.scheduled w).
        rewrite Hqueue. reflexivity.
      * rewrite Hp. lia.
    + cbn [state_of returned]. split; [|reflexivity].
      unfold in_step. cbn.
      repeat split; try assumption. exists q. split; assumption.
Qed.

Lemma step_in_step (c : Web.call) w n :
  c <> Web.Destroy -> in_step w n ->
  in_step (Web.step w c) (NativeEvents.step n c).
Proof.
  intros Hc H.
  destruct c as [|now pcmData| | | |]; cbn [Web.step NativeEvents.step].
  - destruct H as (Hs & Hb & Hcb & Hdw & Hdn & Hcw & Hcn & _ & Hp).
    unfold in_step. cbn. repeat split; try assumption.
    eexists. split; reflexivity.
  - apply enqueue_in_step. exact H.
  - destruct H as (Hs & Hb & Hcb & Hdw & Hdn & Hcw & Hcn & _ & Hp).
    unfold in_step, Web.clear, Native.clear, Web.has_ctx, Web.scheduled.
    cbn. rewrite Hdw, Hdn, Hcn. cbn. repeat split; try assumption.
    eexists. split; reflexivity.
  - congruence.
  - destruct H as (Hs & Hb & Hcb & Hdw & Hdn & Hcw & Hcn & Hq & Hp).
    unfold in_step. cbn. repeat split; assumption.
  - destruct H as (Hs & Hb & Hcb & Hdw & Hdn & Hcw & Hcn & Hq & Hp).
    unfold in_step. cbn. repeat split; try assumption.
    rewrite Hp. lia.
Qed.

Lemma run_in_step calls : forall w n,
  Forall (fun c => c <> Web.Destroy) calls -> in_step w n ->
  in_step (Web.run calls w) (NativeEvents.run calls n).
Proof.
  induction calls as [|c calls IH]; intros w n Hc H;
    cbn [Web.run NativeEvents.run fold_left].
  - exact H.
  - inversion Hc; subst. apply IH; [assumption|].
    apply step_in_step; assumption.
Qed.

(** X8. The two engines are interchangeable: driven by the same calls
    after [init] (any calls but [destroy]), the native engine and the web
    engine agree on the started flag, the pre-roll queue and [isActive];
    the native queue received the buffers the web engine scheduled, in
    the same order; the next [enqueue] throws on one exactly when it
    throws on the other; and the next source to end fires the drained
    callback on one exactly when it does on the other. *)
Theorem native_engine_agrees_with_web :
  forall (calls : list Web.call) (now : Q) (pcmData : list byte),
    Forall (fun c => c <> Web.Destroy) calls ->
    let w := Web.run calls (Web.init Web.new_engine) in
    let n := NativeEvents.run calls (Native.init Native.new_engine) in
    Web.started w = Native.started n /\
    Web.bufferedChunks w = Native.bufferedChunks n /\
    Web.isActive w = Native.isActive n /\
    (exists q, Native.queueSource n = Some q /\
               Native.queued q = map Web.buffer (Web.scheduled w)) /\
    returned (Web.enqueue now pcmData w)
    = returned (Native.enqueue now pcmData n) /\
    snd (Web.onended w) = snd (Native.onEnded n).
Proof.
  intros calls now pcmData Hc w n.
  assert (H0 : in_step (Web.init Web.new_engine)
                       (Native.init Native.new_engine)).
  { unfold in_step. cbn. repeat split. eexists. split; reflexivity. }
  pose proof (run_in_step calls _ _ Hc H0) as H. fold w n in H.
  pose proof (enqueue_in_step now pcmData w n H) as [_ Hr].
  destruct H as (Hs & Hb & Hcb & _ & _ & _ & _ & Hq & Hp).
  repeat split; try assumption.
  - unfold Web.isActive, Native.isActive. rewrite Hs, Hp. f_equal.
    destruct (Z.ltb_spec 0 (Native.enqueuedCount n - Native.endedCount n));
      symmetry; [apply Z.ltb_lt | apply Z.ltb_ge]; lia.
  - cbn [Web.onended Native.onEnded snd]. rewrite Hcb, Hp. f_equal.
    destruct (Z.eqb_spec (Native.enqueuedCount n - Native.endedCount n - 1) 0);
      symmetry; [apply Z.eqb_eq | apply Z.eqb_neq]; lia.
Qed.

Lemma native_engine_agrees_with_web_witness :
  let calls := [Web.OnDrained; Web.Enqueue 0 [x10; x00];
                Web.Enqueue 0 [x20; x00]; Web.Enqueue 0 [x30; x00];
                Web.Ended; Web.Enqueue 1 [x40; x00]; Web.Ended] in
  Forall (fun c => c <> Web.Destroy) calls /\
  Web.isActive (Web.run calls (Web.init Web.new_engine))
  = Native.isActive (NativeEvents.run calls (Native.init Native.new_engine)).
Proof.
  intro calls.
  assert (Hc : Forall (fun c => c <> Web.Destroy) calls)
    by (repeat constructor; discriminate).
  split; [exact Hc|].
  destruct (native_engine_agrees_with_web calls 0 [] Hc) as (_ & _ & H & _).
  exact H.
Defined.

End Engines.

(** ** Frame encoder: streaming *)

Section EncoderMore.

Import PCMAudioProcessor EncoderEvents.

Lemma sendBuffer_conserves (p : t) :
  (match snd (sendBuffer p) with Some f => f | None => [] end
   ++ encode (buffer (fst (sendBuffer p))) = encode (buffer p))%list /\
  bufferSize (fst (sendBuffer p)) = bufferSize p.
Proof.
  unfold sendBuffer. destruct (buffer p) as [|x l] eqn:E; cbn [fst snd].
  - rewrite E. split; reflexivity.
  - cbn [buffer bufferSize encode map app]. rewrite app_nil_r.
    split; reflexivity.
Qed.

Lemma handle_conserves (p : t) (ev : event) :
  (match snd (handle p ev) with Some f => f | None => [] end
   ++ encode (buffer (fst (handle p ev)))
   = encode (buffer p ++ samples_of [ev]))%list /\
  bufferSize (fst (handle p ev)) = bufferSize p.
Proof.
  unfold samples_of. cbn [flat_map]. rewrite app_nil_r.
  destruct ev as [[samples|]|]; cbn [handle].
  - unfold process.
    set (p1 := mkProcessor (buffer p ++ samples) (bufferSize p)).
    destruct (bufferSize p1 <=? List.length (buffer p1))%nat.
    + exact (sendBuffer_conserves p1).
    + split; reflexivity.
  - rewrite app_nil_r. split; reflexivity.
  - rewrite app_nil_r. apply sendBuffer_conserves.
Qed.

(** X9. Nothing is lost in the encoder: after any sequence of render
    quanta and flush messages, the frames posted, put end to end and
    followed by the samples still accumulated, are the conversions of the
    samples received, in the order received.  After a final flush the
    accumulator is empty, so the frames alone carry every sample. *)
Theorem encoder_conserves_samples :
  forall (evs : list event) (p : t),
    let r := run evs p in
    (List.concat (snd r) ++ encode (buffer (fst r))
     = encode (buffer p ++ samples_of evs))%list /\
    buffer (fst (run (evs ++ [Flush]) p)) = [] /\
    List.concat (snd (run (evs ++ [Flush]) p))
    = encode (buffer p ++ samples_of evs).
Proof.
  assert (H : forall evs p,
             (List.concat (snd (run evs p)) ++ encode (buffer (fst (run evs p)))
              = encode (buffer p ++ samples_of evs))%list).
  { induction evs as [|ev evs IH]; intro p.
    - cbn. rewrite app_nil_r. reflexivity.
    - cbn [run fst snd].
      destruct (handle_conserves p ev) as [Hc _].
      specialize (IH (fst (handle p ev))).
      assert (Hs : samples_of (ev :: evs)
                   = (samples_of [ev] ++ samples_of evs)%list)
        by (unfold samples_of; cbn [flat_map]; rewrite app_nil_r;
            reflexivity).
      rewrite Hs, app_assoc. unfold encode at 2. rewrite map_app.
      fold (encode (buffer p ++ samples_of [ev])).
      fold (encode (samples_of evs)).
      rewrite <- Hc.
      unfold encode at 2 in IH. rewrite map_app in IH.
      fold (encode (buffer (fst (handle p ev)))) in IH.
      fold (encode (samples_of evs)) in IH.
      destruct (snd (handle p ev)) as [f|]; cbn [List.concat app].
      + rewrite <- !app_assoc. f_equal. exact IH.
      + exact IH. }
  assert (Hf : forall evs p, buffer (fst (run (evs ++ [Flush]) p)) = []).
  { induction evs as [|ev evs IH]; intro q.
    - cbn. unfold sendBuffer. destruct (buffer q) eqn:E; cbn; [exact E|].
      reflexivity.
    - cbn [app run fst]. apply IH. }
  intros evs p r. split; [apply H|].
  split; [apply Hf|].
  pose proof (H (evs ++ [Flush])%list p) as H1.
  rewrite Hf in H1. cbn [encode map] in H1. rewrite app_nil_r in H1.
  rewrite H1. unfold samples_of. rewrite flat_map_app. cbn [flat_map].
  rewrite !app_nil_r. reflexivity.
Qed.

Lemma handle_bounded (p : t) (ev : event) :
  (List.length (buffer p) < bufferSize p)%nat ->
  bufferSize (fst (handle p ev)) = bufferSize p /\
  (List.length (buffer (fst (handle p ev))) < bufferSize p)%nat /\
  (forall f, snd (handle p ev) = Some f ->
             f <> [] /\ (ev <> Flush -> (bufferSize p <= List.length f)%nat)).
Proof.
  intro Hb.
  assert (Hsend : forall q,
             bufferSize q = bufferSize p ->
             bufferSize (fst (sendBuffer q)) = bufferSize p /\
             (List.length (buffer (fst (sendBuffer q))) < bufferSize p)%nat /\
             (forall f, snd (sendBuffer q) = Some f ->
                        f <> [] /\ List.length f = List.length (buffer q))).
  { intros q Hq. unfold sendBuffer.
    destruct (buffer q) as [|x l] eqn:E; cbn [fst snd].
    - rewrite E. cbn [List.length]. repeat split; try assumption; try lia;
        discriminate.
    - cbn [buffer bufferSize List.length]. repeat split; try assumption;
        try lia.
      + injection H as <-. discriminate.
      + injection H as <-. cbn [List.length]. rewrite length_map.
        reflexivity. }
  destruct ev as [[samples|]|]; cbn [handle].
  - unfold process.
    set (p1 := mkProcessor (buffer p ++ samples) (bufferSize p)).
    destruct (bufferSize p1 <=? List.length (buffer p1))%nat eqn:L.
    + destruct (Hsend p1 eq_refl) as (H1 & H2 & H3).
      repeat split; try assumption.
      * apply (H3 f H).
      * intros _. destruct (H3 f H) as [_ Hl]. rewrite Hl.
        apply Nat.leb_le in L. exact L.
    + apply Nat.leb_gt in L. cbn [fst snd].
      repeat split; try assumption; discriminate.
  - cbn [fst snd]. repeat split; try assumption; discriminate.
  - destruct (Hsend p eq_refl) as (H1 & H2 & H3).
    repeat split; try assumption.
    + apply (H3 f H).
    + congruence.
Qed.

(** X10. The accumulator is bounded: started below its frame size, it is
    below the frame size again after every render quantum and every
    flush; no empty frame is ever posted; and a frame posted by a render
    quantum (not by a flush) holds at least a full frame of samples. *)
Theorem encoder_accumulator_bounded :
  forall (evs : list event) (p : t),
    (List.length (buffer p) < bufferSize p)%nat ->
    let r := run evs p in
    (List.length (buffer (fst r)) < bufferSize p)%nat /\
    Forall (fun f => f <> []) (snd r) /\
    (Forall (fun ev => ev <> Flush) evs ->
     Forall (fun f => (bufferSize p <= List.length f)%nat) (snd r)).
Proof.
  induction evs as [|ev evs IH]; intros p Hb r.
  - cbn. repeat split; try assumption; constructor.
  - destruct (handle_bounded p ev Hb) as (H1 & H2 & H3).
    rewrite <- H1 in H2.
    destruct (IH (fst (handle p ev)) H2) as (I1 & I2 & I3).
    rewrite H1 in I1, I3.
    unfold r. cbn [run fst snd].
    split; [exact I1|]. split.
    + destruct (snd (handle p ev)) as [f|]; [|exact I2].
      constructor; [apply (H3 f eq_refl) | exact I2].
    + intro Hnf. inversion Hnf as [|? ? Hev Hrest]; subst.
      destruct (snd (handle p ev)) as [f|]; [|exact (I3 Hrest)].
      constructor; [apply (H3 f eq_refl); exact Hev | exact (I3 Hrest)].
Qed.

Lemma encoder_accumulator_bounded_witness :
  let p := mkProcessor [] 4 in
  let evs := [Render (Some [1 # 2; -1 # 2; 2]); Render None;
              Render (Some [0; 1 # 4]); Render (Some [1])] in
  ((List.length (buffer p) < bufferSize p)%nat /\
   Forall (fun ev => ev <> Flush) evs) /\
  Forall (fun f => (bufferSize p <= List.length f)%nat) (snd (run evs p)) /\
  snd (run evs p) = [[16383; -16384; 32767; 0; 8191]%Z].
Proof.
  intros p evs.
  assert (Hb : (List.length (buffer p) < bufferSize p)%nat) by (cbn; lia).
  assert (Hf : Forall (fun ev => ev <> Flush) evs)
    by (repeat constructor; discriminate).
  split; [split; assumption|].
  destruct (encoder_accumulator_bounded evs p Hb) as (_ & _ & H).
  split; [exact (H Hf) | reflexivity].
Defined.

(** *** Order and precision of the conversion *)

Lemma Qtruncate_nonneg (x : Q) : 0 <= x -> Qtruncate x = Qfloor x.
Proof.
  destruct x as [n d]. unfold Qle, Qtruncate, Qfloor. cbn.
  intro H. apply Z.quot_div_nonneg; lia.
Qed.

Lemma Qtruncate_nonpos (x : Q) : x <= 0 -> Qtruncate x = (- Qfloor (- x))%Z.
Proof.
  destruct x as [n d]. unfold Qle, Qtruncate, Qfloor, Qopp. cbn.
  intro H.
  rewrite <- (Z.opp_involutive n) at 1.
  rewrite Z.quot_opp_l by discriminate.
  f_equal. apply Z.quot_div_nonneg; lia.
Qed.

Lemma Qtruncate_le (x y : Q) : x <= y -> (Qtruncate x <= Qtruncate y)%Z.
Proof.
  intro H.
  destruct (Qlt_le_dec x 0) as [Hx | Hx];
    destruct (Qlt_le_dec y 0) as [Hy | Hy].
  - rewrite (Qtruncate_nonpos x), (Qtruncate_nonpos y) by lra.
    assert (Hf : (Qfloor (- y) <= Qfloor (- x))%Z)
      by (apply Qfloor_resp_le; lra).
    lia.
  - rewrite (Qtruncate_nonpos x), (Qtruncate_nonneg y) by lra.
    assert (H1 : (0 <= Qfloor (- x))%Z)
      by (change 0%Z with (Qfloor 0); apply Qfloor_resp_le; lra).
    assert (H2 : (0 <= Qfloor y)%Z)
      by (change 0%Z with (Qfloor 0); apply Qfloor_resp_le; lra).
    lia.
  - exfalso. lra.
  - rewrite (Qtruncate_nonneg x), (Qtruncate_nonneg y) by lra.
    apply Qfloor_resp_le. exact H.
Qed.

Lemma clamp_le (x y : Q) :
  x <= y -> Qmax (-1) (Qmin 1 x) <= Qmax (-1) (Qmin 1 y).
Proof.
  intro H. apply Q.max_le_compat_l. apply Q.min_le_compat_l. exact H.
Qed.

Lemma floatTo16BitPCM_le (x y : Q) :
  x <= y -> floatTo16BitPCM x <= floatTo16BitPCM y.
Proof.
  intro H. pose proof (clamp_le x y H) as Hc.
  unfold floatTo16BitPCM.
  set (s := Qmax (-1) (Qmin 1 x)) in *.
  set (s' := Qmax (-1) (Qmin 1 y)) in *.
  destruct (Qlt_bool s 0) eqn:E; destruct (Qlt_bool s' 0) eqn:E';
    [apply Qlt_bool_true in E | apply Qlt_bool_true in E
     | apply Qlt_bool_false in E | apply Qlt_bool_false in E];
    [apply Qlt_bool_true in E' | apply Qlt_bool_false in E'
     | apply Qlt_bool_true in E' | apply Qlt_bool_false in E'];
    lra.
Qed.

(** X11. The conversion preserves order and sign: a larger float sample
    never gives a smaller PCM value, as a number and once stored, and the
    stored value is negative, zero or positive with the clamped float's
    scaled value (silence stays silence). *)
Theorem encoder_preserves_order :
  forall x y : Q,
    x <= y ->
    floatTo16BitPCM x <= floatTo16BitPCM y /\
    (Int16_store (floatTo16BitPCM x) <= Int16_store (floatTo16BitPCM y))%Z /\
    Int16_store (floatTo16BitPCM 0) = 0%Z /\
    (0 <= x -> (0 <= Int16_store (floatTo16BitPCM x))%Z) /\
    (y <= 0 -> (Int16_store (floatTo16BitPCM y) <= 0)%Z).
Proof.
  intros x y H.
  assert (Hstore : forall z, Int16_store (floatTo16BitPCM z)
                             = Qtruncate (floatTo16BitPCM z)).
  { intro z. unfold Int16_store. apply wrap_int16_small.
    pose proof (floatTo16BitPCM_range z) as Hr.
    apply Qtruncate_bounds; [apply (proj1 Hr) | apply (proj2 Hr)]. }
  assert (H0 : Qtruncate (floatTo16BitPCM 0) = 0%Z) by reflexivity.
  split; [apply floatTo16BitPCM_le; exact H|].
  rewrite !Hstore. split; [|split; [exact H0|split]].
  - apply Qtruncate_le. apply floatTo16BitPCM_le. exact H.
  - intro Hx. rewrite <- H0. apply Qtruncate_le.
    apply floatTo16BitPCM_le. exact Hx.
  - intro Hy. rewrite <- H0. apply Qtruncate_le.
    apply floatTo16BitPCM_le. exact Hy.
Qed.

Lemma encoder_preserves_order_witness :
  (-3 # 10) <= (1 # 7) /\
  (Int16_store (floatTo16BitPCM (-3 # 10))
   <= Int16_store (floatTo16BitPCM (1 # 7)))%Z.
Proof.
  assert (H : (-3 # 10) <= (1 # 7)) by (vm_compute; discriminate).
  split; [exact H|].
  exact (proj1 (proj2 (encoder_preserves_order _ _ H))).
Defined.

(** X12. Encoding then decoding: for a float sample in [-1, 1], the
    stored PCM value divided by 32768 (the playback conversion) is within
    1/16384 below and 1/32768 above the sample. *)
Theorem encode_decode_error :
  forall x : Q,
    -1 <= x -> x <= 1 ->
    let decoded := inject_Z (Int16_store (floatTo16BitPCM x)) / inject_Z 32768 in
    x - (1 # 16384) < decoded /\ decoded < x + (1 # 32768).
Proof.
  intros x Hlo Hhi decoded.
  assert (Hstore : Int16_store (floatTo16BitPCM x)
                   = Qtruncate (floatTo16BitPCM x)).
  { unfold Int16_store. apply wrap_int16_small.
    pose proof (floatTo16BitPCM_range x) as Hr.
    apply Qtruncate_bounds; [apply (proj1 Hr) | apply (proj2 Hr)]. }
  pose proof (clamp_spec x) as Hc. cbv zeta in Hc.
  assert (Hs : Qmax (-1) (Qmin 1 x) == x)
    by (destruct Hc as [[? E] | [[? E] | [? E]]]; lra).
  unfold decoded. rewrite Hstore. clear decoded Hstore Hc.
  change (inject_Z 32768) with 32768.
  unfold floatTo16BitPCM.
  set (s := Qmax (-1) (Qmin 1 x)) in *.
  destruct (Qlt_bool s 0) eqn:E.
  - apply Qlt_bool_true in E.
    rewrite Qtruncate_nonpos by lra.
    pose proof (Qfloor_le (- (s * 32768))) as H1.
    pose proof (Qlt_floor (- (s * 32768))) as H2.
    rewrite inject_Z_plus in H2. change (inject_Z 1) with 1 in H2.
    rewrite inject_Z_opp.
    set (f := inject_Z (Qfloor (- (s * 32768)))) in *.
    split.
    + apply Qlt_shift_div_l; [reflexivity|]. lra.
    + apply Qlt_shift_div_r; [reflexivity|]. lra.
  - apply Qlt_bool_false in E.
    rewrite Qtruncate_nonneg by lra.
    pose proof (Qfloor_le (s * 32767)) as H1.
    pose proof (Qlt_floor (s * 32767)) as H2.
    rewrite inject_Z_plus in H2. change (inject_Z 1) with 1 in H2.
    set (f := inject_Z (Qfloor (s * 32767))) in *.
    split.
    + apply Qlt_shift_div_l; [reflexivity|]. lra.
    + apply Qlt_shift_div_r; [reflexivity|]. lra.
Qed.

Lemma encode_decode_error_witness :
  (-1 <= (1 # 3) /\ (1 # 3) <= 1) /\
  (1 # 3) - (1 # 16384)
  < inject_Z (Int16_store (floatTo16BitPCM (1 # 3))) / inject_Z 32768.
Proof.
  assert (H1 : -1 <= (1 # 3)) by (vm_compute; discriminate).
  assert (H2 : (1 # 3) <= 1) by (vm_compute; discriminate).
  split; [split; assumption|].
  exact (proj1 (encode_decode_error _ H1 H2)).
Defined.

End EncoderMore.

(** ** Resampler: decimation, constants and lengths *)

Section ResamplerMore.

Import WebAudioRecorder.

Lemma Math_round_integer (a : Z) (v : Q) :
  v == inject_Z a -> Math_round v = a.
Proof.
  intro E. destruct (Math_round_nearest v) as [H1 H2].
  assert (Hlo : inject_Z (a - 1) < inject_Z (Math_round v)).
  { replace (a - 1)%Z with (a + -1)%Z by lia.
    rewrite inject_Z_plus. change (inject_Z (-1)) with (-1). lra. }
  assert (Hhi : inject_Z (Math_round v) < inject_Z (a + 1)).
  { rewrite inject_Z_plus. change (inject_Z 1) with 1. lra. }
  rewrite <- Zlt_Qlt in Hlo, Hhi. lia.
Qed.

(** The output of [resample] when the rates differ. *)
Lemma resample_unequal (input : list Z) (src tgt : Q) :
  ~ src == tgt ->
  resample input src tgt
  = map (fun i => resample_at input (src / tgt) (Z.of_nat i))
        (seq 0 (Z.to_nat (Qfloor (inject_Z (Z.of_nat (List.length input))
                                  / (src / tgt))))).
Proof.
  intro Hne. unfold resample.
  destruct (Qeq_bool src tgt) eqn:E; [|reflexivity].
  exfalso. apply Hne. apply Qeq_bool_iff. exact E.
Qed.

Lemma nth_resample (input : list Z) (src tgt : Q) (i : nat) :
  ~ src == tgt ->
  (i < List.length (resample input src tgt))%nat ->
  nth i (resample input src tgt) 0%Z
  = resample_at input (src / tgt) (Z.of_nat i) /\
  (i < Z.to_nat (Qfloor (inject_Z (Z.of_nat (List.length input))
                         / (src / tgt))))%nat.
Proof.
  intros Hne Hi. rewrite (resample_unequal input src tgt Hne) in Hi |- *.
  rewrite length_map, length_seq in Hi. split; [|exact Hi].
  rewrite (nth_indep _ 0%Z (resample_at input (src / tgt) (Z.of_nat 0)))
    by (rewrite length_map, length_seq; exact Hi).
  rewrite (map_nth (fun k => resample_at input (src / tgt) (Z.of_nat k))).
  rewrite seq_nth by exact Hi. reflexivity.
Qed.

(** X13. Decimation: when the source rate is [k] times the target rate,
    [k >= 2], the output keeps every [k]-th input sample unchanged and
    drops the others: it has [length / k] samples and sample [i] is input
    sample [i * k]. *)
Theorem resample_integer_ratio_decimates :
  forall (input : list Z) (R : Q) (k i : nat),
    Forall is_int16 input -> 0 < R -> (2 <= k)%nat ->
    let output := resample input (inject_Z (Z.of_nat k) * R) R in
    List.length output = (List.length input / k)%nat /\
    ((i < List.length output)%nat ->
     nth i output 0%Z = nth (i * k) input 0%Z).
Proof.
  intros input R k i Hin HR Hk output.
  set (K := inject_Z (Z.of_nat k)) in *.
  assert (HK : 2 <= K)
    by (unfold K; change 2 with (inject_Z 2); rewrite <- Zle_Qle; lia).
  assert (Hne : ~ K * R == R).
  { intro E. assert (H : 0 < (K - 1) * R) by (apply Qmult_lt_0_compat; lra).
    lra. }
  assert (Hratio : K * R / R == K) by (field; lra).
  assert (Hr : 0 < K * R / R) by (rewrite Hratio; lra).
  assert (Hlen : Qfloor (inject_Z (Z.of_nat (List.length input)) / (K * R / R))
                 = (Z.of_nat (List.length input) / Z.of_nat k)%Z).
  { rewrite Zdiv_Qdiv. apply Qfloor_comp. fold K. rewrite Hratio.
    reflexivity. }
  assert (Hout : List.length output = (List.length input / k)%nat).
  { unfold output. rewrite (resample_unequal input _ R Hne).
    rewrite length_map, length_seq. fold K. rewrite Hlen.
    rewrite <- Nat2Z.inj_div. apply Nat2Z.id. }
  split; [exact Hout|].
  intro Hi.
  destruct (nth_resample input (K * R) R i Hne Hi) as [Hnth Hrange].
  fold output in Hnth. rewrite Hnth.
  destruct (resample_at_spec input (K * R / R) i Hin Hr Hrange) as [Hat _].
  rewrite Hat. apply Math_round_integer.
  unfold interpolate.
  set (pos := inject_Z (Z.of_nat i) * (K * R / R)).
  assert (Hpos : pos == inject_Z (Z.of_nat (i * k))).
  { unfold pos. rewrite Hratio. unfold K. rewrite <- inject_Z_mult.
    rewrite Nat2Z.inj_mul. reflexivity. }
  assert (Hlo : Qfloor pos = Z.of_nat (i * k)).
  { rewrite (Qfloor_comp _ _ Hpos). apply Qfloor_Z. }
  rewrite Hlo, Nat2Z.id.
  assert (Ht : pos - inject_Z (Z.of_nat (i * k)) == 0) by lra.
  rewrite Ht. ring.
Qed.

Lemma resample_integer_ratio_decimates_witness :
  let input := [10; 20; 30; 40; 50; 60; 70]%Z in
  (Forall is_int16 input /\ 0 < 16000 /\ (2 <= 3)%nat /\
   (1 < List.length (resample input (inject_Z (Z.of_nat 3) * 16000) 16000))%nat)
  /\ nth 1 (resample input (inject_Z (Z.of_nat 3) * 16000) 16000) 0%Z = 40%Z.
Proof.
  intro input.
  assert (Hin : Forall is_int16 input)
    by (repeat constructor; discriminate).
  assert (HR : 0 < 16000) by reflexivity.
  assert (Hk : (2 <= 3)%nat) by lia.
  assert (Hi : (1 < List.length
                      (resample input (inject_Z (Z.of_nat 3) * 16000) 16000))%nat)
    by (vm_compute; lia).
  split; [repeat split; assumption|].
  destruct (resample_integer_ratio_decimates input 16000 3 1 Hin HR Hk)
    as [_ H].
  exact (H Hi).
Defined.

Lemma nth_constant (input : list Z) (c : Z) (k : nat) :
  Forall (eq c) input -> (k < List.length input)%nat -> nth k input 0%Z = c.
Proof.
  intros H Hk. rewrite Forall_forall in H. symmetry. apply H.
  apply nth_In. exact Hk.
Qed.

(** X14. A constant signal stays constant: if every input sample is the
    16-bit value [c], every output sample is [c], for any positive rates
    (no level shift and no rounding drift between samples). *)
Theorem resample_preserves_constant :
  forall (input : list Z) (c : Z) (src tgt : Q),
    is_int16 c -> Forall (eq c) input -> 0 < src -> 0 < tgt ->
    Forall (eq c) (resample input src tgt).
Proof.
  intros input c src tgt Hc Hin Hs Ht.
  destruct (Qeq_dec src tgt) as [E | Hne].
  { unfold resample. rewrite (proj2 (Qeq_bool_iff src tgt) E). exact Hin. }
  assert (H16 : Forall is_int16 input)
    by (eapply Forall_impl; [|exact Hin]; intros z <-; exact Hc).
  pose proof (ratio_pos src tgt Hs Ht) as Hr.
  rewrite (resample_unequal input src tgt Hne).
  apply Forall_map. apply Forall_forall. intros i Hi.
  apply in_seq in Hi. destruct Hi as [_ Hi]. cbn [Nat.add] in Hi.
  destruct (resample_at_spec input (src / tgt) i H16 Hr Hi) as [Hat _].
  rewrite Hat. symmetry. apply Math_round_integer.
  pose proof (source_index_range _ i (src / tgt) Hr Hi) as Hlo.
  unfold interpolate.
  set (pos := inject_Z (Z.of_nat i) * (src / tgt)) in *.
  set (lo := Qfloor pos) in *.
  rewrite (nth_constant input c (Z.to_nat lo) Hin) by lia.
  rewrite (nth_constant input c
             (Z.to_nat (Z.min (lo + 1) (Z.of_nat (List.length input) - 1)))
             Hin) by lia.
  ring.
Qed.

Lemma resample_preserves_constant_witness :
  (is_int16 (-7) /\ Forall (eq (-7)%Z) [-7; -7; -7; -7; -7]%Z /\
   0 < 44100 /\ 0 < 16000) /\
  Forall (eq (-7)%Z) (resample [-7; -7; -7; -7; -7]%Z 44100 16000).
Proof.
  assert (Hc : is_int16 (-7)) by (unfold is_int16; lia).
  assert (Hin : Forall (eq (-7)%Z) [-7; -7; -7; -7; -7]%Z)
    by (repeat constructor).
  assert (Hs : 0 < 44100) by reflexivity.
  assert (Ht : 0 < 16000) by reflexivity.
  split; [split; [exact Hc | split; [exact Hin | split; assumption]]|].
  exact (resample_preserves_constant _ _ _ _ Hc Hin Hs Ht).
Defined.

(** X15. Output length: downsampling (source rate at least the target
    rate) never yields more samples than it was given, and upsampling
    never fewer; an empty buffer stays empty. *)
Theorem resample_length_bounds :
  forall (input : list Z) (src tgt : Q),
    0 < src -> 0 < tgt ->
    (tgt <= src ->
     (List.length (resample input src tgt) <= List.length input)%nat) /\
    (src <= tgt ->
     (List.length input <= List.length (resample input src tgt))%nat) /\
    resample [] src tgt = [].
Proof.
  intros input src tgt Hs Ht.
  assert (Hlen : forall l,
             ~ src == tgt ->
             List.length (resample l src tgt)
             = Z.to_nat (Qfloor (inject_Z (Z.of_nat (List.length l))
                                 / (src / tgt)))).
  { intros l Hne. rewrite (resample_unequal l src tgt Hne).
    rewrite length_map, length_seq. reflexivity. }
  pose proof (ratio_pos src tgt Hs Ht) as Hr.
  set (L := inject_Z (Z.of_nat (List.length input))).
  assert (HL : 0 <= L)
    by (unfold L; change 0 with (inject_Z 0); rewrite <- Zle_Qle; lia).
  assert (Hmul : L / (src / tgt) * (src / tgt) == L) by (field; lra).
  assert (Hone : tgt * (src / tgt) == src) by (field; lra).
  assert (Hq0 : 0 <= L / (src / tgt))
    by (apply Qle_shift_div_l; [exact Hr | lra]).
  split; [|split].
  - intro Hle.
    destruct (Qeq_dec src tgt) as [E | Hne].
    { unfold resample. rewrite (proj2 (Qeq_bool_iff src tgt) E). lia. }
    rewrite (Hlen input Hne). fold L.
    assert (H1 : 1 <= src / tgt)
      by (apply Qle_shift_div_l; [exact Ht | lra]).
    assert (Hq : L / (src / tgt) <= L).
    { assert (H2 : 0 <= L / (src / tgt) * (src / tgt - 1))
        by (apply Qmult_le_0_compat; lra).
      lra. }
    apply Qfloor_resp_le in Hq. unfold L in Hq at 2.
    rewrite Qfloor_Z in Hq. lia.
  - intro Hle.
    destruct (Qeq_dec src tgt) as [E | Hne].
    { unfold resample. rewrite (proj2 (Qeq_bool_iff src tgt) E). lia. }
    rewrite (Hlen input Hne). fold L.
    assert (H1 : src / tgt <= 1)
      by (apply Qle_shift_div_r; [exact Ht | lra]).
    assert (Hq : L <= L / (src / tgt)).
    { assert (H2 : 0 <= L / (src / tgt) * (1 - src / tgt))
        by (apply Qmult_le_0_compat; lra).
      lra. }
    apply Qfloor_resp_le in Hq. unfold L in Hq at 1.
    rewrite Qfloor_Z in Hq. lia.
  - unfold resample. destruct (Qeq_bool src tgt); [reflexivity|].
    cbn [List.length Z.of_nat].
    assert (E : inject_Z 0 / (src / tgt) == 0) by (field; lra).
    rewrite (Qfloor_comp _ _ E). reflexivity.
Qed.

Lemma resample_length_bounds_witness :
  (0 < 48000 /\ 0 < 16000 /\ 16000 <= 48000) /\
  (List.length (resample [1; 2; 3; 4; 5; 6; 7]%Z 48000 16000) <= 7)%nat.
Proof.
  assert (Hs : 0 < 48000) by reflexivity.
  assert (Ht : 0 < 16000) by reflexivity.
  assert (Hle : 16000 <= 48000) by (vm_compute; discriminate).
  split; [repeat split; assumption|].
  exact (proj1 (resample_length_bounds [1; 2; 3; 4; 5; 6; 7]%Z _ _ Hs Ht) Hle).
Defined.

End ResamplerMore.

(** ** Recorder: buffering and lifecycle *)

Section RecorderMore.

Import WebAudioRecorder Recorder.

Lemma concat_snoc (A : Type) (l : list (list A)) (x : list A) :
  List.concat (l ++ [x]) = (List.concat l ++ x)%list.
Proof. rewrite concat_app. cbn. rewrite app_nil_r. reflexivity. Qed.

Lemma flushBuffer_pending (r : t) :
  resampledBuffer r <> [] -> onAudioChunk r = true ->
  flushBuffer r
  = (mkRecorder (audioContext r) (workletNode r) (sourceNode r)
                (mediaStream r) (isRecording r) (onAudioChunk r)
                [] 0 (calls r),
     Some (List.concat (resampledBuffer r))).
Proof.
  intros Hne Hcb. unfold flushBuffer.
  destruct (resampledBuffer r); [congruence|].
  rewrite Hcb. reflexivity.
Qed.

Lemma handleAudioData_step samples rate r :
  isRecording r = true -> onAudioChunk r = true -> pending_counted r ->
  let h := handleAudioData samples rate r in
  same_handles r (fst h) /\
  pending_counted (fst h) /\
  (List.concat (emitted (snd h)) ++ List.concat (resampledBuffer (fst h))
   = List.concat (resampledBuffer r)
     ++ resample samples rate TARGET_SAMPLE_RATE)%list /\
  Forall (fun chunk => (MIN_CHUNK_SAMPLES <= Z.of_nat (List.length chunk))%Z)
         (emitted (snd h)).
Proof.
  intros Hrec Hcb [Hcount Hlt]. unfold handleAudioData.
  rewrite Hrec, Hcb. cbn [negb orb].
  set (resampled := resample samples rate TARGET_SAMPLE_RATE).
  set (r1 := mkRecorder _ _ _ _ _ _ _ _ _).
  assert (Hc1 : totalSamples r1
                = Z.of_nat (List.length (List.concat (resampledBuffer r1)))).
  { cbn [r1 totalSamples resampledBuffer].
    rewrite concat_snoc, length_app, Hcount. lia. }
  assert (Hb1 : List.concat (resampledBuffer r1)
                = (List.concat (resampledBuffer r) ++ resampled)%list)
    by (cbn [r1 resampledBuffer]; apply concat_snoc).
  destruct (MIN_CHUNK_SAMPLES <=? totalSamples r1)%Z eqn:L.
  - apply Z.leb_le in L.
    rewrite (flushBuffer_pending r1);
      [|cbn [r1 resampledBuffer]; destruct (resampledBuffer r); discriminate
       |reflexivity].
    cbn [fst snd emitted].
    split; [|split; [|split]].
    + unfold same_handles. cbn. rewrite Hrec, Hcb. repeat split.
    + split; [reflexivity | cbn; unfold MIN_CHUNK_SAMPLES; lia].
    + cbn [resampledBuffer List.concat]. rewrite !app_nil_r. exact Hb1.
    + constructor; [|constructor]. rewrite <- Hc1. exact L.
  - apply Z.leb_gt in L. cbn [fst snd emitted List.concat app].
    split; [|split; [|split]].
    + unfold same_handles. cbn. rewrite Hrec, Hcb. repeat split.
    + split; assumption.
    + exact Hb1.
    + constructor.
Qed.

Lemma handle_all_steps messages : forall r,
  isRecording r = true -> onAudioChunk r = true -> pending_counted r ->
  let h := handle_all messages r in
  same_handles r (fst h) /\
  pending_counted (fst h) /\
  (List.concat (snd h) ++ List.concat (resampledBuffer (fst h))
   = List.concat (resampledBuffer r)
     ++ List.concat
          (map (fun m => resample (fst m) (snd m) TARGET_SAMPLE_RATE)
               messages))%list /\
  Forall (fun chunk => (MIN_CHUNK_SAMPLES <= Z.of_nat (List.length chunk))%Z)
         (snd h).
Proof.
  induction messages as [|m messages IH]; intros r Hrec Hcb Hp.
  - cbn. rewrite app_nil_r. repeat split; try apply Hp. constructor.
  - destruct (handleAudioData_step (fst m) (snd m) r Hrec Hcb Hp)
      as (Hs & Hp1 & Hc & Hf).
    cbv zeta in Hs, Hp1, Hc, Hf.
    destruct Hs as (S1 & S2 & S3 & S4 & S5 & S6 & S7).
    assert (Hrec1 : isRecording (fst (handleAudioData (fst m) (snd m) r))
                    = true) by (rewrite S5; exact Hrec).
    assert (Hcb1 : onAudioChunk (fst (handleAudioData (fst m) (snd m) r))
                   = true) by (rewrite S6; exact Hcb).
    destruct (IH _ Hrec1 Hcb1 Hp1) as (Hs' & Hp2 & Hc' & Hf').
    cbv zeta in Hs', Hp2, Hc', Hf'.
    destruct Hs' as (T1 & T2 & T3 & T4 & T5 & T6 & T7).
    cbn [handle_all fst snd map List.concat].
    split; [|split; [exact Hp2|split]].
    + unfold same_handles.
      rewrite T1, T2, T3, T4, T5, T6, T7. repeat split; assumption.
    + rewrite concat_app, <- !app_assoc, Hc', !app_assoc, Hc. reflexivity.
    + apply Forall_app. split; assumption.
Qed.

(** X16. Nothing is lost in the recorder: while recording, the chunks
    handed to the callback, put end to end and followed by what [stop]
    hands over, are the resampled worklet frames in order; every chunk
    handed over before [stop] has at least 1600 samples; and [stop]
    leaves nothing pending. *)
Theorem recorder_conserves_samples :
  forall (messages late : list (list Z * Q)) (r : t),
    isRecording r = true -> onAudioChunk r = true -> pending_counted r ->
    let h := handle_all messages r in
    let s := stop late (fst h) in
    List.concat (snd h ++ snd s)
    = (List.concat (resampledBuffer r)
       ++ List.concat
            (map (fun m => resample (fst m) (snd m) TARGET_SAMPLE_RATE)
                 (messages ++ late)))%list /\
    Forall (fun chunk => (MIN_CHUNK_SAMPLES <= Z.of_nat (List.length chunk))%Z)
           (snd h) /\
    resampledBuffer (fst s) = [] /\ isRecording (fst s) = false.
Proof.
  intros messages late r Hrec Hcb Hp h s.
  destruct (handle_all_steps messages r Hrec Hcb Hp)
    as (Hs & Hp1 & Hc & Hf).
  cbv zeta in Hs, Hp1, Hc, Hf. fold h in Hs, Hp1, Hc, Hf.
  destruct Hs as (_ & _ & _ & _ & S5 & S6 & _).
  assert (Hrec1 : isRecording (fst h) = true) by (rewrite S5; exact Hrec).
  assert (Hcb1 : onAudioChunk (fst h) = true) by (rewrite S6; exact Hcb).
  destruct (handle_all_steps late (fst h) Hrec1 Hcb1 Hp1)
    as (Hs' & _ & Hc' & _).
  cbv zeta in Hs', Hc'.
  destruct Hs' as (_ & _ & _ & _ & _ & T6 & _).
  split; [|split; [exact Hf | split; reflexivity || idtac]].
  - unfold s, stop. rewrite Hrec1. cbn [negb snd].
    set (h' := handle_all late (fst h)) in *.
    assert (Hflush : List.concat (emitted (snd (flushBuffer (fst h'))))
                     = List.concat (resampledBuffer (fst h'))).
    { unfold flushBuffer.
      destruct (resampledBuffer (fst h')) as [|x l] eqn:E; [reflexivity|].
      rewrite T6, Hcb1. cbn [negb snd emitted List.concat].
      rewrite app_nil_r. reflexivity. }
    rewrite !concat_app, Hflush, map_app, concat_app.
    rewrite Hc', app_assoc, Hc, <- app_assoc. reflexivity.
  - unfold s, stop. rewrite Hrec1. reflexivity.
  - unfold s, stop. rewrite Hrec1. reflexivity.
Qed.

Lemma recorder_conserves_samples_witness :
  let r := fst (start (mkStartEnv true None) new_recorder) in
  let messages := [([1; 2; 3; 4; 5; 6]%Z, 48000); ([7; 8]%Z, 16000)] in
  let late := [([9]%Z, 16000)] in
  (isRecording r = true /\ onAudioChunk r = true /\ pending_counted r) /\
  List.concat (snd (handle_all messages r)
               ++ snd (stop late (fst (handle_all messages r))))
  = [1; 4; 7; 8; 9]%Z.
Proof.
  intros r messages late.
  assert (Hrec : isRecording r = true) by reflexivity.
  assert (Hcb : onAudioChunk r = true) by reflexivity.
  assert (Hp : pending_counted r)
    by (split; [reflexivity | cbn; unfold MIN_CHUNK_SAMPLES; lia]).
  split; [split; [exact Hrec | split; [exact Hcb | exact Hp]]|].
  destruct (recorder_conserves_samples messages late r Hrec Hcb Hp)
    as [H _].
  rewrite H. vm_compute. reflexivity.
Defined.

(** *** Lifecycle *)

Lemma open_streams_app (a b : list PlatformCall) :
  open_streams (a ++ b) = (open_streams a + open_streams b)%Z.
Proof.
  induction a as [|c a IH]; cbn [app open_streams]; [lia|].
  destruct c; rewrite IH; lia.
Qed.

Lemma open_contexts_app (a b : list PlatformCall) :
  open_contexts (a ++ b) = (open_contexts a + open_contexts b)%Z.
Proof.
  induction a as [|c a IH]; cbn [app open_contexts]; [lia|].
  destruct c; rewrite IH; lia.
Qed.

(** [start] on a recorder that holds nothing. *)
Lemma start_released env r :
  released r -> supported env = true ->
  let ok := match failure env with None => true | Some _ => false end in
  snd (start env r) = ok /\
  (if ok then capturing (fst (start env r))
   else released (fst (start env r))) /\
  open_streams (calls (fst (start env r)))
  = (open_streams (calls r) + (if ok then 1 else 0))%Z /\
  open_contexts (calls (fst (start env r)))
  = (open_contexts (calls r) + (if ok then 1 else 0))%Z.
Proof.
  intros Hrel Hsup.
  destruct r as [ac wn sn ms ir cb rb ts cl].
  unfold released in Hrel. cbn in Hrel.
  destruct Hrel as (-> & -> & -> & -> & -> & -> & -> & ->).
  unfold start, fails. cbn [isRecording]. rewrite Hsup. cbn [negb].
  destruct (failure env) as [f|]; [destruct f|];
    cbn -[open_streams open_contexts];
    rewrite ?open_streams_app, ?open_contexts_app;
    cbn; repeat split; lia.
Qed.

Lemma start_balanced env r :
  balanced r -> balanced (fst (start env r)).
Proof.
  intros (Hst & Hs & Hc).
  destruct (isRecording r) eqn:Hrec.
  { unfold start. rewrite Hrec. cbn [fst]. repeat split; assumption. }
  destruct Hst as [Hrel | Hcap];
    [|destruct Hcap as (_ & _ & _ & _ & Hr & _); congruence].
  destruct (supported env) eqn:Hsup.
  2:{ unfold start. rewrite Hrec, Hsup. cbn [negb fst].
      repeat split; try assumption. left. exact Hrel. }
  destruct (start_released env r Hrel Hsup) as (_ & Hk & Ho & Hx).
  cbv zeta in Hk, Ho, Hx.
  destruct Hrel as (R1 & _ & _ & R4 & _).
  rewrite R4 in Hs. rewrite R1 in Hc. rewrite Hs in Ho. rewrite Hc in Hx.
  destruct (failure env).
  - pose proof Hk as (K1 & _ & _ & K4 & _).
    unfold balanced. rewrite Ho, Hx, K1, K4.
    split; [left; exact Hk | split; reflexivity].
  - pose proof Hk as (K1 & _ & _ & K4 & _).
    unfold balanced. rewrite Ho, Hx, K1, K4.
    split; [right; exact Hk | split; reflexivity].
Qed.

Lemma handleAudioData_handles samples rate r :
  same_handles r (fst (handleAudioData samples rate r)).
Proof.
  unfold handleAudioData, same_handles.
  destruct (negb (isRecording r) || negb (onAudioChunk r));
    [cbn; repeat split|].
  match goal with
  | |- context [if ?c then _ else _] => destruct c
  end; [|cbn; repeat split].
  unfold flushBuffer. cbn [resampledBuffer].
  destruct (resampledBuffer r ++ _)%list; [cbn; repeat split|].
  cbn [onAudioChunk]. destruct (negb (onAudioChunk r)); cbn; repeat split.
Qed.

Lemma handle_all_handles messages : forall r,
  same_handles r (fst (handle_all messages r)).
Proof.
  induction messages as [|m messages IH]; intro r; cbn [handle_all fst].
  - repeat split.
  - destruct (handleAudioData_handles (fst m) (snd m) r)
      as (S1 & S2 & S3 & S4 & S5 & S6 & S7).
    destruct (IH (fst (handleAudioData (fst m) (snd m) r)))
      as (T1 & T2 & T3 & T4 & T5 & T6 & T7).
    unfold same_handles.
    rewrite T1, T2, T3, T4, T5, T6, T7. repeat split; assumption.
Qed.

Lemma same_handles_balanced r r' :
  same_handles r r' -> capturing r -> balanced r -> balanced r'.
Proof.
  intros (S1 & S2 & S3 & S4 & S5 & S6 & S7)
         (C1 & C2 & C3 & C4 & C5 & C6) (_ & Hs & Hc).
  unfold balanced, capturing. rewrite S1, S2, S3, S4, S5, S6, S7.
  split; [right; repeat split; assumption | split; assumption].
Qed.

Lemma cleanup_balanced (r : t) :
  open_streams (calls r) = (if mediaStream r then 1 else 0)%Z ->
  open_contexts (calls r) = (if audioContext r then 1 else 0)%Z ->
  balanced (cleanup r).
Proof.
  intros Hs Hc. unfold balanced, cleanup. cbn -[open_streams open_contexts].
  split; [left; repeat split|].
  rewrite !open_streams_app, !open_contexts_app, Hs, Hc.
  destruct (mediaStream r), (audioContext r); cbn; split; reflexivity.
Qed.

Lemma apply_operation_balanced r op :
  balanced r -> balanced (apply_operation r op).
Proof.
  intro H. destruct op as [env|samples rate|late]; cbn [apply_operation].
  - apply start_balanced. exact H.
  - destruct H as ([Hrel | Hcap] & Hs & Hc).
    + unfold handleAudioData.
      destruct Hrel as (R1 & R2 & R3 & R4 & R5 & R6 & R7 & R8).
      rewrite R5. cbn [negb orb fst].
      split; [left; repeat split; assumption | split; assumption].
    + apply (same_handles_balanced r);
        [apply handleAudioData_handles | exact Hcap
        | split; [right; exact Hcap | split; assumption]].
  - unfold stop. destruct (isRecording r) eqn:Hrec; cbn [negb fst];
      [|exact H].
    destruct H as ([Hrel | Hcap] & Hs & Hc).
    { destruct Hrel as (_ & _ & _ & _ & R5 & _). congruence. }
    pose proof (handle_all_handles late r) as Hh.
    set (h := handle_all late r) in *.
    assert (Hf : same_handles (fst h) (fst (flushBuffer (fst h)))).
    { unfold flushBuffer, same_handles.
      destruct (resampledBuffer (fst h)); [cbn; repeat split|].
      destruct (negb (onAudioChunk (fst h))); cbn; repeat split. }
    destruct Hh as (S1 & _ & _ & S4 & _ & _ & S7).
    destruct Hf as (T1 & _ & _ & T4 & _ & _ & T7).
    apply cleanup_balanced.
    + rewrite T7, S7, T4, S4. exact Hs.
    + rewrite T7, S7, T1, S1. exact Hc.
Qed.

(** X17. One microphone at a time: after any sequence of [start],
    worklet messages and [stop] on a new recorder, whatever the platform
    answered, the recorder either holds nothing and is not recording, or
    holds its context, stream and nodes and is recording; and by the log
    of platform calls exactly one stream and one context are open in the
    second case, none in the first.  A failed [start] and a [stop] give
    back everything that was taken. *)
Theorem recorder_holds_at_most_one_stream :
  forall ops : list operation,
    let r := fold_left apply_operation ops new_recorder in
    (released r \/ capturing r) /\
    open_streams (calls r) = (if isRecording r then 1 else 0)%Z /\
    open_contexts (calls r) = (if isRecording r then 1 else 0)%Z.
Proof.
  intros ops r.
  assert (H : balanced r).
  { unfold r. generalize new_recorder,
      (conj (or_introl (conj eq_refl (conj eq_refl (conj eq_refl
              (conj eq_refl (conj eq_refl (conj eq_refl
                (conj eq_refl eq_refl))))))))
            (conj eq_refl eq_refl) : balanced new_recorder).
    induction ops as [|op ops IH]; intros r0 H0; cbn [fold_left].
    - exact H0.
    - apply IH. apply apply_operation_balanced. exact H0. }
  destruct H as (Hst & Hs & Hc).
  split; [exact Hst|].
  destruct Hst as [Hrel | Hcap].
  - destruct Hrel as (R1 & _ & _ & R4 & R5 & _).
    rewrite R5. rewrite R4 in Hs. rewrite R1 in Hc. split; assumption.
  - destruct Hcap as (C1 & _ & _ & C4 & C5 & _).
    rewrite C5. rewrite C4 in Hs. rewrite C1 in Hc. split; assumption.
Qed.

(** X18. [start] succeeds exactly when it should: on a recorder that is
    already recording it returns false and changes nothing; on a
    recorder that holds nothing it returns true exactly when the API is
    supported and no step fails, and then the recorder is capturing;
    when it returns false the recorder again holds nothing. *)
Theorem recorder_start_outcome :
  forall (env : StartEnv) (r : t),
    (isRecording r = true -> start env r = (r, false)) /\
    (released r ->
     snd (start env r)
     = supported env && match failure env with
                        | None => true
                        | Some _ => false
                        end /\
     (if snd (start env r)
      then capturing (fst (start env r))
      else released (fst (start env r)))).
Proof.
  intros env r. split.
  - intro Hrec. unfold start. rewrite Hrec. reflexivity.
  - intro Hrel.
    destruct (supported env) eqn:Hsup.
    + destruct (start_released env r Hrel Hsup) as (Hok & Hk & _).
      cbv zeta in Hok, Hk. rewrite Hok. cbn [andb]. split; [reflexivity|].
      exact Hk.
    + unfold start.
      destruct Hrel as (R1 & R2 & R3 & R4 & R5 & R6 & R7 & R8).
      rewrite R5, Hsup. cbn [negb fst snd andb].
      split; [reflexivity | repeat split; assumption].
Qed.

Lemma recorder_start_outcome_witness :
  let env := mkStartEnv true (Some AcquireStream) in
  released new_recorder /\
  snd (start env new_recorder) = false /\
  released (fst (start env new_recorder)) /\
  calls (fst (start env new_recorder)) = [NewAudioContext; CloseAudioContext].
Proof.
  intro env.
  assert (Hrel : released new_recorder) by (repeat split).
  split; [exact Hrel|].
  destruct (proj2 (recorder_start_outcome env new_recorder) Hrel) as [H1 H2].
  split; [exact H1|]. rewrite H1 in H2. split; [exact H2 | reflexivity].
Defined.

End RecorderMore.

(** ** Therapy store: slideshow position *)

Section StoreMore.

Import TherapyStore.

Variable Media : Type.

Lemma act_position (s : t Media) (a : action) :
  position_valid s ->
  position_valid (act s a) /\
  mediaQueue (act s a) = mediaQueue s /\
  (photosViewed s <= photosViewed (act s a)
   <= photosViewed s + (match a with NextPhoto => 1 | _ => 0 end))%Z.
Proof.
  intros [H0 H1]. unfold position_valid.
  destruct a as [| |index|]; cbn [act].
  - unfold nextPhoto.
    destruct (currentIndex s <? Z.of_nat (List.length (mediaQueue s)) - 1)%Z
      eqn:L; cbn.
    + apply Z.ltb_lt in L. repeat split; lia.
    + repeat split; try assumption; lia.
  - unfold previousPhoto.
    destruct (0 <? currentIndex s)%Z eqn:L; cbn.
    + apply Z.ltb_lt in L. repeat split; lia.
    + repeat split; try assumption; lia.
  - unfold goToPhoto.
    destruct ((0 <=? index)%Z
              && (index <? Z.of_nat (List.length (mediaQueue s)))%Z) eqn:L;
      cbn.
    + apply andb_true_iff in L. destruct L as [L1 L2].
      apply Z.leb_le in L1. apply Z.ltb_lt in L2. repeat split; lia.
    + repeat split; try assumption; lia.
  - cbn. repeat split; try assumption; lia.
Qed.

End StoreMore.

(** X27. The slideshow position stays inside the queue: from a valid
    position, after any sequence of next, previous, go-to (with any
    index, in range or not) and pause actions, the position is still
    valid, the queue is unchanged, and the count of photos viewed has
    not decreased and has grown by at most the number of next actions. *)
Theorem slideshow_position_stays_valid :
  forall (Media : Type) (actions : list TherapyStore.action)
         (s : TherapyStore.t Media),
    position_valid s ->
    let s' := fold_left (@TherapyStore.act Media) actions s in
    position_valid s' /\
    TherapyStore.mediaQueue s' = TherapyStore.mediaQueue s /\
    (TherapyStore.photosViewed s <= TherapyStore.photosViewed s'
     <= TherapyStore.photosViewed s
        + Z.of_nat (List.length
                      (filter (fun a => match a with
                                        | TherapyStore.NextPhoto => true
                                        | _ => false
                                        end) actions)))%Z.
Proof.
  intros Media actions.
  induction actions as [|a actions IH]; intros s H.
  - cbn. repeat split; try apply H; lia.
  - destruct (act_position Media s a H) as (H1 & H2 & H3).
    destruct (IH _ H1) as (I1 & I2 & I3).
    cbn [fold_left]. cbv zeta in I1, I2, I3 |- *.
    split; [exact I1|]. split; [congruence|].
    cbn [filter]. destruct a; cbn [List.length]; lia.
Qed.

Lemma slideshow_position_stays_valid_witness :
  let s := TherapyStore.started_with ["a"; "b"; "c"]%string in
  let actions := [TherapyStore.NextPhoto; TherapyStore.NextPhoto;
                  TherapyStore.NextPhoto; TherapyStore.GoToPhoto 7;
                  TherapyStore.PreviousPhoto; TherapyStore.GoToPhoto (-1);
                  TherapyStore.NextPhoto] in
  position_valid s /\
  position_valid (fold_left (@TherapyStore.act string) actions s) /\
  TherapyStore.currentIndex (fold_left (@TherapyStore.act string) actions s)
  = 2%Z.
Proof.
  intros s actions.
  assert (H : position_valid s) by (unfold position_valid; cbn; lia).
  split; [exact H|].
  destruct (slideshow_position_stays_valid string actions s H) as [H1 _].
  split; [exact H1 | reflexivity].
Defined.

(** ** Session state machine: what the handlers never do *)

Section SessionMore.

Import VoiceSession.
Local Open Scope string_scope.

Lemma grows_refl (A : Type) (l : list A) : grows_by_at_most_one l l.
Proof. exists []. rewrite app_nil_r. split; [reflexivity | cbn; lia]. Qed.

Lemma grows_one (A : Type) (l : list A) (x : A) :
  grows_by_at_most_one l (l ++ [x]).
Proof. exists [x]. split; [reflexivity | cbn; lia]. Qed.

Lemma socket_only_sent_refl (ws : option WebSocket) : socket_only_sent ws ws.
Proof.
  destruct ws as [w|]; [|exact I]. cbn. repeat split.
  exists []. rewrite app_nil_r. repeat split; [cbn; lia | constructor].
Qed.

Ltac same_session :=
  split; [first [left; reflexivity
                | right; left; reflexivity
                | right; right; reflexivity]
         |split; [first [apply grows_refl | apply grows_one]
                 |split; [apply socket_only_sent_refl
                         |split; reflexivity]]].

(** X19. What a message can do: whatever arrives on the socket and
    whatever [JSON.parse] makes of it, [handleMessage] leaves the session
    state as it is or sets it to 'connected' or 'speaking' (never to
    'error', 'disconnected', 'connecting', 'listening' or 'processing');
    it appends at most one entry to the transcript and removes none; it
    hands at most one frame, a text frame, to the same socket; and it
    keeps the initial photo. *)
Theorem handleMessage_effects :
  forall (JSON_parse : string -> option JsValue)
         (JSON_stringify : JsValue -> string)
         (now : Q) (date : string) (data : MessageData) (st : t),
    let st' := state_of (handleMessage JSON_parse JSON_stringify now date
                                       data st) in
    (state st' = state st \/ state st' = Connected \/ state st' = Speaking) /\
    grows_by_at_most_one (currentTranscript st) (currentTranscript st') /\
    socket_only_sent (wsRef st) (wsRef st') /\
    initialPhotoRef st' = initialPhotoRef st /\
    audioModeSetRef st' = audioModeSetRef st.
Proof.
  intros JSON_parse JSON_stringify now date data st.
  unfold handleMessage.
  destruct data as [bytes|s|]; [| |cbn [state_of]; same_session].
  - destruct bytes as [|b rest]; [cbn [state_of]; same_session|].
    destruct (byte_val b =? 1)%Z; [|cbn [state_of]; same_session].
    destruct (playbackEngineRef st) as [engine|];
      [|cbn [state_of]; same_session].
    destruct (engine_enqueue now (skipn 13 (b :: rest)) engine);
      destruct (negb (state_eqb (state st) Speaking));
      cbn [state_of]; cbn -[socket_only_sent grows_by_at_most_one]; same_session.
  - destruct (JSON_parse s) as [messageData|];
      [|cbn [state_of]; cbn -[socket_only_sent grows_by_at_most_one]; same_session].
    destruct (member "type" messageData) as [type|];
      [|cbn [state_of]; same_session].
    destruct (is_literal type "connected").
    { cbv zeta. unfold is_open, ws_send.
      cbn [initialPhotoRef wsRef setState perform].
      destruct (initialPhotoRef st) as [photo|] eqn:P;
        [|cbn [state_of]; cbn -[socket_only_sent grows_by_at_most_one]; rewrite ?P; same_session].
      destruct (wsRef st) as [w|] eqn:W;
        [|cbn [state_of]; cbn -[socket_only_sent grows_by_at_most_one]; rewrite ?P, ?W; same_session].
      destruct (readyState w) eqn:R;
        cbn [state_of]; cbn -[socket_only_sent grows_by_at_most_one];
        rewrite ?P, ?W; try same_session.
      split; [right; left; reflexivity|].
      split; [apply grows_refl|].
      split; [|split; reflexivity].
      cbn. split; [reflexivity|]. split; [reflexivity|].
      eexists [_]. split; [reflexivity|]. split; [cbn; lia|].
      constructor; [eexists; reflexivity | constructor]. }
    destruct (is_literal type "transcript");
      [cbn [state_of]; cbn -[socket_only_sent grows_by_at_most_one]; same_session|].
    destruct (is_literal type "interrupted").
    { destruct (playbackEngineRef st); cbn [state_of]; cbn -[socket_only_sent grows_by_at_most_one]; same_session. }
    destruct (is_literal type "photo_context_updated");
      [cbn [state_of]; cbn -[socket_only_sent grows_by_at_most_one]; same_session|].
    destruct (is_literal type "error");
      cbn [state_of]; cbn -[socket_only_sent grows_by_at_most_one]; same_session.
Qed.

Lemma engine_clear_inactive (engine : AudioPlaybackEngine) :
  engine_isActive (engine_clear engine) = false.
Proof. destruct engine; reflexivity. Qed.

(** X20. Interruption: on a message of type 'interrupted', from any
    state, the session becomes 'connected' and its playback engine is
    cleared, so it is no longer active; on the web engine nothing
    remains scheduled or queued.  The transcript, the error message and
    the socket are untouched. *)
Theorem interrupted_clears_playback :
  forall (JSON_parse : string -> option JsValue)
         (JSON_stringify : JsValue -> string)
         (now : Q) (date s : string) (messageData : JsValue)
         (engine : AudioPlaybackEngine) (st : t),
    JSON_parse s = Some messageData ->
    member "type" messageData = Some (JString "interrupted") ->
    playbackEngineRef st = Some engine ->
    exists st',
      handleMessage JSON_parse JSON_stringify now date (DataString s) st
      = Returns st' /\
      state st' = Connected /\
      playbackEngineRef st' = Some (engine_clear engine) /\
      engine_isActive (engine_clear engine) = false /\
      (forall w, engine = WebEngine w ->
                 WebAudioPlaybackEngine.scheduled
                   (WebAudioPlaybackEngine.clear w) = [] /\
                 WebAudioPlaybackEngine.bufferedChunks
                   (WebAudioPlaybackEngine.clear w) = []) /\
      currentTranscript st' = currentTranscript st /\
      error_message st' = error_message st /\
      wsRef st' = wsRef st.
Proof.
  intros JSON_parse JSON_stringify now date s messageData engine st
         Hp Ht He.
  unfold handleMessage. rewrite Hp, Ht, He.
  change (is_literal (JString "interrupted") "connected") with false.
  change (is_literal (JString "interrupted") "transcript") with false.
  change (is_literal (JString "interrupted") "interrupted") with true.
  cbv iota.
  eexists. split; [reflexivity|].
  repeat split; try apply engine_clear_inactive.
  - unfold WebAudioPlaybackEngine.clear, WebAudioPlaybackEngine.scheduled.
    cbn. destruct (WebAudioPlaybackEngine.destroyed w);
      [destruct (WebAudioPlaybackEngine.ctx w)|]; reflexivity.
Qed.

Lemma interrupted_clears_playback_witness :
  let messageData := JObject [("type", JString "interrupted")] in
  let parse := fun _ : string => Some messageData in
  let engine :=
    WebEngine
      (WebAudioPlaybackEngine.enqueue_all
         [(0, [x00; x00]); (0, [x01; x00]); (0, [x02; x00])]
         (WebAudioPlaybackEngine.init WebAudioPlaybackEngine.new_engine)) in
  let st := set_playbackEngineRef (Some engine)
                                  (setState Speaking (new_session None)) in
  (parse "{}" = Some messageData /\
   member "type" messageData = Some (JString "interrupted") /\
   playbackEngineRef st = Some engine /\ engine_isActive engine = true) /\
  exists st',
    handleMessage parse (fun _ => EmptyString) 1 "2025-01-01T00:00:00.000Z"
                  (DataString "{}") st
    = Returns st' /\
    state st' = Connected /\
    playbackEngineRef st' = Some (engine_clear engine).
Proof.
  intros messageData parse engine st.
  assert (Hp : parse "{}" = Some messageData) by reflexivity.
  assert (Ht : member "type" messageData = Some (JString "interrupted"))
    by reflexivity.
  assert (He : playbackEngineRef st = Some engine) by reflexivity.
  split; [repeat split; assumption|].
  destruct (interrupted_clears_playback
              parse (fun _ => EmptyString) 1 "2025-01-01T00:00:00.000Z" "{}"
              messageData engine st Hp Ht He)
    as (st' & H1 & H2 & H3 & _).
  exists st'. repeat split; assumption.
Defined.

(** X21. Speaking ends by drain: an audio message (type 0x01) received
    while an engine exists puts the session in 'speaking', from any
    state and whether or not the payload is accepted; the drained
    callback then brings it back to 'connected'; in any other state the
    drained callback changes nothing. *)
Theorem speaking_until_drained :
  forall (JSON_parse : string -> option JsValue)
         (JSON_stringify : JsValue -> string)
         (now : Q) (date : string) (payload : list byte)
         (engine : AudioPlaybackEngine) (st : t),
    playbackEngineRef st = Some engine ->
    let st' := state_of (handleMessage JSON_parse JSON_stringify now date
                                       (DataArrayBuffer (x01 :: payload))
                                       st) in
    state st' = Speaking /\
    playbackEngineRef st'
    = Some (state_of (engine_enqueue now (skipn 13 (x01 :: payload)) engine))
    /\
    state (drained st') = Connected /\
    (state st <> Speaking -> drained st = st).
Proof.
  intros JSON_parse JSON_stringify now date payload engine st He.
  unfold handleMessage.
  change (byte_val x01 =? 1)%Z with true. cbv iota. rewrite He.
  assert (Hs : state (if negb (state_eqb (state st) Speaking)
                      then setState Speaking st else st) = Speaking).
  { destruct (state st) eqn:E; cbn; try reflexivity; exact E. }
  cbv zeta.
  split; [|split; [|split]].
  - destruct (engine_enqueue now _ engine); cbn [state_of]; exact Hs.
  - destruct (engine_enqueue now _ engine); reflexivity.
  - unfold drained.
    destruct (engine_enqueue now _ engine); cbn [state_of];
      cbn [state set_playbackEngineRef]; rewrite Hs; reflexivity.
  - intro Hne. unfold drained.
    destruct (state st); try reflexivity. congruence.
Qed.

Lemma speaking_until_drained_witness :
  let engine := engine_init (createPlaybackEngine web) in
  let st := set_playbackEngineRef (Some engine)
                                  (setState Connected (new_session None)) in
  let frame := [x00; x00; x00; x00; x00; x00; x00; x00; x00; x00; x00; x00;
                x00; x40] in
  playbackEngineRef st = Some engine /\
  state (state_of (handleMessage (fun _ => None) (fun _ => EmptyString)
                                 0 "2025-01-01T00:00:00.000Z"
                                 (DataArrayBuffer (x01 :: frame)) st))
  = Speaking.
Proof.
  intros engine st frame.
  assert (He : playbackEngineRef st = Some engine) by reflexivity.
  split; [exact He|].
  exact (proj1 (speaking_until_drained (fun _ => None) (fun _ => EmptyString)
                                       0 "2025-01-01T00:00:00.000Z" frame
                                       engine st He)).
Defined.

Lemma configured_guard (p : Props) :
  configured p ->
  negb (truthy (sessionId p)) || negb (truthy (patientId p))
  || negb (truthy (GEMINI_API_KEY p)) = false.
Proof. intros (H1 & H2 & H3). rewrite H1, H2, H3. reflexivity. Qed.

Lemma setupAudioMode_keeps (throws : bool) (st : t) :
  let st' := setupAudioMode throws st in
  state st' = state st /\ error_message st' = error_message st /\
  wsRef st' = wsRef st /\ playbackEngineRef st' = playbackEngineRef st /\
  currentTranscript st' = currentTranscript st /\
  exists evs, io st' = (io st ++ evs)%list /\ no_socket_created evs.
Proof.
  unfold setupAudioMode.
  destruct (audioModeSetRef st).
  - repeat split. exists []. split; [symmetry; apply app_nil_r|constructor].
  - destruct throws; cbn; repeat split.
    + exists [SetAudioMode;
               Log error "[VoiceSession] Failed to set audio mode:" []].
      split; [rewrite <- app_assoc; reflexivity|].
      repeat constructor; intros wsUrl; discriminate.
    + exists [SetAudioMode]. split; [reflexivity|].
      repeat constructor; intros wsUrl; discriminate.
Qed.

(** X22. No microphone, no socket: with a complete configuration and no
    open socket, [connect] whose permission request is rejected or
    answered by anything but 'granted' ends in 'error', creates no
    WebSocket and no playback engine, and leaves the socket reference
    as it was; the transcript has nevertheless been cleared. *)
Theorem connect_needs_permission :
  forall (p : Props) (env : ConnectEnv) (st : t),
    configured p ->
    is_open (wsRef st) = false ->
    permission env <> Some "granted" ->
    let st' := connect p env st in
    state st' = Error /\
    (error_message st' = JString "Microphone permission denied" \/
     error_message st' = JString "Failed to connect") /\
    wsRef st' = wsRef st /\
    playbackEngineRef st' = playbackEngineRef st /\
    currentTranscript st' = [] /\
    exists evs, io st' = (io st ++ evs)%list /\ no_socket_created evs.
Proof.
  intros p env st Hc Ho Hp.
  unfold connect. rewrite (configured_guard p Hc), Ho. cbv zeta.
  set (st1 := clearTranscript (setError JNull (setState Connecting st))).
  destruct (setupAudioMode_keeps (audioModeThrows env) st1)
    as (_ & _ & Hw & He & Ht & evs & Hio & Hevs).
  set (st2 := setupAudioMode (audioModeThrows env) st1) in *.
  destruct (permission env) as [status|] eqn:E.
  - assert (Hs : String.eqb status "granted" = false).
    { apply String.eqb_neq. congruence. }
    rewrite Hs. cbn.
    repeat split; try assumption.
    + left; reflexivity.
    + exists (evs ++ [RequestPermissions])%list.
      rewrite Hio. split; [rewrite <- app_assoc; reflexivity|].
      apply Forall_app. split; [exact Hevs|].
      repeat constructor; intros wsUrl; discriminate.
  - cbn.
    repeat split; try assumption.
    + right; reflexivity.
    + exists (evs ++ [RequestPermissions;
                      Log error "[VoiceSession] Connection failed:" []])%list.
      rewrite Hio. split; [rewrite <- !app_assoc; reflexivity|].
      apply Forall_app. split; [exact Hevs|].
      repeat constructor; intros wsUrl; discriminate.
Qed.

Lemma connect_needs_permission_witness :
  let p := mkProps (Some "session-1") (Some "patient-1") (Some "key")
                   (Some "jwt") "ws://localhost:8000" web in
  let env := mkConnectEnv false (Some "undetermined") in
  let st := new_session None in
  (configured p /\ is_open (wsRef st) = false /\
   permission env <> Some "granted") /\
  state (connect p env st) = Error /\ wsRef (connect p env st) = None.
Proof.
  intros p env st.
  assert (Hc : configured p) by (repeat split).
  assert (Ho : is_open (wsRef st) = false) by reflexivity.
  assert (Hp : permission env <> Some "granted") by discriminate.
  split; [repeat split; assumption|].
  destruct (connect_needs_permission p env st Hc Ho Hp)
    as (H1 & _ & H3 & _).
  split; [exact H1 | exact H3].
Defined.

(** X23. One socket only once it is open: after a successful [connect]
    the socket is CONNECTING; once [onopen] has run, a further
    [connect] changes nothing at all, whatever the platform would
    answer; before that, a further [connect] with permission granted
    creates a second WebSocket and replaces the reference to the
    first. *)
Theorem connect_ignored_once_open :
  forall (p : Props) (env env' : ConnectEnv) (st : t),
    configured p ->
    is_open (wsRef st) = false ->
    permission env = Some "granted" ->
    let st1 := connect p env st in
    wsRef st1 = Some (mkWebSocket (wsUrl_of p) CONNECTING []) /\
    connect p env' (onopen st1) = onopen st1 /\
    (permission env' = Some "granted" ->
     exists evs,
       io (connect p env' st1) = (io st1 ++ evs ++ [NewWebSocket (wsUrl_of p)])%list).
Proof.
  intros p env env' st Hc Ho Hp.
  assert (Hw : wsRef (connect p env st)
               = Some (mkWebSocket (wsUrl_of p) CONNECTING [])).
  { unfold connect. rewrite (configured_guard p Hc), Ho, Hp. reflexivity. }
  cbv zeta. split; [exact Hw|]. split.
  - unfold connect at 1. rewrite (configured_guard p Hc).
    unfold onopen at 1. rewrite Hw. reflexivity.
  - intros Hp'.
    unfold connect at 1. rewrite (configured_guard p Hc), Hw, Hp'.
    cbn [is_open readyState].
    change (String.eqb "granted" "granted") with true.
    cbn [negb]. cbv iota zeta.
    set (st1 := connect p env st).
    set (c := clearTranscript (setError JNull (setState Connecting st1))).
    destruct (setupAudioMode_keeps (audioModeThrows env') c)
      as (_ & _ & _ & _ & _ & evs & Hio & _).
    exists (evs ++ [RequestPermissions])%list.
    cbn [io set_wsRef perform set_playbackEngineRef].
    rewrite Hio. cbn [io c clearTranscript set_transcript setError setState].
    rewrite <- !app_assoc. reflexivity.
Qed.

Lemma connect_ignored_once_open_witness :
  let p := mkProps (Some "session-1") (Some "patient-1") (Some "key")
                   (Some "jwt") "ws://localhost:8000" web in
  let env := mkConnectEnv false (Some "granted") in
  let st := new_session None in
  (configured p /\ is_open (wsRef st) = false /\
   permission env = Some "granted") /\
  connect p env (onopen (connect p env st)) = onopen (connect p env st).
Proof.
  intros p env st.
  assert (Hc : configured p) by (repeat split).
  assert (Ho : is_open (wsRef st) = false) by reflexivity.
  assert (Hp : permission env = Some "granted") by reflexivity.
  split; [repeat split; assumption|].
  exact (proj1 (proj2 (connect_ignored_once_open p env env st Hc Ho Hp))).
Defined.

(** X24. How a connection ends: the close handler always drops the
    socket reference; it reports 'disconnected' unless the session is
    already in 'error', so a transport error followed by the close
    event stays in 'error' with the message 'Connection error'.  In
    either case the playback engine and the transcript are kept, and a
    later [connect] is no longer ignored. *)
Theorem close_after_error_stays_error :
  forall (st : t),
    let failed := onclose (onerror st) in
    let closed := onclose st in
    state failed = Error /\
    error_message failed = JString "Connection error" /\
    wsRef failed = None /\ wsRef closed = None /\
    (state st <> Error -> state closed = Disconnected) /\
    (state st = Error -> state closed = Error) /\
    error_message closed = error_message st /\
    playbackEngineRef failed = playbackEngineRef st /\
    playbackEngineRef closed = playbackEngineRef st /\
    currentTranscript failed = currentTranscript st /\
    currentTranscript closed = currentTranscript st /\
    is_open (wsRef failed) = false /\ is_open (wsRef closed) = false.
Proof.
  intros st. unfold onclose, onerror. cbn.
  destruct (state st) eqn:E; cbn; repeat split;
    intros; try reflexivity; try congruence.
Qed.

Lemma push_if_any_nil (label : string) : push_if_any label [] = [].
Proof. reflexivity. Qed.

Lemma tag_values_none (ty : string) (l : list Tag) :
  Forall (fun tag => String.eqb (tag_type tag) ty = false) l ->
  tag_values ty l = [].
Proof.
  unfold tag_values. induction 1 as [|tag l H _ IH]; [reflexivity|].
  cbn [filter]. rewrite H. exact IH.
Qed.

(** X25. The fallback description: a photo whose caption and date are
    missing or empty and none of whose tags is a person, a place or an
    event is described by the fixed sentence 'No additional context
    available for this photo.', however many tags of other types it
    carries. *)
Theorem description_falls_back :
  forall (photo : PhotoContext) (l : list Tag),
    truthy (caption photo) = false ->
    truthy (date_taken photo) = false ->
    tags photo = Some l ->
    Forall (fun tag => String.eqb (tag_type tag) "person" = false /\
                       String.eqb (tag_type tag) "place" = false /\
                       String.eqb (tag_type tag) "event" = false) l ->
    buildPhotoDescription photo = NO_CONTEXT.
Proof.
  intros photo l Hc Hd Ht Hl.
  assert (Pc : forall line, push_if_present (caption photo) line = []).
  { intros line. unfold push_if_present.
    destruct (caption photo) as [c|]; [|reflexivity].
    cbn in Hc. rewrite Hc. reflexivity. }
  assert (Pd : forall line, push_if_present (date_taken photo) line = []).
  { intros line. unfold push_if_present.
    destruct (date_taken photo) as [d|]; [|reflexivity].
    cbn in Hd. rewrite Hd. reflexivity. }
  unfold buildPhotoDescription, description_parts.
  rewrite Pc, Pd, Ht.
  rewrite !tag_values_none.
  - destruct (0 <? List.length l)%nat; reflexivity.
  - eapply Forall_impl; [|exact Hl]. intros tag H; apply H.
  - eapply Forall_impl; [|exact Hl]. intros tag H; apply H.
  - eapply Forall_impl; [|exact Hl]. intros tag H; apply H.
Qed.

Lemma description_falls_back_witness :
  let l := [mkTag "object" "piano"; mkTag "emotion" "joy"] in
  let photo := mkPhoto "photo-1" (Some EmptyString) (Some l) None in
  (truthy (caption photo) = false /\ truthy (date_taken photo) = false /\
   tags photo = Some l) /\
  buildPhotoDescription photo = NO_CONTEXT.
Proof.
  intros l photo.
  assert (Hc : truthy (caption photo) = false) by reflexivity.
  assert (Hd : truthy (date_taken photo) = false) by reflexivity.
  assert (Ht : tags photo = Some l) by reflexivity.
  split; [repeat split; assumption|].
  apply (description_falls_back photo l Hc Hd Ht).
  repeat constructor.
Defined.

Lemma concat_labelled (sep : string) (a : ascii) (x : string)
      (rest : list string) :
  String.concat sep (String a x :: rest) <> EmptyString.
Proof. destruct rest; cbn; discriminate. Qed.

(** X26. The description is never empty: whatever the photo holds,
    [buildPhotoDescription] returns at least one character, so the
    greeting sent on 'connected' always carries a description. *)
Theorem description_never_empty :
  forall (photo : PhotoContext),
    buildPhotoDescription photo <> EmptyString.
Proof.
  intros photo.
  unfold buildPhotoDescription, description_parts, push_if_present,
    push_if_any.
  destruct (caption photo) as [c|];
    [destruct (String.eqb c EmptyString)|];
    (destruct (date_taken photo) as [d|];
     [destruct (String.eqb d EmptyString)|]);
    (destruct (tags photo) as [l|]; [|cbn; try discriminate;
                                       try apply concat_labelled]);
    try (destruct l as [|tag l];
         [cbn; try discriminate; try apply concat_labelled|];
         cbn [List.length Nat.ltb Nat.leb negb];
         generalize (tag_values "person" (tag :: l)) as people;
         generalize (tag_values "place" (tag :: l)) as places;
         generalize (tag_values "event" (tag :: l)) as events;
         intros [|e events] [|pl places] [|pe people];
         cbn; try discriminate; try apply concat_labelled).
Qed.

End SessionMore.
